(** * RequestHandler: a throttled dispatcher of HTTP GET requests

    A shallow embedding of [requesthandler/requesthandler.py].

    The Python class keeps its state in attributes of one shared instance
    and in objects owned by the asyncio runtime (tasks, futures), by aiohttp
    (client sessions) and by the operating system (signal handlers).  The
    embedding makes all of that an explicit [World]; every method is a
    function in a state-and-exception monad over it.

    Coroutines are modelled at their suspension points.  A method of the
    handler runs from its call to its return, or to the [await] of
    something that is not done yet.  The scheduler task is a state machine
    over the three places where [_scheduler] waits; [run_task] resumes it
    from one to the next.  A [fetch()] task runs from creation to
    completion in one [run_task]: between its suspension points it touches
    nothing shared but its own future.  The interleaving of callers and
    tasks is a list of [Action]s, in any order.

    Time is not measured: the one-second wait for the queue times out when
    the scheduler is resumed while the queue is empty, and a sleep ends
    when the scheduler is resumed.  Durations and the [extra] fields of log
    records are left out.  Tasks and sessions are not tied to the loop
    they were created under: [configure] under a new loop cancels and
    awaits the old task like any other.  The worlds are those of one
    instance of the handler; [reset], which drops the instance without
    touching its resources, is not among the actions. *)

From Stdlib Require Import ZArith String List Lia Bool Arith.
From stdpp Require Import base option list gmap.
Import ListNotations.

Local Open Scope Z_scope.
Local Open Scope string_scope.

(** ** Python exceptions *)

(** What the network call can fail with: aiohttp's [ClientError] family, a
    timeout, or a body that does not decode. *)
Inductive TransportError : Type :=
| ClientError (msg : string)
| TimeoutError
| UnicodeDecodeError.

Inductive PyExc : Type :=
| RuntimeError (msg : string)
| AttributeError (msg : string)
| ValueError (msg : string)
| NotImplementedError
| InvalidStateError
| CancelledError
| Transport (e : TransportError).

(** [isinstance(e, Exception)]: [asyncio.CancelledError] derives from
    [BaseException], every other class above from [Exception]. *)
Definition is_Exception (e : PyExc) : bool :=
  match e with
  | CancelledError => false
  | _ => true
  end.

Definition is_CancelledError (e : PyExc) : bool :=
  match e with
  | CancelledError => true
  | _ => false
  end.

Definition is_NotImplementedError (e : PyExc) : bool :=
  match e with
  | NotImplementedError => true
  | _ => false
  end.

(** ** Values *)

Inductive Level : Type := DEBUG | INFO | WARNING | ERROR.

(** What [get] returns: [response.read()] gives bytes, [response.text()] a
    string. *)
Inductive Body : Type :=
| Bytes (b : list Byte.byte)
| Text (s : string).

(** [asyncio.Future]: pending, or done in one of three ways. *)
Inductive Future : Type :=
| FutPending
| FutResult (b : Body)
| FutException (e : PyExc)
| FutCancelled.

(** The coroutine object [fetch()] built by [get]: a closure over [url],
    [raw], the chosen user agent and the future of the request. *)
Record Coroutine : Type := mkCoroutine {
  c_url : string;
  c_raw : bool;
  c_agent : string;
  c_future : nat
}.

(** Where the [_scheduler] coroutine is suspended. *)
Inductive SchedulerPoint : Type :=
| Starting
    (* created by [create_task], not yet run *)
| Collecting (todo : nat) (batch : list nat)
    (* in [await asyncio.wait_for(self.queue.get(), timeout=1)], with
       [todo] iterations of [for _ in range(self._batch_size)] left, this
       one included, and [batch] the tasks appended so far *)
| Executing (batch : list nat)
    (* in [await asyncio.gather] of the batch *)
| Sleeping (delay : Z).
    (* in [await asyncio.sleep(delay)] *)

Inductive Outcome : Type :=
| Returned
| Raised (e : PyExc)
| WasCancelled.

(** [asyncio.Task]: a live coroutine or a finished one. *)
Inductive Task : Type :=
| SchedulerTask (at_point : SchedulerPoint)
| FetchTask (c : Coroutine)
| Done (o : Outcome).

Inductive Signal : Type := SIGINT | SIGTERM | SIGBREAK.

(** The two callbacks [_register_shutdown_hooks] can install. *)
Inductive Hook : Type :=
| on_shutdown      (* through [loop.add_signal_handler] *)
| sync_shutdown.   (* through [signal.signal] *)

(** Calls made on objects outside the handler, in program order. *)
Inductive Effect : Type :=
| Logged (level : Level) (msg : string)
| SessionCreated (sid : nat)
| SessionCloseCalled (sid : nat)
| TaskCreated (tid : nat)
| TaskCancelCalled (tid : nat)
| PutNowait (c : Coroutine)
| SetResult (fid : nat)
| SetException (fid : nat)
| Slept (delay : Z).

(** ** The handler instance and the world around it *)

(** Attributes of the singleton.  [__new__] sets [_is_configured] only;
    the others do not exist ([hasattr] is false) until assigned. *)
Record Handler : Type := mkHandler {
  _is_configured : bool;
  _scheduler_loop : option nat;
  _scheduler_task : option nat;
  queue : option (list Coroutine);
  session : option nat;
  _batch_size : option Z;
  _shutdown_started : option bool
}.

Record World : Type := mkWorld {
  self : Handler;
  sessions : gmap nat bool;          (* session id -> [session.closed] *)
  tasks : gmap nat Task;
  futures : gmap nat Future;
  hooks : list (Signal * Hook);      (* most recent registration first *)
  rng_pos : nat;                     (* draws taken from [random] so far *)
  trace : list Effect                (* most recent effect first *)
}.

(** The instance as [__new__] creates it, in a fresh process. *)
Definition new_handler : Handler :=
  {| _is_configured := false; _scheduler_loop := None; _scheduler_task := None;
     queue := None; session := None; _batch_size := None;
     _shutdown_started := None |}.

Definition new_world : World :=
  {| self := new_handler; sessions := ∅; tasks := ∅; futures := ∅;
     hooks := []; rng_pos := 0%nat; trace := [] |}.

Definition with_self (f : Handler -> Handler) (w : World) : World :=
  {| self := f (self w); sessions := sessions w; tasks := tasks w;
     futures := futures w; hooks := hooks w; rng_pos := rng_pos w;
     trace := trace w |}.

Definition with_sessions (f : gmap nat bool -> gmap nat bool) (w : World) : World :=
  {| self := self w; sessions := f (sessions w); tasks := tasks w;
     futures := futures w; hooks := hooks w; rng_pos := rng_pos w;
     trace := trace w |}.

Definition with_tasks (f : gmap nat Task -> gmap nat Task) (w : World) : World :=
  {| self := self w; sessions := sessions w; tasks := f (tasks w);
     futures := futures w; hooks := hooks w; rng_pos := rng_pos w;
     trace := trace w |}.

Definition with_futures (f : gmap nat Future -> gmap nat Future) (w : World) : World :=
  {| self := self w; sessions := sessions w; tasks := tasks w;
     futures := f (futures w); hooks := hooks w; rng_pos := rng_pos w;
     trace := trace w |}.

Definition with_hooks (f : list (Signal * Hook) -> list (Signal * Hook)) (w : World) : World :=
  {| self := self w; sessions := sessions w; tasks := tasks w;
     futures := futures w; hooks := f (hooks w); rng_pos := rng_pos w;
     trace := trace w |}.

Definition with_rng_pos (f : nat -> nat) (w : World) : World :=
  {| self := self w; sessions := sessions w; tasks := tasks w;
     futures := futures w; hooks := hooks w; rng_pos := f (rng_pos w);
     trace := trace w |}.

Definition with_trace (f : list Effect -> list Effect) (w : World) : World :=
  {| self := self w; sessions := sessions w; tasks := tasks w;
     futures := futures w; hooks := hooks w; rng_pos := rng_pos w;
     trace := f (trace w) |}.

(** ** What the process cannot choose *)

(** The host: which names the [signal] module defines, and what the two
    registration calls raise for a signal, if anything. *)
Record Platform : Type := mkPlatform {
  signal_defined : Signal -> bool;
  add_signal_handler_raises : Signal -> option PyExc;
  signal_signal_raises : Signal -> option PyExc
}.

(** What the remote end does with one request.  Leaving the
    [async with] block releases the response and raises nothing. *)
Inductive Reply : Type :=
| Refused (e : TransportError)
    (* [session.get(...)] raises on entering the [async with] block *)
| Answered (status : Z)
           (read : TransportError + list Byte.byte)   (* [await response.read()] *)
           (text : TransportError + string).          (* [await response.text()] *)

Record Env : Type := mkEnv {
  platform : Platform;
  net : Coroutine -> Reply;
  entropy : nat -> nat      (* the n-th raw draw of the [random] module *)
}.

(** ** The monad of method bodies *)

(** How a call ends: with a value, with an exception, or suspended in an
    [await] on something that is not done yet. *)
Inductive Res (A : Type) : Type :=
| Ok (a : A)
| Raise (e : PyExc)
| Suspended.
Arguments Ok {A} a.
Arguments Raise {A} e.
Arguments Suspended {A}.

Definition M (A : Type) : Type := World -> Res A * World.

Definition ret {A} (a : A) : M A := fun w => (Ok a, w).

Definition raise {A} (e : PyExc) : M A := fun w => (Raise e, w).

Definition suspend {A} : M A := fun w => (Suspended, w).

Definition bind {A B} (m : M A) (k : A -> M B) : M B :=
  fun w =>
    match m w with
    | (Ok a, w') => k a w'
    | (Raise e, w') => (Raise e, w')
    | (Suspended, w') => (Suspended, w')
    end.

(** stdpp's monad notations: [x ← m; k] and [m;; k]. *)
#[global] Instance M_ret : MRet M := @ret.
#[global] Instance M_bind : MBind M := fun A B k m => bind m k.

(** [try: body except <class>: handler], where [catches] decides
    [isinstance(e, <class>)]. *)
Definition try_except {A} (body : M A) (catches : PyExc -> bool)
    (handler : PyExc -> M A) : M A :=
  fun w =>
    match body w with
    | (Raise e, w') => if catches e then handler e w' else (Raise e, w')
    | r => r
    end.

Definition gets {A} (f : World -> A) : M A := fun w => (Ok (f w), w).

Definition modify (f : World -> World) : M unit := fun w => (Ok tt, f w).

Definition emit (ev : Effect) : M unit := modify (with_trace (cons ev)).

(** [logger.debug/info/warning/error(msg, ...)]; an f-string is kept as its
    source text, the [extra] dictionary is dropped. *)
Definition log (level : Level) (msg : string) : M unit := emit (Logged level msg).

(** [for x in xs: body x] *)
Fixpoint for_each {A} (xs : list A) (body : A -> M unit) : M unit :=
  match xs with
  | [] => ret tt
  | x :: xs' => body x;; for_each xs' body
  end.

Definition exec {A} (m : M A) (w : World) : World := snd (m w).
Definition result {A} (m : M A) (w : World) : Res A := fst (m w).

(** ** Attribute access on [self] *)

Definition getattr {A} (field : Handler -> option A) (name : string) : M A :=
  fun w =>
    match field (self w) with
    | Some a => (Ok a, w)
    | None =>
        (Raise (AttributeError
                  ("'RequestHandler' object has no attribute '" ++ name ++ "'")), w)
    end.

Definition set_is_configured (v : bool) : M unit :=
  modify (with_self (fun h =>
    {| _is_configured := v; _scheduler_loop := _scheduler_loop h;
       _scheduler_task := _scheduler_task h; queue := queue h;
       session := session h; _batch_size := _batch_size h;
       _shutdown_started := _shutdown_started h |})).

Definition set_scheduler_loop (v : nat) : M unit :=
  modify (with_self (fun h =>
    {| _is_configured := _is_configured h; _scheduler_loop := Some v;
       _scheduler_task := _scheduler_task h; queue := queue h;
       session := session h; _batch_size := _batch_size h;
       _shutdown_started := _shutdown_started h |})).

Definition set_scheduler_task (v : nat) : M unit :=
  modify (with_self (fun h =>
    {| _is_configured := _is_configured h; _scheduler_loop := _scheduler_loop h;
       _scheduler_task := Some v; queue := queue h;
       session := session h; _batch_size := _batch_size h;
       _shutdown_started := _shutdown_started h |})).

Definition set_queue (v : list Coroutine) : M unit :=
  modify (with_self (fun h =>
    {| _is_configured := _is_configured h; _scheduler_loop := _scheduler_loop h;
       _scheduler_task := _scheduler_task h; queue := Some v;
       session := session h; _batch_size := _batch_size h;
       _shutdown_started := _shutdown_started h |})).

Definition set_session (v : nat) : M unit :=
  modify (with_self (fun h =>
    {| _is_configured := _is_configured h; _scheduler_loop := _scheduler_loop h;
       _scheduler_task := _scheduler_task h; queue := queue h;
       session := Some v; _batch_size := _batch_size h;
       _shutdown_started := _shutdown_started h |})).

Definition set_batch_size (v : Z) : M unit :=
  modify (with_self (fun h =>
    {| _is_configured := _is_configured h; _scheduler_loop := _scheduler_loop h;
       _scheduler_task := _scheduler_task h; queue := queue h;
       session := session h; _batch_size := Some v;
       _shutdown_started := _shutdown_started h |})).

Definition set_shutdown_started (v : bool) : M unit :=
  modify (with_self (fun h =>
    {| _is_configured := _is_configured h; _scheduler_loop := _scheduler_loop h;
       _scheduler_task := _scheduler_task h; queue := queue h;
       session := session h; _batch_size := _batch_size h;
       _shutdown_started := Some v |})).

(** ** aiohttp sessions, asyncio tasks and futures *)

(** [aiohttp.ClientSession()] *)
Definition ClientSession : M nat :=
  sid ← gets (fun w => fresh (dom (sessions w)));
  modify (with_sessions <[sid := false]>);;
  emit (SessionCreated sid);;
  ret sid.

(** [session.closed]; a session that was never created counts as closed. *)
Definition session_closed (sid : nat) : M bool :=
  gets (fun w => default true (sessions w !! sid)).

(** [await session.close()] *)
Definition session_close (sid : nat) : M unit :=
  emit (SessionCloseCalled sid);;
  modify (with_sessions <[sid := true]>).

(** [asyncio.create_task(coro)] *)
Definition create_task (coro : Task) : M nat :=
  tid ← gets (fun w => fresh (dom (tasks w)));
  modify (with_tasks <[tid := coro]>);;
  emit (TaskCreated tid);;
  ret tid.

Definition is_live (t : Task) : bool :=
  match t with
  | Done _ => false
  | _ => true
  end.

(** Cancelling one task.  A done task is left alone.  A live one ends
    cancelled: none of the coroutines here catches [CancelledError] at a
    suspension point ([_scheduler] catches [TimeoutError] only, [fetch]
    catches [Exception]). *)
Definition cancel_one (tid : nat) (ts : gmap nat Task) : gmap nat Task :=
  match ts !! tid with
  | Some t => if is_live t then <[tid := Done WasCancelled]> ts else ts
  | None => ts
  end.

(** The task table after [task.cancel()].  Cancelling a scheduler that
    waits in [gather] cancels the children that have not finished; the
    tasks of a batch still being collected are not awaited by anyone yet
    and keep running. *)
Definition cancel_task (tid : nat) (ts : gmap nat Task) : gmap nat Task :=
  match ts !! tid with
  | Some (SchedulerTask (Executing batch)) =>
      cancel_one tid (foldr cancel_one ts batch)
  | _ => cancel_one tid ts
  end.

(** [task.cancel()] *)
Definition task_cancel (tid : nat) : M unit :=
  emit (TaskCancelCalled tid);;
  modify (with_tasks (cancel_task tid)).

(** [await task] *)
Definition await_task (tid : nat) : M unit :=
  t ← gets (fun w => tasks w !! tid);
  match t with
  | Some (Done Returned) => ret tt
  | Some (Done (Raised e)) => raise e
  | Some (Done WasCancelled) => raise CancelledError
  | _ => suspend
  end.

(** [loop.create_future()] *)
Definition create_future : M nat :=
  fid ← gets (fun w => fresh (dom (futures w)));
  modify (with_futures <[fid := FutPending]>);;
  ret fid.

(** [future.set_result(v)] and [future.set_exception(e)]: both raise
    [InvalidStateError] unless the future is pending. *)
Definition set_result (fid : nat) (v : Body) : M unit :=
  f ← gets (fun w => futures w !! fid);
  match f with
  | Some FutPending =>
      modify (with_futures <[fid := FutResult v]>);;
      emit (SetResult fid)
  | _ => raise InvalidStateError
  end.

Definition set_exception (fid : nat) (e : PyExc) : M unit :=
  f ← gets (fun w => futures w !! fid);
  match f with
  | Some FutPending =>
      modify (with_futures <[fid := FutException e]>);;
      emit (SetException fid)
  | _ => raise InvalidStateError
  end.

(** [await future] *)
Definition await_future (fid : nat) : M Body :=
  f ← gets (fun w => futures w !! fid);
  match f with
  | Some (FutResult v) => ret v
  | Some (FutException e) => raise e
  | Some FutCancelled => raise CancelledError
  | _ => suspend
  end.

(** Cancelling the caller that waits in [return await future] cancels the
    future it waits for. *)
Definition cancel_caller (fid : nat) : M unit :=
  modify (with_futures (fun fs =>
    match fs !! fid with
    | Some FutPending => <[fid := FutCancelled]> fs
    | _ => fs
    end)).

(** ** The class *)

Definition USER_AGENTS : list string := [
  (* Chrome on Windows *)
  "Mozilla/5.0 (Windows NT 10.0; Win64; x64) AppleWebKit/537.36 (KHTML, like Gecko) Chrome/123.0.6312.86 Safari/537.36";
  (* Safari on macOS *)
  "Mozilla/5.0 (Macintosh; Intel Mac OS X 13_3_1) AppleWebKit/605.1.15 (KHTML, like Gecko) Version/16.4 Safari/605.1.15";
  (* Firefox on Ubuntu *)
  "Mozilla/5.0 (X11; Ubuntu; Linux x86_64; rv:124.0) Gecko/20100101 Firefox/124.0";
  (* Chrome on Android *)
  "Mozilla/5.0 (Linux; Android 13; Pixel 6) AppleWebKit/537.36 (KHTML, like Gecko) Chrome/123.0.6312.86 Mobile Safari/537.36";
  (* Safari on iPhone *)
  "Mozilla/5.0 (iPhone; CPU iPhone OS 16_4 like Mac OS X) AppleWebKit/605.1.15 (KHTML, like Gecko) Version/16.4 Mobile/15E148 Safari/604.1";
  (* Edge on Windows *)
  "Mozilla/5.0 (Windows NT 10.0; Win64; x64) AppleWebKit/537.36 (KHTML, like Gecko) Chrome/123.0.6312.86 Safari/537.36 Edg/123.0.2420.65";
  (* Brave on macOS *)
  "Mozilla/5.0 (Macintosh; Intel Mac OS X 13_3_1) AppleWebKit/537.36 (KHTML, like Gecko) Chrome/123.0.6312.86 Safari/537.36 Brave/123.1.59.120"
].

Definition signal_name (sig : Signal) : string :=
  match sig with
  | SIGINT => "SIGINT"
  | SIGTERM => "SIGTERM"
  | SIGBREAK => "SIGBREAK"
  end.

(** The callback in force for a signal. *)
Fixpoint installed (sig : Signal) (hs : list (Signal * Hook)) : option Hook :=
  match hs with
  | [] => None
  | (sig', h) :: hs' =>
      match sig, sig' with
      | SIGINT, SIGINT | SIGTERM, SIGTERM | SIGBREAK, SIGBREAK => Some h
      | _, _ => installed sig hs'
      end
  end.

Section RequestHandler.

Context (env : Env).

(** *** The [random] module *)

Definition draw : M nat :=
  pos ← gets rng_pos;
  modify (with_rng_pos S);;
  ret (entropy env pos).

(** [random.randint(a, b)]: an integer of [a..b], both ends included. *)
Definition randint (a b : Z) : M Z :=
  r ← draw;
  ret (a + Z.of_nat r `mod` (b - a + 1)).

(** [random.choice(seq)] on a sequence that is not empty. *)
Definition choice (seq : list string) : M string :=
  r ← draw;
  ret (nth (r `mod` length seq)%nat seq "").

(** *** The [signal] module and the loop's signal handlers *)

(** Reading [signal.<name>]. *)
Definition signal_attr (sig : Signal) : M Signal :=
  if signal_defined (platform env) sig then ret sig
  else raise (AttributeError
                ("module 'signal' has no attribute '" ++ signal_name sig ++ "'")).

(** [loop.add_signal_handler(sig, callback)] *)
Definition add_signal_handler (sig : Signal) (callback : Hook) : M unit :=
  match add_signal_handler_raises (platform env) sig with
  | Some e => raise e
  | None => modify (with_hooks (cons (sig, callback)))
  end.

(** [signal.signal(sig, handler)] *)
Definition signal_signal (sig : Signal) (handler : Hook) : M unit :=
  match signal_signal_raises (platform env) sig with
  | Some e => raise e
  | None => modify (with_hooks (cons (sig, handler)))
  end.

(** *** [_register_shutdown_hooks] *)

(** The body of [for sig in (...)]. *)
Definition register_hook (sig : Signal) : M unit :=
  try_except
    (add_signal_handler sig on_shutdown)
    is_NotImplementedError
    (fun _ =>
       log WARNING "Signal {sig} not supported on this OS";;
       signal_signal sig sync_shutdown).

(** The tuple [(signal.SIGINT, signal.SIGTERM, signal.SIGBREAK)] is built
    before the loop iterates over it, outside the [try]. *)
Definition _register_shutdown_hooks : M unit :=
  s1 ← signal_attr SIGINT;
  s2 ← signal_attr SIGTERM;
  s3 ← signal_attr SIGBREAK;
  for_each [s1; s2; s3] register_hook.

(** *** [configure] *)

(** The [try] block that closes the previous session and cancels the
    previous scheduler task. *)
Definition retire_previous : M unit :=
  try_except
    (log INFO "Reconfiguring session: closing previous session and cancelling task";;
     sid ← getattr session "session";
     session_close sid;;
     tid ← getattr _scheduler_task "_scheduler_task";
     task_cancel tid;;
     await_task tid)
    is_CancelledError
    (fun _ => log WARNING "Scheduler task cancelled during reconfiguration").

(** The new queue, session and batch size. *)
Definition fresh_resources : M unit :=
  set_queue [];;
  sid ← ClientSession;
  set_session sid;;
  b ← randint 3 5;
  set_batch_size b;;
  log DEBUG "Batch size set to {self._batch_size}".

(** The new scheduler task and the flags. *)
Definition start_scheduler (current_loop : nat) : M unit :=
  tid ← create_task (SchedulerTask Starting);
  set_scheduler_task tid;;
  set_scheduler_loop current_loop;;
  set_is_configured true;;
  set_shutdown_started false;;
  log INFO "RequestHandler configured successfully".

(** The body of [if not self._is_configured or ...:]. *)
Definition reinitialise (current_loop : nat) : M unit :=
  has_task ← gets (fun w => _scheduler_task (self w));
  (if has_task is Some _ then retire_previous else ret tt);;
  fresh_resources;;
  _register_shutdown_hooks;;
  start_scheduler current_loop.

(** [current_loop] is what [asyncio.get_running_loop()] returns to the
    caller.  [not self._is_configured or self._scheduler_loop != current_loop]
    reads [_scheduler_loop] only when the flag is set. *)
Definition configure (current_loop : nat) : M unit :=
  log DEBUG "Starting configure()";;
  configured ← gets (fun w => _is_configured (self w));
  stale ← (if negb configured then ret true
           else l ← getattr _scheduler_loop "_scheduler_loop";
                ret (negb (l =? current_loop)%nat));
  if stale : bool then reinitialise current_loop else ret tt.

(** *** [get]

    The inner [fetch] is defined below as a function of the coroutine
    object; [get] builds that object, queues it and waits for the
    future. *)
Definition get (url : string) (raw : bool) : M Body :=
  configured ← gets (fun w => _is_configured (self w));
  if negb configured then
    raise (RuntimeError
             "RequestHandler not configured yet. Call 'await handler.configure()' first.")
  else
    user_agent ← choice USER_AGENTS;
    future ← create_future;
    let fetch := {| c_url := url; c_raw := raw; c_agent := user_agent;
                    c_future := future |} in
    q ← getattr queue "queue";
    set_queue (q ++ [fetch])%list;;
    emit (PutNowait fetch);;
    log DEBUG "GET request queued: {url}";;
    await_future future.

(** *** [shutdown]

    [getattr(self, "_shutdown_started", False)] defaults a missing
    attribute to [False]. *)
Definition shutdown : M unit :=
  started ← gets (fun w => default false (_shutdown_started (self w)));
  if started : bool then ret tt
  else
    set_shutdown_started true;;
    log INFO "Initiating shutdown...";;
    has_task ← gets (fun w => _scheduler_task (self w));
    (if has_task is Some tid then
       task_cancel tid;;
       try_except (await_task tid) is_CancelledError
         (fun _ => log DEBUG "Scheduler task cancelled")
     else ret tt);;
    has_session ← gets (fun w => session (self w));
    (if has_session is Some sid then
       closed ← session_closed sid;
       if negb closed then
         session_close sid;;
         log INFO "Session closed"
       else ret tt
     else ret tt).

(** [shutdown] cut at its first suspension point, for a second call that
    arrives while the first one waits.  [shutdown_head] is the code up to
    [await self._scheduler_task], whose operand is evaluated before the
    coroutine is suspended; it gives [None] when the guard made the call
    return, and otherwise the task waited for, if there is one.
    [shutdown_tail] is the code from the [await] on. *)
Definition shutdown_head : M (option (option nat)) :=
  started ← gets (fun w => default false (_shutdown_started (self w)));
  if started : bool then ret None
  else
    set_shutdown_started true;;
    log INFO "Initiating shutdown...";;
    has_task ← gets (fun w => _scheduler_task (self w));
    (if has_task is Some tid then task_cancel tid else ret tt);;
    ret (Some has_task).

Definition shutdown_tail (awaited_task : option nat) : M unit :=
  (if awaited_task is Some tid then
     try_except (await_task tid) is_CancelledError
       (fun _ => log DEBUG "Scheduler task cancelled")
   else ret tt);;
  has_session ← gets (fun w => session (self w));
  (if has_session is Some sid then
     closed ← session_closed sid;
     if negb closed then
       session_close sid;;
       log INFO "Session closed"
     else ret tt
   else ret tt).

(** *** [fetch], the deferred operation

    [async with self.session.get(url, headers=headers) as response: body]:
    entering performs the request, leaving releases the response. *)
Definition async_with_get {A} (c : Coroutine)
    (body : Z -> TransportError + list Byte.byte -> TransportError + string -> M A)
    : M A :=
  _ ← getattr session "session";
  match net env c with
  | Refused e => raise (Transport e)
  | Answered status read text => body status read text
  end.

Definition awaited {A} (r : TransportError + A) : M A :=
  match r with
  | inl e => raise (Transport e)
  | inr a => ret a
  end.

Definition fetch (c : Coroutine) : M unit :=
  try_except
    (async_with_get c (fun status_code read text =>
       result ← (if c_raw c then b ← awaited read; ret (Bytes b)
                 else t ← awaited text; ret (Text t));
       log INFO "GET request successful - status: {status_code}";;
       set_result (c_future c) result))
    is_Exception
    (fun e =>
       log ERROR "GET request failed for {url}";;
       set_exception (c_future c) e).

(** How a task ends when its coroutine returns or raises. *)
Definition finished {A} (r : Res A) : option Outcome :=
  match r with
  | Ok _ => Some Returned
  | Raise e => Some (if is_CancelledError e then WasCancelled else Raised e)
  | Suspended => None
  end.

(** *** [_scheduler]

    One resumption of the coroutine, from the point where it is
    suspended to the next one. *)

(** The top of [while True]: [batch = []], then the first iteration of
    [for _ in range(self._batch_size)]. *)
Definition begin_cycle : M SchedulerPoint :=
  n ← getattr _batch_size "_batch_size";
  ret (Collecting (Z.to_nat n) []).

(** After the [for] loop: [if batch:]. *)
Definition after_collecting (batch : list nat) : M SchedulerPoint :=
  match batch with
  | [] => begin_cycle
  | _ :: _ =>
      log DEBUG "Executing batch of size {len(batch)}";;
      ret (Executing batch)
  end.

(** What [await asyncio.gather] of the batch gives once it is ready: the
    first exception of a child, or the return of all of them. *)
Fixpoint gathered (ts : gmap nat Task) (batch : list nat) : option Outcome :=
  match batch with
  | [] => Some Returned
  | tid :: rest =>
      match ts !! tid with
      | Some (Done (Raised e)) => Some (Raised e)
      | Some (Done WasCancelled) => Some WasCancelled
      | Some (Done Returned) => gathered ts rest
      | _ =>
          match gathered ts rest with
          | Some Returned => None
          | o => o
          end
      end
  end.

Definition resume_from (p : SchedulerPoint) : M SchedulerPoint :=
  match p with
  | Starting =>
      log INFO "Scheduler started";;
      begin_cycle
  | Collecting O batch =>
      after_collecting batch
  | Collecting (S todo) batch =>
      q ← getattr queue "queue";
      match q with
      | coro :: q' =>
          (* [coro = await asyncio.wait_for(self.queue.get(), timeout=1)] *)
          set_queue q';;
          task ← create_task (FetchTask coro);
          let batch' := (batch ++ [task])%list in
          log DEBUG "Task added to batch";;
          match todo with
          | O => after_collecting batch'
          | S _ => ret (Collecting todo batch')
          end
      | [] =>
          (* [except asyncio.TimeoutError: break] *)
          after_collecting batch
      end
  | Executing batch =>
      o ← gets (fun w => gathered (tasks w) batch);
      match o with
      | None => ret (Executing batch)
      | Some (Raised e) => raise e
      | Some WasCancelled => raise CancelledError
      | Some Returned =>
          b ← randint 3 5;
          set_batch_size b;;
          delay ← randint 5 10;
          log INFO "Batch complete. Sleeping for {delay}s";;
          emit (Slept delay);;
          ret (Sleeping delay)
      end
  | Sleeping _ =>
      begin_cycle
  end.

(** *** The event loop runs a task *)

Definition run_task (tid : nat) (w : World) : World :=
  match tasks w !! tid with
  | Some (SchedulerTask p) =>
      let (r, w') := resume_from p w in
      match r with
      | Ok p' => with_tasks <[tid := SchedulerTask p']> w'
      | Raise e =>
          with_tasks
            <[tid := Done (if is_CancelledError e then WasCancelled else Raised e)]> w'
      | Suspended => w'
      end
  | Some (FetchTask c) =>
      let (r, w') := fetch c w in
      match finished r with
      | Some o => with_tasks <[tid := Done o]> w'
      | None => w'
      end
  | _ => w
  end.

(** *** What can happen to the handler, in any order *)

Inductive Action : Type :=
| CallConfigure (current_loop : nat)
| CallGet (url : string) (raw : bool)
| CallShutdown
| CancelCaller (future : nat)
| RunTask (tid : nat)
| Signalled (sig : Signal).

Definition step (a : Action) (w : World) : World :=
  match a with
  | CallConfigure l => exec (configure l) w
  | CallGet url raw => exec (get url raw) w
  | CallShutdown => exec shutdown w
  | CancelCaller fid => exec (cancel_caller fid) w
  | RunTask tid => run_task tid w
  | Signalled sig =>
      (* both callbacks schedule [self.shutdown()] *)
      if installed sig (hooks w) is Some _ then exec shutdown w else w
  end.

Definition run (acts : list Action) (w : World) : World :=
  foldl (fun w a => step a w) w acts.

End RequestHandler.

(** ** Hosts and environments used in examples *)

(** Windows: the [signal] module defines the three names, and no event
    loop implements [add_signal_handler]. *)
Definition windows_host : Platform :=
  {| signal_defined := fun _ => true;
     add_signal_handler_raises := fun _ => Some NotImplementedError;
     signal_signal_raises := fun _ => None |}.

(** Linux and macOS: [signal.SIGBREAK] does not exist; the loop installs
    handlers for the signals that do. *)
Definition posix_host : Platform :=
  {| signal_defined := fun sig => match sig with SIGBREAK => false | _ => true end;
     add_signal_handler_raises := fun _ => None;
     signal_signal_raises := fun _ => None |}.

(** A remote end that refuses the url ["bad"] and answers every other one. *)
Definition demo_net (c : Coroutine) : Reply :=
  if String.eqb (c_url c) "bad" then Refused (ClientError "connection refused")
  else Answered 200 (inr []) (inr "hello").

Definition demo_env : Env :=
  {| platform := windows_host; net := demo_net; entropy := fun n => n |}.

Definition posix_env : Env :=
  {| platform := posix_host; net := demo_net; entropy := fun n => n |}.

(** A session of the handler on [demo_env]: it is configured, two requests
    are submitted, and the scheduler runs until it has collected both and
    waits for their tasks (1 and 2) in [gather]. *)
Definition demo_requests : list Action :=
  [CallConfigure 0; CallGet "http://example.org/" false; CallGet "bad" true;
   RunTask 0; RunTask 0; RunTask 0; RunTask 0].

Definition demo_good_request : Coroutine :=
  {| c_url := "http://example.org/"; c_raw := false;
     c_agent := nth 1 USER_AGENTS ""; c_future := 0 |}.

Definition demo_bad_request : Coroutine :=
  {| c_url := "bad"; c_raw := true;
     c_agent := nth 2 USER_AGENTS ""; c_future := 1 |}.

(** ** Vocabulary of the properties *)

Definition not_configured_message : string :=
  "RequestHandler not configured yet. Call 'await handler.configure()' first.".

(** How often a trace records an effect of some kind: a call of
    [task.cancel()], of [session.close()], the resolution of one future. *)
Definition count (kind : Effect -> bool) (tr : list Effect) : nat :=
  length (List.filter kind tr).

Definition is_cancel_call (ev : Effect) : bool :=
  if ev is TaskCancelCalled _ then true else false.

Definition is_close_call (ev : Effect) : bool :=
  if ev is SessionCloseCalled _ then true else false.

Definition resolves (fid : nat) (ev : Effect) : bool :=
  match ev with
  | SetResult f | SetException f => bool_decide (f = fid)
  | _ => false
  end.

Definition cancel_calls : list Effect -> nat := count is_cancel_call.
Definition close_calls : list Effect -> nat := count is_close_call.
Definition resolutions (fid : nat) : list Effect -> nat := count (resolves fid).

(** A method keeps a relation between the world it starts in and the
    world it leaves, however it ends. *)
Definition keeps {A} (R : relation World) (m : M A) : Prop :=
  forall w, R w (exec m w).

(** How a method ends does not depend on the world it starts in. *)
Definition oblivious {A} (m : M A) : Prop :=
  forall w1 w2, result m w1 = result m w2.

(** The world changed in its signal handlers and its log only. *)
Definition only_hooks_and_log (w w' : World) : Prop :=
  self w' = self w /\ sessions w' = sessions w /\ tasks w' = tasks w
  /\ futures w' = futures w /\ rng_pos w' = rng_pos w
  /\ forall kind, (forall l m, kind (Logged l m) = false) ->
       count kind (trace w') = count kind (trace w).

(** The handler kept its attributes (the contents of the queue and the
    shutdown guard apart), no scheduler task came to life or moved, and no
    session was opened. *)
Definition shrinks (w w' : World) : Prop :=
  _is_configured (self w') = _is_configured (self w)
  /\ _scheduler_loop (self w') = _scheduler_loop (self w)
  /\ _scheduler_task (self w') = _scheduler_task (self w)
  /\ session (self w') = session (self w)
  /\ _batch_size (self w') = _batch_size (self w)
  /\ (is_Some (queue (self w)) -> is_Some (queue (self w')))
  /\ (forall tid p, tasks w' !! tid = Some (SchedulerTask p) ->
                    tasks w !! tid = Some (SchedulerTask p))
  /\ (forall sid, sessions w' !! sid = Some false -> sessions w !! sid = Some false).

Definition is_resolved (f : option Future) : bool :=
  match f with
  | Some (FutResult _) | Some (FutException _) => true
  | _ => false
  end.

(** The trace records one resolution for a future that holds a result or
    an exception, and none for any other. *)
Definition resolved_once (w : World) : Prop :=
  forall fid,
    resolutions fid (trace w) = if is_resolved (futures w !! fid) then 1%nat else 0%nat.

(** Futures are resolved at most once, and a future that is done stays as
    it is. *)
Definition future_safe (w w' : World) : Prop :=
  (resolved_once w -> resolved_once w')
  /\ (forall fid f, futures w !! fid = Some f -> f <> FutPending ->
                    futures w' !! fid = Some f).

(** What holds of the scheduler at a suspension point when the batch-size
    target is [b]. *)
Definition point_ok (b : Z) (p : SchedulerPoint) : Prop :=
  match p with
  | Starting => True
  | Collecting todo batch =>
      (0 < todo)%nat /\ (todo + length batch)%nat = Z.to_nat b
  | Executing batch => (0 < length batch <= Z.to_nat b)%nat
  | Sleeping delay => 5 <= delay <= 10
  end.

(** What a reply amounts to for the request of coroutine [c]: the error of
    the network call, or the body in the form that [raw] asks for. *)
Definition reply_outcome (c : Coroutine) (r : Reply) : TransportError + Body :=
  match r with
  | Refused e => inl e
  | Answered _ read text =>
      if c_raw c then
        match read with inl e => inl e | inr b => inr (Bytes b) end
      else
        match text with inl e => inl e | inr t => inr (Text t) end
  end.

Definition settled (o : TransportError + Body) : Future :=
  match o with
  | inl e => FutException (Transport e)
  | inr v => FutResult v
  end.

(** What the caller of [get] receives once the request has this outcome. *)
Definition delivered (o : TransportError + Body) : Res Body :=
  match o with
  | inl e => Raise (Transport e)
  | inr v => Ok v
  end.

(** What [fetch] leaves in a pending future. *)
Definition fetched (env : Env) (c : Coroutine) (w : World) : Future :=
  match session (self w) with
  | Some _ => settled (reply_outcome c (net env c))
  | None =>
      FutException
        (AttributeError "'RequestHandler' object has no attribute 'session'")
  end.

Definition SIGBREAK_missing : PyExc :=
  AttributeError "module 'signal' has no attribute 'SIGBREAK'".

(** The shutdown guard is as it was. *)
Definition guard_kept (w w' : World) : Prop :=
  _shutdown_started (self w') = _shutdown_started (self w).

(** Once the shutdown guard is set, no scheduler task is live. *)
Definition Guarded (w : World) : Prop :=
  default false (_shutdown_started (self w)) = true ->
  forall tid p, tasks w !! tid <> Some (SchedulerTask p).

(** The world after the first line of [configure]. *)
Definition configure_entry (w : World) : World :=
  with_trace (cons (Logged DEBUG "Starting configure()")) w.

(** What a successful re-initialisation leaves: one scheduler task, about
    to start, and one open session, both held by the handler. *)
Definition freshly_configured (l : nat) (w : World) : Prop :=
  _is_configured (self w) = true
  /\ _scheduler_loop (self w) = Some l
  /\ _shutdown_started (self w) = Some false
  /\ queue (self w) = Some []
  /\ exists tid sid,
       _scheduler_task (self w) = Some tid
       /\ tasks w !! tid = Some (SchedulerTask Starting)
       /\ (forall t p, tasks w !! t = Some (SchedulerTask p) -> t = tid)
       /\ session (self w) = Some sid
       /\ sessions w !! sid = Some false
       /\ (forall s, sessions w !! s = Some false -> s = sid).

(** The callback [register_hook] ends up with on a host where it does. *)
Definition hook_for (host : Platform) (sig : Signal) : Hook :=
  match add_signal_handler_raises host sig with
  | None => on_shutdown
  | Some _ => sync_shutdown
  end.

(** A host that defines the three signals, whose loop either installs a
    handler or raises [NotImplementedError], and whose [signal.signal]
    accepts the signals the loop does not handle. *)
Definition degrades_gracefully (host : Platform) : Prop :=
  forall sig,
    signal_defined host sig = true
    /\ (add_signal_handler_raises host sig = None
        \/ (add_signal_handler_raises host sig = Some NotImplementedError
            /\ signal_signal_raises host sig = None)).

(** Registration of the shutdown hooks succeeds on this host. *)
Definition hooks_ok (env : Env) : Prop :=
  result (_register_shutdown_hooks env) new_world = Ok tt.

(** The invariant of the handler: a live scheduler task is the one the
    handler holds, with a batch-size target of 3, 4 or 5 and a state that
    fits it; where registration succeeds, an open session is the one the
    handler holds, next to a scheduler task; a configured handler has all
    its attributes. *)
Record Inv (env : Env) (w : World) : Prop := mkInv {
  inv_scheduler : forall tid p,
    tasks w !! tid = Some (SchedulerTask p) ->
    _scheduler_task (self w) = Some tid
    /\ is_Some (queue (self w)) /\ is_Some (session (self w))
    /\ exists b, _batch_size (self w) = Some b /\ 3 <= b <= 5 /\ point_ok b p;
  inv_session : hooks_ok env -> forall sid,
    sessions w !! sid = Some false ->
    session (self w) = Some sid /\ is_Some (_scheduler_task (self w));
  inv_configured :
    _is_configured (self w) = true ->
    hooks_ok env
    /\ is_Some (_scheduler_loop (self w)) /\ is_Some (_scheduler_task (self w))
    /\ is_Some (queue (self w)) /\ is_Some (session (self w))
}.

(** [n] calls of [shutdown] in a row. *)
Definition shutdown_times (n : nat) (w : World) : World :=
  Nat.iter n (exec shutdown) w.

(** The condition under which [configure] re-initialises. *)
Definition stale (current_loop : nat) (w : World) : bool :=
  negb (_is_configured (self w))
  || negb (bool_decide (_scheduler_loop (self w) = Some current_loop)).

(** Unfolding the monad and the primitives down to the record. *)
Ltac wsimpl :=
  cbn [with_self with_sessions with_tasks with_futures with_hooks with_rng_pos
       with_trace self sessions tasks futures hooks rng_pos trace
       _is_configured _scheduler_loop _scheduler_task queue session
       _batch_size _shutdown_started fst snd] in *.

Ltac munfold :=
  cbv beta iota delta
    [mbind M_bind mret M_ret bind ret raise suspend gets modify emit log
     try_except getattr exec result
     set_is_configured set_scheduler_loop set_scheduler_task set_queue
     set_session set_batch_size set_shutdown_started
     ClientSession session_closed session_close create_task task_cancel
     await_task create_future set_result set_exception await_future
     cancel_caller draw randint choice] in *;
  wsimpl.

Ltac mcases := repeat (case_match; munfold; simplify_eq; try done).

(** A session of the handler on [demo_env] in which the caller of the only
    request is cancelled while the request is queued: the request is
    executed all the same, its task fails, and the scheduler task (0) ends
    with [InvalidStateError]. *)
Definition demo_cancelled_caller : list Action :=
  [CallConfigure 0; CallGet "http://example.org/" false; CancelCaller 0;
   RunTask 0; RunTask 0; RunTask 0; RunTask 1; RunTask 0].

(** [n] calls of [configure] in a row under one loop. *)
Definition configure_times (env : Env) (l : nat) (n : nat) (w : World) : World :=
  Nat.iter n (exec (configure env l)) w.

(** Calls of [get], one per request, in the order of the list. *)
Definition submit (requests : list (string * bool)) : list Action :=
  (fun r => CallGet r.1 r.2) <$> requests.

(** The scheduler task resumed [k] times in a row. *)
Definition resume_times (env : Env) (sched : nat) (k : nat) (w : World) : World :=
  Nat.iter k (run_task env sched) w.

(** The world kept its signal handlers, and the handler its configured
    flag. *)
Definition handlers_kept (w w' : World) : Prop :=
  hooks w' = hooks w /\ _is_configured (self w') = _is_configured (self w).

(** A configured handler has, for every signal, the callback that
    [register_hook] installs on this host. *)
Definition signals_handled (env : Env) (w : World) : Prop :=
  _is_configured (self w) = true ->
  forall sig, installed sig (hooks w) = Some (hook_for (platform env) sig).

(** ** The class object and its instances

    [RequestHandler._instance] and [RequestHandler._lock] are attributes of
    the class; every object that [__new__] creates has attributes of its
    own, and all of them share the sessions, tasks, futures, signal
    handlers, random source and log of the process.  In [shared] the
    [self] component is the instance the last method call was made on. *)
Record Process : Type := mkProcess {
  _instance : option nat;        (* [cls._instance]: [None] or an object *)
  _lock : bool;                  (* [cls._lock] is held *)
  instances : gmap nat Handler;  (* the objects created so far *)
  shared : World
}.

(** The process when the module has been imported. *)
Definition new_process : Process :=
  {| _instance := None; _lock := false; instances := ∅; shared := new_world |}.

Definition with_lock (b : bool) (P : Process) : Process :=
  {| _instance := _instance P; _lock := b; instances := instances P;
     shared := shared P |}.

(** [RequestHandler.__new__(cls)].  [with cls._lock] waits while the lock
    is held, and releases it when the block is left; the value returned is
    read after that. *)
Definition __new__ (P : Process) : Res (option nat) * Process :=
  if _lock P then (Suspended, P)
  else
    let P1 := with_lock true P in
    let P2 :=
      match _instance P1 with
      | None =>
          let oid := fresh (dom (instances P1)) in
          {| _instance := Some oid; _lock := _lock P1;
             instances := <[oid := new_handler]> (instances P1);
             shared := exec (log DEBUG "Creating a new instance of RequestHandler")
                         (shared P1) |}
      | Some _ => P1
      end in
    let P3 := with_lock false P2 in
    (Ok (_instance P3), P3).

(** [RequestHandler.reset()] *)
Definition reset (P : Process) : Process :=
  {| _instance := None; _lock := _lock P; instances := instances P;
     shared := exec (log INFO "Resetting RequestHandler singleton instance")
                 (shared P) |}.

(** A method called on the object [oid]: it runs with [self] bound to that
    object, whose attributes are then what the method left. *)
Definition call {A} (oid : nat) (m : M A) (P : Process) : option (Res A * Process) :=
  match instances P !! oid with
  | Some h =>
      let (r, w') := m (with_self (fun _ => h) (shared P)) in
      Some (r, {| _instance := _instance P; _lock := _lock P;
                  instances := <[oid := self w']> (instances P);
                  shared := w' |})
  | None => None
  end.

Definition call_result {A} (oid : nat) (m : M A) (P : Process) : option (Res A) :=
  fst <$> call oid m P.

Definition after_call {A} (oid : nat) (m : M A) (P : Process) : Process :=
  from_option snd P (call oid m P).

(** ** Who can still resolve a future *)

(** The futures of the coroutines waiting in the queue. *)
Definition queued_futures (w : World) : list nat :=
  c_future <$> default [] (queue (self w)).

(** A task made of a coroutine, run or not yet, has this future. *)
Definition held (w : World) (fid : nat) : Prop :=
  exists t c, tasks w !! t = Some (FetchTask c) /\ c_future c = fid.

(** Some scheduler task is live. *)
Definition live (w : World) : Prop :=
  exists t p, tasks w !! t = Some (SchedulerTask p).

(** The future exists and holds neither a result nor an exception. *)
Definition unresolved (w : World) (fid : nat) : Prop :=
  is_Some (futures w !! fid) /\ is_resolved (futures w !! fid) = false.

(** Every coroutine, queued or made a task that has not run, has a future
    of its own, and that future is unresolved. *)
Record Tidy (w : World) : Prop := mkTidy {
  tidy_nodup : NoDup (queued_futures w);
  tidy_queued : forall fid, fid ∈ queued_futures w ->
                  unresolved w fid /\ ~ held w fid;
  tidy_held : forall fid, held w fid -> unresolved w fid;
  tidy_unique : forall t t' c c',
    tasks w !! t = Some (FetchTask c) -> tasks w !! t' = Some (FetchTask c') ->
    c_future c = c_future c' -> t = t'
}.

(** Nothing is left that could resolve the future: it is unresolved, no
    task has it, and no coroutine that has it waits in a queue that a live
    scheduler reads. *)
Record Abandoned (fid : nat) (w : World) : Prop := mkAbandoned {
  abandoned_unresolved : unresolved w fid;
  abandoned_not_held : ~ held w fid;
  abandoned_not_queued : live w -> fid ∉ queued_futures w
}.

(** What one step can do to futures, queue and tasks: futures stay; one is
    resolved only by a task that had it and is a task of a coroutine no
    longer; a task is made of a coroutine only from the queue, one at a
    time, and only while a scheduler is live; the queue loses coroutines
    and gains ones with new pending futures; a scheduler comes to life
    only over an empty queue. *)
Record moves (w w' : World) : Prop := mkMoves {
  moves_futures : forall fid,
    is_Some (futures w !! fid) -> is_Some (futures w' !! fid);
  moves_resolved : forall fid,
    is_resolved (futures w' !! fid) = true ->
    is_resolved (futures w !! fid) = true
    \/ exists t c, tasks w !! t = Some (FetchTask c) /\ c_future c = fid
                   /\ forall c', tasks w' !! t <> Some (FetchTask c');
  moves_tasks : forall t c,
    tasks w' !! t = Some (FetchTask c) ->
    tasks w !! t = Some (FetchTask c)
    \/ (t = fresh (dom (tasks w)) /\ live w
        /\ c_future c ∈ queued_futures w /\ c_future c ∉ queued_futures w');
  moves_queued : exists old new,
    queued_futures w' = (old ++ new)%list
    /\ old `sublist_of` queued_futures w
    /\ NoDup new
    /\ forall fid, fid ∈ new ->
         futures w !! fid = None /\ futures w' !! fid = Some FutPending;
  moves_live : live w' -> live w \/ queued_futures w' = []
}.

(** No task was made of a coroutine, and no future was resolved. *)
Definition quiet (w w' : World) : Prop :=
  (forall t c, tasks w' !! t = Some (FetchTask c) -> tasks w !! t = Some (FetchTask c))
  /\ (forall fid, is_Some (futures w !! fid) -> is_Some (futures w' !! fid))
  /\ (forall fid, is_resolved (futures w' !! fid) = true ->
                  is_resolved (futures w !! fid) = true).

(** Moreover the queue is as it was and no scheduler came to life. *)
Definition calm (w w' : World) : Prop :=
  quiet w w'
  /\ queue (self w') = queue (self w)
  /\ (forall t p, tasks w' !! t = Some (SchedulerTask p) ->
                  tasks w !! t = Some (SchedulerTask p)).

(** Only the future [k] may have changed. *)
Definition resolves_only (k : nat) (w w' : World) : Prop :=
  self w' = self w /\ tasks w' = tasks w
  /\ (forall fid, is_Some (futures w !! fid) -> is_Some (futures w' !! fid))
  /\ (forall fid, fid <> k -> futures w' !! fid = futures w !! fid).

(** Queue, tasks and futures are as they were. *)
Definition polls (w w' : World) : Prop :=
  queue (self w') = queue (self w) /\ tasks w' = tasks w
  /\ futures w' = futures w.

(** ** The pace of the scheduler *)

(** The log line the scheduler writes for every coroutine it takes from
    the queue. *)
Definition is_dequeue (ev : Effect) : bool :=
  match ev with
  | Logged DEBUG msg => String.eqb msg "Task added to batch"
  | _ => false
  end.

(** A scheduler starts, or goes to sleep. *)
Definition is_pause (ev : Effect) : bool :=
  match ev with
  | Slept _ => true
  | Logged INFO msg => String.eqb msg "Scheduler started"
  | _ => false
  end.

(** The coroutines taken from the queue since a scheduler last started or
    slept; the trace has the most recent effect first. *)
Fixpoint burst (tr : list Effect) : nat :=
  match tr with
  | [] => 0%nat
  | ev :: tr' =>
      if is_pause ev then 0%nat
      else if is_dequeue ev then S (burst tr')
      else burst tr'
  end.

(** What the burst is at a point of the scheduler. *)
Definition pace_at (n : nat) (p : SchedulerPoint) : Prop :=
  match p with
  | Starting => True
  | Collecting _ batch | Executing batch => n = length batch
  | Sleeping _ => n = 0%nat
  end.

(** At most five coroutines were taken since the last pause, and the burst
    fits the point of every live scheduler. *)
Definition Paced (w : World) : Prop :=
  (burst (trace w) <= 5)%nat
  /\ forall tid p, tasks w !! tid = Some (SchedulerTask p) ->
                   pace_at (burst (trace w)) p.

(** The burst is as it was. *)
Definition pace_kept (w w' : World) : Prop :=
  burst (trace w') = burst (trace w).

(** * Properties *)

(** ** [get] on a handler that is not configured *)

(** C2. Whatever the url and the raw flag, [get] on a handler whose
    configured flag is not set raises the "not configured" [RuntimeError]
    at once and leaves the world as it was: nothing is queued, no future is
    created, the flag stays unset. *)
Theorem get_requires_configure (env : Env) (url : string) (raw : bool) (w : World) :
  _is_configured (self w) = false ->
  get env url raw w = (Raise (RuntimeError not_configured_message), w).
Proof.
  intros Hflag. unfold get. munfold. rewrite Hflag. reflexivity.
Qed.

Lemma get_requires_configure_witness :
  get demo_env "http://example.org/" true new_world
  = (Raise (RuntimeError not_configured_message), new_world).
Proof. apply (get_requires_configure demo_env). reflexivity. Defined.

(** ** [shutdown] *)

Lemma shutdown_when_started (w : World) :
  default false (_shutdown_started (self w)) = true -> shutdown w = (Ok tt, w).
Proof. intros H. unfold shutdown. munfold. rewrite H. reflexivity. Qed.

Lemma shutdown_starts (w : World) :
  default false (_shutdown_started (self (exec shutdown w))) = true.
Proof.
  unfold shutdown. munfold.
  destruct (default false (_shutdown_started (self w))) eqn:E; munfold; [done|].
  mcases.
Qed.

Lemma shutdown_calls_once (w : World) :
  (cancel_calls (trace (exec shutdown w)) <= S (cancel_calls (trace w)))%nat
  /\ (close_calls (trace (exec shutdown w)) <= S (close_calls (trace w)))%nat.
Proof.
  unfold shutdown. munfold.
  destruct (default false (_shutdown_started (self w))) eqn:E; munfold; [lia|].
  mcases; unfold cancel_calls, close_calls, count; cbn; lia.
Qed.

Lemma shutdown_times_fixed (n : nat) (w : World) :
  default false (_shutdown_started (self w)) = true -> shutdown_times n w = w.
Proof.
  intros H. induction n as [|n IH]; [done|].
  change (exec shutdown (shutdown_times n w) = w). rewrite IH.
  unfold exec. by rewrite shutdown_when_started.
Qed.

Lemma shutdown_times_S (n : nat) (w : World) :
  shutdown_times (S n) w = exec shutdown w.
Proof.
  unfold shutdown_times. rewrite Nat.iter_succ_r.
  apply shutdown_times_fixed, shutdown_starts.
Qed.

(** [shutdown] is its head followed, unless the guard made it return, by
    its tail. *)
Lemma shutdown_split (w : World) :
  shutdown w
  = (r ← shutdown_head; if r is Some t then shutdown_tail t else ret tt) w.
Proof.
  unfold shutdown, shutdown_head, shutdown_tail. munfold.
  destruct (default false (_shutdown_started (self w))); munfold; [done|].
  destruct (_scheduler_task (self w)); by munfold.
Qed.

Lemma shutdown_head_starts (w : World) :
  default false (_shutdown_started (self (exec shutdown_head w))) = true.
Proof.
  unfold shutdown_head. munfold.
  destruct (default false (_shutdown_started (self w))) eqn:E; munfold; [done|].
  mcases.
Qed.


(** ** Relations kept by the combinators *)

Section Keeps.

Context (R : relation World) `{!Reflexive R} `{!Transitive R}.

Lemma keeps_ret {A} (a : A) : keeps R (mret a).
Proof. intros w. munfold. reflexivity. Qed.

Lemma keeps_raise {A} (e : PyExc) : keeps R (@raise A e).
Proof. intros w. munfold. reflexivity. Qed.

Lemma keeps_suspend {A} : keeps R (@suspend A).
Proof. intros w. munfold. reflexivity. Qed.

Lemma keeps_gets {A} (f : World -> A) : keeps R (gets f).
Proof. intros w. munfold. reflexivity. Qed.

Lemma keeps_getattr {A} (field : Handler -> option A) (name : string) :
  keeps R (getattr field name).
Proof. intros w. munfold. case_match; reflexivity. Qed.

Lemma keeps_modify (f : World -> World) :
  (forall w, R w (f w)) -> keeps R (modify f).
Proof. intros Hf w. munfold. apply Hf. Qed.

Lemma keeps_bind {A B} (m : M A) (k : A -> M B) :
  keeps R m -> (forall a, keeps R (k a)) -> keeps R (m ≫= k).
Proof.
  intros Hm Hk w. specialize (Hm w). unfold exec in *.
  unfold mbind, M_bind, bind. destruct (m w) as [[a|e|] w1]; cbn in *; try done.
  etrans; [exact Hm|]. apply Hk.
Qed.

Lemma keeps_try_except {A} (body : M A) catches handler :
  keeps R body -> (forall e, keeps R (handler e)) ->
  keeps R (try_except body catches handler).
Proof.
  intros Hb Hh w. specialize (Hb w). unfold exec, try_except in *.
  destruct (body w) as [[a|e|] w1]; cbn in *; try done.
  destruct (catches e); [|done].
  etrans; [exact Hb|]. apply Hh.
Qed.

Lemma keeps_for_each {A} (xs : list A) (body : A -> M unit) :
  (forall x, keeps R (body x)) -> keeps R (for_each xs body).
Proof.
  intros Hb. induction xs as [|x xs IH]; cbn [for_each].
  - apply keeps_ret.
  - apply keeps_bind; auto.
Qed.

End Keeps.

#[global] Instance only_hooks_and_log_refl : Reflexive only_hooks_and_log.
Proof. intros w. by repeat split. Qed.

#[global] Instance only_hooks_and_log_trans : Transitive only_hooks_and_log.
Proof.
  intros w1 w2 w3 (?&?&?&?&?&H12) (?&?&?&?&?&H23).
  repeat split; try congruence.
  intros kind Hkind. rewrite H23, H12; auto.
Qed.

(** ** Registration of the shutdown hooks *)

Lemma log_only_hooks_and_log (level : Level) (msg : string) :
  keeps only_hooks_and_log (log level msg).
Proof.
  intros w. munfold. repeat split. intros kind Hkind.
  unfold count. cbn. by rewrite Hkind.
Qed.

Lemma install_only_hooks_and_log (h : Signal * Hook) :
  keeps only_hooks_and_log (modify (with_hooks (cons h))).
Proof. apply keeps_modify. intros w. by repeat split. Qed.

Lemma register_hook_frame (env : Env) (sig : Signal) :
  keeps only_hooks_and_log (register_hook env sig).
Proof.
  unfold register_hook, add_signal_handler, signal_signal.
  apply keeps_try_except; [apply _..| |].
  - case_match; [apply keeps_raise | apply install_only_hooks_and_log]; apply _.
  - intros _. apply keeps_bind; [apply _..| |].
    + apply log_only_hooks_and_log.
    + intros _. case_match; [apply keeps_raise | apply install_only_hooks_and_log]; apply _.
Qed.

(** Registration touches the table of signal handlers and the log, and
    nothing else. *)
Lemma register_frame (env : Env) :
  keeps only_hooks_and_log (_register_shutdown_hooks env).
Proof.
  unfold _register_shutdown_hooks, signal_attr.
  do 3 (apply keeps_bind;
          [apply _.. | case_match; [apply keeps_ret | apply keeps_raise]; apply _
          | intros ?]).
  apply keeps_for_each; [apply _..|]. apply register_hook_frame.
Qed.

Lemma register_hook_result (env : Env) (sig : Signal) (w1 w2 : World) :
  result (register_hook env sig) w1 = result (register_hook env sig) w2.
Proof.
  unfold register_hook, add_signal_handler, signal_signal. munfold. mcases.
Qed.

Lemma oblivious_bind {A B} (m : M A) (k : A -> M B) :
  oblivious m -> (forall a, oblivious (k a)) -> oblivious (m ≫= k).
Proof.
  intros Hm Hk w1 w2. specialize (Hm w1 w2). unfold result in *.
  unfold mbind, M_bind, bind.
  destruct (m w1) as [r1 v1], (m w2) as [r2 v2]. cbn in Hm. subst r2.
  destruct r1 as [a|e|]; try done. apply Hk.
Qed.

Lemma oblivious_for_each {A} (xs : list A) (body : A -> M unit) :
  (forall x, oblivious (body x)) -> oblivious (for_each xs body).
Proof.
  intros Hb. induction xs as [|x xs IH]; cbn [for_each]; [done|].
  apply oblivious_bind; auto.
Qed.

(** Whether registration succeeds is decided by the host alone. *)
Lemma register_result (env : Env) : oblivious (_register_shutdown_hooks env).
Proof.
  unfold _register_shutdown_hooks, signal_attr.
  do 3 (apply oblivious_bind; [by case_match | intros ?]).
  apply oblivious_for_each. intros sig w1 w2. apply register_hook_result.
Qed.

(** ** What the primitives keep *)

#[global] Instance shrinks_refl : Reflexive shrinks.
Proof. intros w. by repeat split. Qed.

#[global] Instance shrinks_trans : Transitive shrinks.
Proof.
  intros w1 w2 w3 (?&?&?&?&?&?&?&?) (?&?&?&?&?&?&?&?).
  repeat split; try congruence; eauto.
Qed.

#[global] Instance future_safe_refl : Reflexive future_safe.
Proof. intros w. by split. Qed.

#[global] Instance future_safe_trans : Transitive future_safe.
Proof. intros w1 w2 w3 [? ?] [? ?]. split; eauto. Qed.

Create HintDb keeps discriminated.

#[global] Hint Resolve keeps_ret keeps_raise keeps_suspend keeps_gets
  keeps_getattr : keeps.
#[global] Hint Extern 0 (Reflexive _) => apply _ : keeps.
#[global] Hint Extern 0 (Transitive _) => apply _ : keeps.

(** Splitting a goal [keeps R m] along the structure of [m]. *)
Ltac keeps_step :=
  first
    [ solve [eauto with keeps]
    | apply keeps_bind; [apply _ .. | | intros ?]
    | apply keeps_try_except; [apply _ .. | | intros ?]
    | apply keeps_for_each; [apply _ .. | intros ?]
    | case_match ].

Ltac keeps_auto := repeat keeps_step.

Lemma count_quiet (kind : Effect -> bool) (ev : Effect) (tr : list Effect) :
  kind ev = false -> count kind (ev :: tr) = count kind tr.
Proof. intros H. unfold count. cbn. by rewrite H. Qed.

Lemma count_loud (kind : Effect -> bool) (ev : Effect) (tr : list Effect) :
  kind ev = true -> count kind (ev :: tr) = S (count kind tr).
Proof. intros H. unfold count. cbn. by rewrite H. Qed.

(** An effect that resolves no future keeps [future_safe]. *)
Lemma emit_future_safe (ev : Effect) :
  (forall fid, resolves fid ev = false) -> keeps future_safe (emit ev).
Proof.
  intros Hev w. munfold. split; [|done].
  intros Hw fid. wsimpl. unfold resolutions.
  rewrite count_quiet by done. apply Hw.
Qed.

Lemma emit_shrinks (ev : Effect) : keeps shrinks (emit ev).
Proof. intros w. munfold. by repeat split. Qed.

Lemma log_future_safe level msg : keeps future_safe (log level msg).
Proof. by apply emit_future_safe. Qed.

Lemma log_shrinks level msg : keeps shrinks (log level msg).
Proof. apply emit_shrinks. Qed.

#[global] Hint Resolve log_future_safe log_shrinks emit_shrinks : keeps.

(** A change of the handler, the sessions, the tasks, the hooks or the
    position in the random stream keeps [future_safe]. *)
Lemma modify_future_safe (f : World -> World) :
  (forall w, futures (f w) = futures w /\ trace (f w) = trace w) ->
  keeps future_safe (modify f).
Proof.
  intros Hf w. munfold. destruct (Hf w) as [Hfut Htr].
  split; [|by rewrite Hfut].
  intros Hw fid. rewrite Htr, Hfut. apply Hw.
Qed.

Ltac future_safe_prim :=
  unfold set_is_configured, set_scheduler_loop, set_scheduler_task, set_queue,
    set_session, set_batch_size, set_shutdown_started, ClientSession,
    session_closed, session_close, create_task, task_cancel, await_task, draw,
    randint, choice;
  keeps_auto;
  try (apply modify_future_safe; intros; by split);
  try (by apply emit_future_safe).

Lemma set_is_configured_future_safe v : keeps future_safe (set_is_configured v).
Proof. future_safe_prim. Qed.
Lemma set_scheduler_loop_future_safe v : keeps future_safe (set_scheduler_loop v).
Proof. future_safe_prim. Qed.
Lemma set_scheduler_task_future_safe v : keeps future_safe (set_scheduler_task v).
Proof. future_safe_prim. Qed.
Lemma set_queue_future_safe v : keeps future_safe (set_queue v).
Proof. future_safe_prim. Qed.
Lemma set_session_future_safe v : keeps future_safe (set_session v).
Proof. future_safe_prim. Qed.
Lemma set_batch_size_future_safe v : keeps future_safe (set_batch_size v).
Proof. future_safe_prim. Qed.
Lemma set_shutdown_started_future_safe v : keeps future_safe (set_shutdown_started v).
Proof. future_safe_prim. Qed.
Lemma ClientSession_future_safe : keeps future_safe ClientSession.
Proof. future_safe_prim. Qed.
Lemma session_closed_future_safe sid : keeps future_safe (session_closed sid).
Proof. future_safe_prim. Qed.
Lemma session_close_future_safe sid : keeps future_safe (session_close sid).
Proof. future_safe_prim. Qed.
Lemma create_task_future_safe t : keeps future_safe (create_task t).
Proof. future_safe_prim. Qed.
Lemma task_cancel_future_safe tid : keeps future_safe (task_cancel tid).
Proof. future_safe_prim. Qed.
Lemma await_task_future_safe tid : keeps future_safe (await_task tid).
Proof. future_safe_prim. Qed.
Lemma randint_future_safe env a b : keeps future_safe (randint env a b).
Proof. future_safe_prim. Qed.
Lemma choice_future_safe env l : keeps future_safe (choice env l).
Proof. future_safe_prim. Qed.

#[global] Hint Resolve set_is_configured_future_safe set_scheduler_loop_future_safe
  set_scheduler_task_future_safe set_queue_future_safe set_session_future_safe
  set_batch_size_future_safe set_shutdown_started_future_safe
  ClientSession_future_safe session_closed_future_safe session_close_future_safe
  create_task_future_safe task_cancel_future_safe await_task_future_safe
  randint_future_safe choice_future_safe : keeps.

Lemma fresh_future_unused (w : World) : futures w !! fresh (dom (futures w)) = None.
Proof. apply not_elem_of_dom, is_fresh. Qed.

Lemma fresh_task_unused (w : World) : tasks w !! fresh (dom (tasks w)) = None.
Proof. apply not_elem_of_dom, is_fresh. Qed.

Lemma fresh_session_unused (w : World) : sessions w !! fresh (dom (sessions w)) = None.
Proof. apply not_elem_of_dom, is_fresh. Qed.

Lemma create_future_future_safe : keeps future_safe create_future.
Proof.
  intros w. munfold. pose proof (fresh_future_unused w) as Hfresh.
  split.
  - intros Hw fid. wsimpl. rewrite Hw.
    destruct (decide (fid = fresh (dom (futures w)))) as [->|Hne].
    + by rewrite lookup_insert_eq, Hfresh.
    + by rewrite lookup_insert_ne.
  - intros fid f Hf _. wsimpl. rewrite lookup_insert_ne; [done|].
    intros <-. congruence.
Qed.

(** Resolving a pending future: its count goes from 0 to 1, the other
    futures keep theirs. *)
Lemma resolve_future_safe (w : World) (fid : nat) (f : Future) (ev : Effect) :
  futures w !! fid = Some FutPending ->
  is_resolved (Some f) = true ->
  (forall fid', resolves fid' ev = bool_decide (fid = fid')) ->
  future_safe w (with_trace (cons ev) (with_futures <[fid := f]> w)).
Proof.
  intros Hpending Hf Hev. split.
  - intros Hw fid'. wsimpl. unfold resolutions.
    destruct (decide (fid = fid')) as [<-|Hne].
    + rewrite count_loud by (rewrite Hev; by apply bool_decide_eq_true_2).
      rewrite lookup_insert_eq, Hf. fold (resolutions fid (trace w)).
      by rewrite Hw, Hpending.
    + rewrite count_quiet by (rewrite Hev; by apply bool_decide_eq_false_2).
      rewrite lookup_insert_ne by done. apply Hw.
  - intros fid' f' Hf' Hdone. wsimpl.
    rewrite lookup_insert_ne; [done|]. intros <-. congruence.
Qed.

Lemma set_result_future_safe fid v : keeps future_safe (set_result fid v).
Proof.
  intros w. munfold.
  destruct (futures w !! fid) as [[]|] eqn:Hf; munfold; try reflexivity.
  by apply resolve_future_safe.
Qed.

Lemma set_exception_future_safe fid e : keeps future_safe (set_exception fid e).
Proof.
  intros w. munfold.
  destruct (futures w !! fid) as [[]|] eqn:Hf; munfold; try reflexivity.
  by apply resolve_future_safe.
Qed.

Lemma await_future_future_safe fid : keeps future_safe (await_future fid).
Proof. unfold await_future. keeps_auto. Qed.

Lemma cancel_caller_future_safe fid : keeps future_safe (cancel_caller fid).
Proof.
  intros w. munfold. unfold future_safe, resolved_once. wsimpl.
  destruct (futures w !! fid) as [[]|] eqn:Hf; try done.
  split.
  - intros Hw fid'. rewrite Hw.
    destruct (decide (fid = fid')) as [<-|Hne].
    + by rewrite lookup_insert_eq, Hf.
    + by rewrite lookup_insert_ne.
  - intros fid' f' Hf' Hdone.
    rewrite lookup_insert_ne; [done|]. intros <-. congruence.
Qed.

#[global] Hint Resolve create_future_future_safe set_result_future_safe
  set_exception_future_safe await_future_future_safe cancel_caller_future_safe
  : keeps.

(** *** [shrinks] *)

Lemma cancel_one_scheduler tid ts t p :
  cancel_one tid ts !! t = Some (SchedulerTask p) -> ts !! t = Some (SchedulerTask p).
Proof.
  unfold cancel_one. destruct (ts !! tid) as [x|] eqn:Hx; [|done].
  destruct (is_live x); [|done].
  destruct (decide (tid = t)) as [->|Hne].
  - by rewrite lookup_insert_eq.
  - by rewrite lookup_insert_ne.
Qed.

Lemma cancel_batch_scheduler batch ts t p :
  foldr cancel_one ts batch !! t = Some (SchedulerTask p) ->
  ts !! t = Some (SchedulerTask p).
Proof.
  induction batch as [|tid batch IH]; cbn; [done|].
  intros H. by apply cancel_one_scheduler, IH in H.
Qed.

Lemma cancel_task_scheduler tid ts t p :
  cancel_task tid ts !! t = Some (SchedulerTask p) -> ts !! t = Some (SchedulerTask p).
Proof.
  unfold cancel_task. intros H.
  repeat case_match; apply cancel_one_scheduler in H; try done.
  by apply cancel_batch_scheduler in H.
Qed.

Lemma set_queue_shrinks v : keeps shrinks (set_queue v).
Proof. intros w. munfold. by repeat split. Qed.

Lemma set_shutdown_started_shrinks v : keeps shrinks (set_shutdown_started v).
Proof. intros w. munfold. by repeat split. Qed.

Lemma session_closed_shrinks sid : keeps shrinks (session_closed sid).
Proof. unfold session_closed. keeps_auto. Qed.

Lemma session_close_shrinks sid : keeps shrinks (session_close sid).
Proof.
  intros w. munfold. repeat split; try done.
  intros sid'. cbn. intros [[_ ?]|[_ ?]]%lookup_insert_Some; done.
Qed.

Lemma task_cancel_shrinks tid : keeps shrinks (task_cancel tid).
Proof.
  intros w. munfold. repeat split; try done.
  intros t p. cbn. apply cancel_task_scheduler.
Qed.

Lemma await_task_shrinks tid : keeps shrinks (await_task tid).
Proof. unfold await_task. keeps_auto. Qed.

Lemma create_fetch_task_shrinks c : keeps shrinks (create_task (FetchTask c)).
Proof.
  intros w. munfold. repeat split; try done.
  intros t p. cbn. intros [[_ ?]|[_ ?]]%lookup_insert_Some; done.
Qed.

Lemma futures_shrinks (f : gmap nat Future -> gmap nat Future) :
  keeps shrinks (modify (with_futures f)).
Proof. intros w. munfold. by repeat split. Qed.

Lemma create_future_shrinks : keeps shrinks create_future.
Proof. unfold create_future. keeps_auto. apply futures_shrinks. Qed.

Lemma set_result_shrinks fid v : keeps shrinks (set_result fid v).
Proof. unfold set_result. keeps_auto; apply futures_shrinks. Qed.

Lemma set_exception_shrinks fid e : keeps shrinks (set_exception fid e).
Proof. unfold set_exception. keeps_auto; apply futures_shrinks. Qed.

Lemma await_future_shrinks fid : keeps shrinks (await_future fid).
Proof. unfold await_future. keeps_auto. Qed.

Lemma cancel_caller_shrinks fid : keeps shrinks (cancel_caller fid).
Proof. apply futures_shrinks. Qed.

Lemma draw_shrinks env : keeps shrinks (draw env).
Proof.
  unfold draw. keeps_auto. apply keeps_modify. intros w. by repeat split.
Qed.

Lemma choice_shrinks env l : keeps shrinks (choice env l).
Proof.
  unfold choice. apply keeps_bind; [apply _.. | apply draw_shrinks | intros r].
  apply keeps_ret; apply _.
Qed.

#[global] Hint Resolve set_queue_shrinks set_shutdown_started_shrinks
  session_closed_shrinks session_close_shrinks task_cancel_shrinks
  await_task_shrinks create_fetch_task_shrinks create_future_shrinks
  set_result_shrinks set_exception_shrinks await_future_shrinks
  cancel_caller_shrinks choice_shrinks : keeps.

(** ** What the methods keep *)

Lemma register_future_safe env : keeps future_safe (_register_shutdown_hooks env).
Proof.
  intros w. destruct (register_frame env w) as (_&_&_&Hfut&_&Hcount).
  split.
  - intros Hw fid. unfold resolutions. rewrite Hcount, Hfut by done. apply Hw.
  - intros fid f Hf _. by rewrite Hfut.
Qed.

#[global] Hint Resolve register_future_safe : keeps.

Lemma emit_put_future_safe c : keeps future_safe (emit (PutNowait c)).
Proof. by apply emit_future_safe. Qed.

Lemma emit_slept_future_safe d : keeps future_safe (emit (Slept d)).
Proof. by apply emit_future_safe. Qed.

#[global] Hint Resolve emit_put_future_safe emit_slept_future_safe : keeps.

Lemma retire_previous_future_safe : keeps future_safe retire_previous.
Proof. unfold retire_previous. keeps_auto. Qed.

Lemma retire_previous_shrinks : keeps shrinks retire_previous.
Proof. unfold retire_previous. keeps_auto. Qed.

Lemma fresh_resources_future_safe env : keeps future_safe (fresh_resources env).
Proof. unfold fresh_resources. keeps_auto. Qed.

Lemma start_scheduler_future_safe l : keeps future_safe (start_scheduler l).
Proof. unfold start_scheduler. keeps_auto. Qed.

#[global] Hint Resolve retire_previous_future_safe retire_previous_shrinks
  fresh_resources_future_safe start_scheduler_future_safe : keeps.

Lemma reinitialise_future_safe env l : keeps future_safe (reinitialise env l).
Proof. unfold reinitialise. keeps_auto. Qed.

#[global] Hint Resolve reinitialise_future_safe : keeps.

Lemma configure_future_safe env l : keeps future_safe (configure env l).
Proof. unfold configure. keeps_auto. Qed.

Lemma get_future_safe env url raw : keeps future_safe (get env url raw).
Proof. unfold get. keeps_auto. Qed.

Lemma get_shrinks env url raw : keeps shrinks (get env url raw).
Proof. unfold get. keeps_auto. Qed.

Lemma shutdown_future_safe : keeps future_safe shutdown.
Proof. unfold shutdown. keeps_auto. Qed.

Lemma shutdown_shrinks : keeps shrinks shutdown.
Proof. unfold shutdown. keeps_auto. Qed.

Lemma fetch_future_safe env c : keeps future_safe (fetch env c).
Proof. unfold fetch, async_with_get, awaited. keeps_auto. Qed.

Lemma fetch_shrinks env c : keeps shrinks (fetch env c).
Proof. unfold fetch, async_with_get, awaited. keeps_auto. Qed.

Lemma resume_from_future_safe env p : keeps future_safe (resume_from env p).
Proof. unfold resume_from, after_collecting, begin_cycle. keeps_auto. Qed.

(** A change of the task table alone keeps [future_safe]. *)
Lemma with_tasks_future_safe (f : gmap nat Task -> gmap nat Task) (w : World) :
  future_safe w (with_tasks f w).
Proof. split; [intros Hw fid; apply Hw | done]. Qed.

Lemma with_tasks_shrinks_done (tid : nat) (o : Outcome) (w : World) :
  shrinks w (with_tasks <[tid := Done o]> w).
Proof.
  repeat split; try done.
  intros t p. cbn. intros [[_ ?]|[_ ?]]%lookup_insert_Some; done.
Qed.

Lemma run_task_future_safe (env : Env) (tid : nat) (w : World) :
  future_safe w (run_task env tid w).
Proof.
  unfold run_task. destruct (tasks w !! tid) as [[p|c|o]|]; try reflexivity.
  - pose proof (resume_from_future_safe env p w) as H. unfold exec in H.
    destruct (resume_from env p w) as [[p'|e|] w']; cbn in H; try done;
      (etrans; [exact H | apply with_tasks_future_safe]).
  - pose proof (fetch_future_safe env c w) as H. unfold exec in H.
    destruct (fetch env c w) as [r w']; cbn in H.
    destruct (finished r); [|done].
    etrans; [exact H | apply with_tasks_future_safe].
Qed.

Lemma step_future_safe (env : Env) (a : Action) (w : World) :
  future_safe w (step env a w).
Proof.
  destruct a; cbn [step].
  - apply configure_future_safe.
  - apply get_future_safe.
  - apply shutdown_future_safe.
  - apply cancel_caller_future_safe.
  - apply run_task_future_safe.
  - destruct (installed sig (hooks w)); [apply shutdown_future_safe | reflexivity].
Qed.

Lemma run_app (env : Env) (acts1 acts2 : list Action) (w : World) :
  run env (acts1 ++ acts2) w = run env acts2 (run env acts1 w).
Proof. unfold run. apply foldl_app. Qed.

Lemma run_future_safe (env : Env) (acts : list Action) (w : World) :
  future_safe w (run env acts w).
Proof.
  revert w. induction acts as [|a acts IH]; intros w; [reflexivity|].
  cbn. etrans; [apply step_future_safe | apply IH].
Qed.

Lemma new_world_resolved_once : resolved_once new_world.
Proof. intros fid. reflexivity. Qed.

(** In a world the handler can reach, the trace records exactly one
    resolution for every resolved future and none for the others. *)
Lemma reachable_resolved_once (env : Env) (acts : list Action) :
  resolved_once (run env acts new_world).
Proof. apply (run_future_safe env acts new_world), new_world_resolved_once. Qed.

(** ** The deferred operation *)

(** Run on a pending future, [fetch] returns normally, puts the outcome of
    the request into that future and touches nothing else but the log. *)
Lemma fetch_pending (env : Env) (c : Coroutine) (w : World) :
  futures w !! c_future c = Some FutPending ->
  let w' := exec (fetch env c) w in
  result (fetch env c) w = Ok tt
  /\ futures w' = <[c_future c := fetched env c w]> (futures w)
  /\ self w' = self w /\ tasks w' = tasks w /\ sessions w' = sessions w
  /\ rng_pos w' = rng_pos w /\ hooks w' = hooks w.
Proof.
  intros Hpending. unfold fetch, async_with_get, awaited, fetched, reply_outcome.
  munfold.
  destruct (session (self w)); munfold; rewrite ?Hpending; [|done].
  destruct (net env c) as [e|status read text]; munfold; rewrite ?Hpending; [done|].
  destruct (c_raw c), read, text; munfold; rewrite ?Hpending; done.
Qed.

Lemma is_resolved_fetched (env : Env) (c : Coroutine) (w : World) :
  is_resolved (Some (fetched env c w)) = true.
Proof.
  unfold fetched. destruct (session (self w)); [|done].
  by destruct (reply_outcome c (net env c)).
Qed.

(** The event loop running a [fetch] task whose future is pending. *)
Lemma run_fetch_pending (env : Env) (tid : nat) (c : Coroutine) (w : World) :
  tasks w !! tid = Some (FetchTask c) ->
  futures w !! c_future c = Some FutPending ->
  let w' := run_task env tid w in
  futures w' = <[c_future c := fetched env c w]> (futures w)
  /\ tasks w' = <[tid := Done Returned]> (tasks w)
  /\ self w' = self w /\ sessions w' = sessions w
  /\ rng_pos w' = rng_pos w /\ hooks w' = hooks w.
Proof.
  intros Htask Hpending. unfold run_task. rewrite Htask.
  destruct (fetch_pending env c w Hpending) as (Hr&Hfut&Hself&Htasks&Hsess&Hrng&Hhooks).
  unfold exec, result in *. destruct (fetch env c w) as [r w1]. cbn in *.
  subst r. cbn. by rewrite Htasks.
Qed.



(** ** The blocks of [configure] *)

Lemma Inv_shrinks (env : Env) (w w' : World) :
  Inv env w -> shrinks w w' -> Inv env w'.
Proof.
  intros [Hsched Hsess Hconf] (Hc&Hl&Ht&Hs&Hb&Hq&Htasks&Hsessions).
  split.
  - intros tid p Hp. apply Htasks, Hsched in Hp as (?&?&?&b&?&?&?).
    rewrite Ht, Hb, Hs. eauto 10.
  - intros Hok sid Hsid. rewrite Hs, Ht. by apply Hsess, Hsessions.
  - rewrite Hc, Hl, Ht, Hs. intros (?&?&?&?&?)%Hconf. eauto 10.
Qed.

Lemma cancel_one_self tid ts p : cancel_one tid ts !! tid <> Some (SchedulerTask p).
Proof.
  unfold cancel_one. destruct (ts !! tid) as [t|] eqn:Ht; [|congruence].
  destruct (is_live t) eqn:Hlive.
  - by rewrite lookup_insert_eq.
  - rewrite Ht. by destruct t.
Qed.

Lemma cancel_task_self tid ts p : cancel_task tid ts !! tid <> Some (SchedulerTask p).
Proof. unfold cancel_task. repeat case_match; apply cancel_one_self. Qed.

(** When the [try] block is left normally, the previous session is closed
    and the previous scheduler task is no longer live. *)
Lemma retire_previous_done (w : World) :
  result retire_previous w = Ok tt ->
  let w' := exec retire_previous w in
  (forall tid p, _scheduler_task (self w) = Some tid ->
                 tasks w' !! tid <> Some (SchedulerTask p))
  /\ (forall sid, session (self w) = Some sid -> sessions w' !! sid = Some true).
Proof.
  unfold retire_previous. munfold.
  destruct (session (self w)) as [sid|] eqn:Hs; munfold; [|done].
  destruct (_scheduler_task (self w)) as [tid|] eqn:Ht; munfold; [|done].
  destruct (cancel_task tid (tasks w) !! tid) as [[| |[|e|]]|] eqn:Hc; munfold;
    try destruct (is_CancelledError e); munfold;
    try done; intros _; (split; [intros ? p [= <-]; apply cancel_task_self
                               | intros ? [= <-]; apply lookup_insert_eq]).
Qed.

Lemma fresh_resources_effect (env : Env) (w : World) :
  let w' := exec (fresh_resources env) w in
  let sid := fresh (dom (sessions w)) in
  result (fresh_resources env) w = Ok tt
  /\ sessions w' = <[sid := false]> (sessions w)
  /\ tasks w' = tasks w /\ futures w' = futures w /\ hooks w' = hooks w
  /\ _is_configured (self w') = _is_configured (self w)
  /\ _scheduler_loop (self w') = _scheduler_loop (self w)
  /\ _scheduler_task (self w') = _scheduler_task (self w)
  /\ _shutdown_started (self w') = _shutdown_started (self w)
  /\ queue (self w') = Some []
  /\ session (self w') = Some sid
  /\ _batch_size (self w') = Some (3 + Z.of_nat (entropy env (rng_pos w)) `mod` 3)
  /\ rng_pos w' = S (rng_pos w)
  /\ trace w' = Logged DEBUG "Batch size set to {self._batch_size}"
                  :: SessionCreated sid :: trace w.
Proof. unfold fresh_resources. munfold. by repeat split. Qed.

Lemma start_scheduler_effect (l : nat) (w : World) :
  let w' := exec (start_scheduler l) w in
  let tid := fresh (dom (tasks w)) in
  result (start_scheduler l) w = Ok tt
  /\ tasks w' = <[tid := SchedulerTask Starting]> (tasks w)
  /\ sessions w' = sessions w /\ futures w' = futures w /\ hooks w' = hooks w
  /\ rng_pos w' = rng_pos w
  /\ _is_configured (self w') = true
  /\ _scheduler_loop (self w') = Some l
  /\ _scheduler_task (self w') = Some tid
  /\ _shutdown_started (self w') = Some false
  /\ queue (self w') = queue (self w)
  /\ session (self w') = session (self w)
  /\ _batch_size (self w') = _batch_size (self w)
  /\ trace w' = Logged INFO "RequestHandler configured successfully"
                  :: TaskCreated tid :: trace w.
Proof. unfold start_scheduler. munfold. by repeat split. Qed.

Lemma surjective_run {A} (m : M A) (w : World) : m w = (result m w, exec m w).
Proof. unfold result, exec. by destruct (m w). Qed.

Lemma bind_run {A B} (m : M A) (k : A -> M B) (w : World) :
  (m ≫= k) w
  = match result m w with
    | Ok a => k a (exec m w)
    | Raise e => (Raise e, exec m w)
    | Suspended => (Suspended, exec m w)
    end.
Proof.
  unfold mbind, M_bind, bind, result, exec. by destruct (m w) as [[] ?].
Qed.

(** [reinitialise] block by block. *)
Lemma reinitialise_run (env : Env) (l : nat) (w : World) :
  let retire := if _scheduler_task (self w) is Some _ then retire_previous
                else ret tt in
  match result retire w with
  | Ok _ =>
      let wB := exec (fresh_resources env) (exec retire w) in
      match result (_register_shutdown_hooks env) wB with
      | Ok _ =>
          reinitialise env l w
          = (Ok tt, exec (start_scheduler l) (exec (_register_shutdown_hooks env) wB))
      | Raise e =>
          reinitialise env l w = (Raise e, exec (_register_shutdown_hooks env) wB)
      | Suspended =>
          reinitialise env l w = (Suspended, exec (_register_shutdown_hooks env) wB)
      end
  | Raise e => reinitialise env l w = (Raise e, exec retire w)
  | Suspended => reinitialise env l w = (Suspended, exec retire w)
  end.
Proof.
  intros retire. unfold reinitialise.
  rewrite bind_run. cbn [result exec gets fst snd]. fold retire.
  rewrite bind_run.
  destruct (result retire w) as [[]|e|]; try done.
  rewrite bind_run.
  destruct (fresh_resources_effect env (exec retire w)) as [-> _].
  rewrite bind_run.
  by destruct (result (_register_shutdown_hooks env) _) as [[]|e|].
Qed.

Lemma randint_3_5_range (r : nat) : 3 <= 3 + Z.of_nat r `mod` 3 <= 5.
Proof. pose proof (Z.mod_pos_bound (Z.of_nat r) 3). lia. Qed.

Lemma randint_5_10_range (r : nat) : 5 <= 5 + Z.of_nat r `mod` 6 <= 10.
Proof. pose proof (Z.mod_pos_bound (Z.of_nat r) 6). lia. Qed.

Lemma hooks_ok_at (env : Env) (w : World) :
  hooks_ok env <-> result (_register_shutdown_hooks env) w = Ok tt.
Proof. unfold hooks_ok. by rewrite (register_result env new_world w). Qed.

(** Re-initialisation sets the flags whenever it comes to its end. *)
Lemma reinitialise_flags (env : Env) (l : nat) (w : World) :
  result (reinitialise env l) w = Ok tt ->
  let w' := exec (reinitialise env l) w in
  hooks_ok env
  /\ _is_configured (self w') = true
  /\ _scheduler_loop (self w') = Some l
  /\ _shutdown_started (self w') = Some false.
Proof.
  pose proof (reinitialise_run env l w) as Hrun. cbn zeta in Hrun.
  destruct (result (if _scheduler_task (self w) is Some _ then _ else _) w)
    as [[]|e|]; [|unfold result; rewrite Hrun; done..].
  destruct (result (_register_shutdown_hooks env) _) as [[]|e|] eqn:Hreg;
    [|unfold result; rewrite Hrun; done..].
  intros _. unfold exec. rewrite Hrun. cbn [snd].
  split; [by eapply hooks_ok_at|].
  match goal with
  | |- context [exec (start_scheduler l) ?W] =>
      destruct (start_scheduler_effect l W) as (_&_&_&_&_&_&?&?&_&?&_)
  end.
  done.
Qed.

(** Re-initialisation keeps the invariant, and when it comes to its end
    the handler is freshly configured. *)
Lemma reinitialise_Inv (env : Env) (l : nat) (w : World) :
  Inv env w ->
  let w' := exec (reinitialise env l) w in
  Inv env w'
  /\ (result (reinitialise env l) w = Ok tt -> freshly_configured l w').
Proof.
  intros HI.
  pose proof (reinitialise_run env l w) as Hrun. cbn zeta in Hrun.
  set (retire := if _scheduler_task (self w) is Some _ then retire_previous
                 else ret tt) in *.
  set (wA := exec retire w) in *.
  assert (HwA : shrinks w wA).
  { unfold wA, retire. destruct (_scheduler_task (self w)).
    - apply retire_previous_shrinks.
    - reflexivity. }
  pose proof (Inv_shrinks env w wA HI HwA) as HIA.
  destruct (result retire w) as [[]|e|] eqn:Hretire;
    [|unfold exec, result; rewrite Hrun; cbn; split; [done|discriminate]..].
  (* the previous scheduler and session are gone *)
  assert (Hnosched : forall t p, tasks wA !! t <> Some (SchedulerTask p)).
  { intros t p Htp. pose proof Htp as Ht.
    apply (inv_scheduler env wA HIA) in Ht as [Ht _].
    destruct HwA as (_&_&Hattr&_). rewrite Hattr in Ht.
    unfold wA, retire in Htp. unfold retire in Hretire. rewrite Ht in Htp, Hretire.
    by eapply (retire_previous_done w Hretire). }
  assert (Hnoopen : hooks_ok env -> forall s, sessions wA !! s <> Some false).
  { intros Hok s Hs. pose proof Hs as Hs'.
    apply (inv_session env wA HIA Hok) in Hs' as [Hsess [t Ht]].
    destruct HwA as (_&_&Hattr&Hsattr&_). rewrite Hattr in Ht. rewrite Hsattr in Hsess.
    unfold wA, retire in Hs. unfold retire in Hretire. rewrite Ht in Hs, Hretire.
    destruct (retire_previous_done w Hretire) as [_ Hclosed].
    rewrite (Hclosed s Hsess) in Hs. discriminate. }
  set (wB := exec (fresh_resources env) wA) in *.
  destruct (fresh_resources_effect env wA)
    as (_&HBsess&HBtasks&_&_&HBconf&HBloop&HBtask&_&HBq&HBs&HBb&_).
  fold wB in HBsess, HBtasks, HBconf, HBloop, HBtask, HBq, HBs, HBb.
  set (wC := exec (_register_shutdown_hooks env) wB) in *.
  destruct (register_frame env wB) as (HCself&HCsess&HCtasks&_).
  fold wC in HCself, HCsess, HCtasks.
  destruct (result (_register_shutdown_hooks env) wB) as [[]|e|] eqn:Hreg.
  - (* registration succeeded: the scheduler is started *)
    assert (Hok : hooks_ok env) by (by eapply hooks_ok_at).
    unfold exec, result. rewrite Hrun. cbn [fst snd].
    destruct (start_scheduler_effect l wC)
      as (_&HDtasks&HDsess&_&_&_&HDconf&HDloop&HDtask&HDstarted&HDq&HDs&HDb&_).
    set (wD := exec (start_scheduler l) wC) in *.
    set (tid := fresh (dom (tasks wC))) in *.
    set (sid := fresh (dom (sessions wA))) in *.
    assert (Hone : forall t p, tasks wD !! t = Some (SchedulerTask p) ->
                               t = tid /\ p = Starting).
    { intros t p. rewrite HDtasks.
      intros [[-> [= <-]]|[_ Htp]]%lookup_insert_Some; [done|].
      rewrite HCtasks, HBtasks in Htp. by apply Hnosched in Htp. }
    assert (Hopen : forall s, sessions wD !! s = Some false -> s = sid).
    { intros s. rewrite HDsess, HCsess, HBsess.
      intros [[-> _]|[_ Hs]]%lookup_insert_Some; [done|].
      by apply Hnoopen in Hs. }
    assert (Hq : queue (self wD) = Some []) by (by rewrite HDq, HCself, HBq).
    assert (Hs : session (self wD) = Some sid) by (by rewrite HDs, HCself, HBs).
    split; [split|].
    + intros t p Htp. apply Hone in Htp as [-> ->].
      split; [done|]. split; [by rewrite Hq|]. split; [by rewrite Hs|].
      eexists. rewrite HDb, HCself, HBb. split; [done|].
      split; [apply randint_3_5_range | done].
    + intros _ s Hsopen. apply Hopen in Hsopen as ->. by rewrite HDtask.
    + intros _. rewrite HDloop, HDtask, Hq, Hs. eauto.
    + intros _. repeat split; try done. exists tid, sid.
      repeat split; try done.
      * rewrite HDtasks. apply lookup_insert_eq.
      * intros t p Htp. by apply Hone in Htp as [-> _].
      * rewrite HDsess, HCsess, HBsess. apply lookup_insert_eq.
  - (* registration raised: nothing is live, and it never succeeds here *)
    assert (Hnok : ~ hooks_ok env).
    { intros Hok. apply (hooks_ok_at env wB) in Hok. congruence. }
    unfold exec, result. rewrite Hrun. cbn [fst snd].
    split; [split|discriminate].
    + intros t p. rewrite HCtasks, HBtasks. intros Htp. by apply Hnosched in Htp.
    + done.
    + rewrite HCself, HBconf. destruct HwA as (Hc&_). rewrite Hc.
      intros Hconf. by apply (inv_configured env w HI) in Hconf as [? _].
  - assert (Hnok : ~ hooks_ok env).
    { intros Hok. apply (hooks_ok_at env wB) in Hok. congruence. }
    unfold exec, result. rewrite Hrun. cbn [fst snd].
    split; [split|discriminate].
    + intros t p. rewrite HCtasks, HBtasks. intros Htp. by apply Hnosched in Htp.
    + done.
    + rewrite HCself, HBconf. destruct HwA as (Hc&_). rewrite Hc.
      intros Hconf. by apply (inv_configured env w HI) in Hconf as [? _].
Qed.

(** ** [configure] *)

(** Configured under the current loop: [configure] only logs. *)
Lemma configure_current (env : Env) (l : nat) (w : World) :
  stale l w = false ->
  configure env l w = (Ok tt, configure_entry w).
Proof.
  unfold stale, configure. intros [Hc Hl]%orb_false_elim.
  apply negb_false_iff in Hc. apply negb_false_iff, bool_decide_eq_true in Hl.
  munfold. rewrite Hc. cbn [negb]. munfold. rewrite Hl. munfold.
  by rewrite Nat.eqb_refl.
Qed.

(** Not configured, or configured under another loop: [configure]
    re-initialises. *)
Lemma configure_stale (env : Env) (l : nat) (w : World) :
  stale l w = true ->
  (_is_configured (self w) = true -> is_Some (_scheduler_loop (self w))) ->
  configure env l w = reinitialise env l (configure_entry w).
Proof.
  unfold stale, configure. intros Hstale Hloop. munfold.
  destruct (_is_configured (self w)); cbn [negb orb] in *; munfold; [|done].
  destruct Hloop as [l0 Hl0]; [done|]. rewrite Hl0 in *. munfold.
  apply negb_true_iff, bool_decide_eq_false in Hstale.
  destruct (Nat.eqb_spec l0 l) as [->|Hne]; [done|done].
Qed.

(** A configured handler that has no [_scheduler_loop]: the comparison
    raises.  No such world is reached. *)
Lemma configure_loopless (env : Env) (l : nat) (w : World) :
  _is_configured (self w) = true -> _scheduler_loop (self w) = None ->
  exists e, configure env l w = (Raise e, configure_entry w).
Proof.
  intros Hc Hl. unfold configure. munfold. rewrite Hc. cbn [negb]. munfold.
  rewrite Hl. munfold. eauto.
Qed.

Lemma configure_entry_shrinks (w : World) : shrinks w (configure_entry w).
Proof. apply (log_shrinks DEBUG "Starting configure()" w). Qed.

Lemma stale_configure_entry (l : nat) (w : World) :
  stale l (configure_entry w) = stale l w.
Proof. done. Qed.

(** C5, as the code has it.  When [configure] returns normally the
    configured flag is set.  The shutdown guard is cleared when the call
    re-initialised, that is when the handler was not configured or was
    configured under another loop; a call that finds the handler configured
    under the current loop leaves the guard as it was. *)
Theorem configure_sets_flags (env : Env) (l : nat) (w : World) :
  result (configure env l) w = Ok tt ->
  let w' := exec (configure env l) w in
  _is_configured (self w') = true
  /\ (stale l w = true -> _shutdown_started (self w') = Some false)
  /\ (stale l w = false ->
      _shutdown_started (self w') = _shutdown_started (self w)).
Proof.
  destruct (stale l w) eqn:Hstale.
  - destruct (_is_configured (self w)) eqn:Hc.
    + destruct (_scheduler_loop (self w)) as [l0|] eqn:Hl.
      * unfold result, exec. rewrite configure_stale by (rewrite ?Hl; eauto).
        intros Hok. destruct (reinitialise_flags env l _ Hok) as (_&?&_&?).
        done.
      * destruct (configure_loopless env l w Hc Hl) as [e He].
        unfold result. by rewrite He.
    + unfold result, exec. rewrite configure_stale by (rewrite ?Hc; done).
      intros Hok. destruct (reinitialise_flags env l _ Hok) as (_&?&_&?).
      done.
  - unfold result, exec. rewrite configure_current by done. intros _. cbn.
    unfold stale in Hstale. apply orb_false_elim in Hstale as [Hc _].
    apply negb_false_iff in Hc. done.
Qed.

Lemma configure_sets_flags_witness :
  _is_configured (self (exec (configure demo_env 7) new_world)) = true.
Proof.
  refine (proj1 (configure_sets_flags demo_env 7 new_world _)).
  vm_compute. reflexivity.
Defined.

(** C5 as stated fails: [configure] after [shutdown] under the same loop
    returns normally and leaves the shutdown guard set. *)
Lemma configure_after_shutdown_keeps_guard :
  let w := run demo_env [CallConfigure 0; CallShutdown] new_world in
  result (configure demo_env 0) w = Ok tt
  /\ _is_configured (self (exec (configure demo_env 0) w)) = true
  /\ _shutdown_started (self (exec (configure demo_env 0) w)) = Some true
  /\ _shutdown_started (self (exec (configure demo_env 0) w)) <> Some false.
Proof. vm_compute. repeat split; discriminate. Qed.

(** ** A host without [SIGBREAK] *)

(** C9, at the input where the code departs from it.  On a host whose
    [signal] module does not define [SIGBREAK], building the tuple of
    signals raises [AttributeError] outside the [try]: a first [configure]
    fails with it, the handler stays unconfigured and without a scheduler
    task, and no handler at all is installed, not even for the signals the
    host supports. *)
Theorem configure_fails_without_SIGBREAK (env : Env) (l : nat) (w : World) :
  signal_defined (platform env) SIGINT = true ->
  signal_defined (platform env) SIGTERM = true ->
  signal_defined (platform env) SIGBREAK = false ->
  _is_configured (self w) = false ->
  _scheduler_task (self w) = None ->
  let w' := exec (configure env l) w in
  result (configure env l) w = Raise SIGBREAK_missing
  /\ _is_configured (self w') = false
  /\ _scheduler_task (self w') = None
  /\ hooks w' = hooks w.
Proof.
  intros Hint Hterm Hbreak Hc Ht.
  unfold result, exec. rewrite configure_stale by (unfold stale; rewrite ?Hc; done).
  unfold reinitialise, fresh_resources, _register_shutdown_hooks, signal_attr,
    configure_entry.
  munfold. rewrite Ht, Hint, Hterm, Hbreak. munfold. by rewrite Hc, Ht.
Qed.

Lemma configure_fails_without_SIGBREAK_witness :
  result (configure posix_env 0) new_world = Raise SIGBREAK_missing.
Proof.
  refine (proj1 (configure_fails_without_SIGBREAK posix_env 0 new_world _ _ _ _ _));
    reflexivity.
Defined.

(** ** The invariant in every reachable world *)

Lemma new_world_Inv (env : Env) : Inv env new_world.
Proof. split; cbn; intros; try done. Qed.

Lemma configure_Inv (env : Env) (l : nat) (w : World) :
  Inv env w -> Inv env (exec (configure env l) w).
Proof.
  intros HI.
  pose proof (Inv_shrinks env w _ HI (configure_entry_shrinks w)) as HI0.
  destruct (stale l w) eqn:Hstale.
  - unfold exec. rewrite configure_stale; [|done|].
    + by apply reinitialise_Inv.
    + intros Hc. by apply (inv_configured env w HI) in Hc as (_&?&_).
  - unfold exec. by rewrite configure_current.
Qed.

(** The handler's scheduler moves to a point that fits its target. *)
Lemma Inv_scheduler_update (env : Env) (w w' : World) (tid : nat)
    (p0 p' : SchedulerPoint) (b' : Z) :
  Inv env w ->
  tasks w !! tid = Some (SchedulerTask p0) ->
  _is_configured (self w') = _is_configured (self w) ->
  _scheduler_loop (self w') = _scheduler_loop (self w) ->
  _scheduler_task (self w') = _scheduler_task (self w) ->
  session (self w') = session (self w) ->
  is_Some (queue (self w')) ->
  _batch_size (self w') = Some b' -> 3 <= b' <= 5 -> point_ok b' p' ->
  sessions w' = sessions w ->
  (forall t p, tasks w' !! t = Some (SchedulerTask p) ->
               (t = tid /\ p = p')
               \/ (t <> tid /\ tasks w !! t = Some (SchedulerTask p))) ->
  Inv env w'.
Proof.
  intros [Hsched Hsess Hconf] Hlive Hc Hl Ht Hs Hq Hb Hrange Hpoint Hsessions Htasks.
  destruct (Hsched _ _ Hlive) as (Htid&_).
  split.
  - intros t p Htp. rewrite Ht, Hb.
    destruct (Htasks t p Htp) as [[-> ->]|[Hne Hold]].
    + rewrite Hs. destruct (Hsched _ _ Hlive) as (_&_&?&_). eauto 10.
    + apply Hsched in Hold as (Hold&_). congruence.
  - rewrite Hsessions, Hs, Ht. apply Hsess.
  - rewrite Hc, Hl, Ht, Hs. intros (?&?&?&?&?)%Hconf. eauto 10.
Qed.

Lemma scheduler_tasks_insert (ts : gmap nat Task) (tid t : nat)
    (p p' : SchedulerPoint) :
  <[tid := SchedulerTask p']> ts !! t = Some (SchedulerTask p) ->
  (t = tid /\ p = p') \/ (t <> tid /\ ts !! t = Some (SchedulerTask p)).
Proof. intros [[-> [= <-]]|[? ?]]%lookup_insert_Some; eauto. Qed.

Lemma scheduler_tasks_insert_fetch (ts : gmap nat Task) (tid t t' : nat)
    (c : Coroutine) (p p' : SchedulerPoint) :
  <[tid := SchedulerTask p']> (<[t' := FetchTask c]> ts) !! t
    = Some (SchedulerTask p) ->
  (t = tid /\ p = p') \/ (t <> tid /\ ts !! t = Some (SchedulerTask p)).
Proof.
  intros [[-> [= <-]]|[? [[_ ?]|[_ ?]]%lookup_insert_Some]]%lookup_insert_Some;
    eauto; done.
Qed.

Lemma run_scheduler_Inv (env : Env) (tid : nat) (p : SchedulerPoint) (w : World) :
  Inv env w -> tasks w !! tid = Some (SchedulerTask p) ->
  Inv env (run_task env tid w).
Proof.
  intros HI Htask.
  destruct (inv_scheduler env w HI tid p Htask)
    as (Htid&[q Hq]&_&b&Hb&Hrange&Hpoint).
  assert (Hcycle : point_ok b (Collecting (Z.to_nat b) [])) by (cbn; lia).
  unfold run_task. rewrite Htask.
  unfold resume_from, after_collecting, begin_cycle.
  destruct p as [|[|todo] batch|batch|delay]; cbn [point_ok] in Hpoint.
  - (* Starting *)
    munfold. rewrite Hb. munfold.
    eapply (Inv_scheduler_update env w _ tid _
                 (Collecting (Z.to_nat b) []) b);
      wsimpl; try done.
    intros ? ?; apply scheduler_tasks_insert.
  - lia.
  - (* Collecting *)
    munfold. rewrite Hq. munfold.
    destruct q as [|c q]; munfold.
    + (* the wait timed out *)
      destruct batch as [|t0 batch]; munfold; rewrite ?Hb; munfold.
      * eapply (Inv_scheduler_update env w _ tid _
                 (Collecting (Z.to_nat b) []) b);
          wsimpl; try done.
        intros ? ?; apply scheduler_tasks_insert.
      * eapply (Inv_scheduler_update env w _ tid _
                 (Executing (t0 :: batch)) b);
          wsimpl; try done.
        -- cbn in *. lia.
        -- intros ? ?; apply scheduler_tasks_insert.
    + (* an operation was dequeued *)
      destruct todo as [|todo]; munfold.
      * destruct (batch ++ [fresh (dom (tasks w))])%list as [|t0 batch'] eqn:Hbatch;
          [by destruct batch|]. munfold.
        eapply (Inv_scheduler_update env w _ tid _
                 (Executing (t0 :: batch')) b);
          wsimpl; try done.
        -- cbn [point_ok]. rewrite <- Hbatch, length_app. cbn. lia.
        -- intros ? ?; apply scheduler_tasks_insert_fetch.
      * eapply (Inv_scheduler_update env w _ tid _
                 (Collecting (S todo) (batch ++ [fresh (dom (tasks w))])) b);
          wsimpl; try done.
        -- cbn [point_ok]. rewrite length_app. cbn. lia.
        -- intros ? ?; apply scheduler_tasks_insert_fetch.
  - (* Executing *)
    munfold.
    destruct (gathered (tasks w) batch) as [[|e|]|]; munfold.
    + eapply (Inv_scheduler_update env w _ tid _
                 (Sleeping (5 + Z.of_nat (entropy env (S (rng_pos w))) `mod` 6))
               (3 + Z.of_nat (entropy env (rng_pos w)) `mod` 3));
        wsimpl; try done.
      * apply randint_3_5_range.
      * apply randint_5_10_range.
      * intros ? ?; apply scheduler_tasks_insert.
    + eapply Inv_shrinks; [exact HI|]. apply with_tasks_shrinks_done.
    + eapply Inv_shrinks; [exact HI|]. apply with_tasks_shrinks_done.
    + eapply (Inv_scheduler_update env w _ tid _
                 (Executing batch) b);
        wsimpl; try done.
      intros ? ?; apply scheduler_tasks_insert.
  - (* Sleeping *)
    munfold. rewrite Hb. munfold.
    eapply (Inv_scheduler_update env w _ tid _
                 (Collecting (Z.to_nat b) []) b);
      wsimpl; try done.
    intros ? ?; apply scheduler_tasks_insert.
Qed.

Lemma run_task_Inv (env : Env) (tid : nat) (w : World) :
  Inv env w -> Inv env (run_task env tid w).
Proof.
  intros HI. destruct (tasks w !! tid) as [[p|c|o]|] eqn:Htask.
  - by eapply run_scheduler_Inv.
  - unfold run_task. rewrite Htask.
    pose proof (fetch_shrinks env c w) as Hshr. unfold exec in Hshr.
    destruct (fetch env c w) as [r w1]. cbn in Hshr.
    destruct (finished r); [|by eapply Inv_shrinks].
    eapply Inv_shrinks; [exact HI|]. etrans; [exact Hshr|].
    apply with_tasks_shrinks_done.
  - unfold run_task. by rewrite Htask.
  - unfold run_task. by rewrite Htask.
Qed.

Lemma step_Inv (env : Env) (a : Action) (w : World) :
  Inv env w -> Inv env (step env a w).
Proof.
  intros HI. destruct a; cbn [step].
  - by apply configure_Inv.
  - eapply Inv_shrinks; [exact HI | apply get_shrinks].
  - eapply Inv_shrinks; [exact HI | apply shutdown_shrinks].
  - eapply Inv_shrinks; [exact HI | apply cancel_caller_shrinks].
  - by apply run_task_Inv.
  - destruct (installed sig (hooks w)); [|done].
    eapply Inv_shrinks; [exact HI | apply shutdown_shrinks].
Qed.

Lemma run_Inv (env : Env) (acts : list Action) (w : World) :
  Inv env w -> Inv env (run env acts w).
Proof.
  revert w. induction acts as [|a acts IH]; intros w HI; [done|].
  cbn. by apply IH, step_Inv.
Qed.

(** The invariant holds in every world the handler can reach. *)
Lemma reachable_Inv (env : Env) (acts : list Action) :
  Inv env (run env acts new_world).
Proof. apply run_Inv, new_world_Inv. Qed.

(** ** The shutdown guard *)

#[global] Instance guard_kept_refl : Reflexive guard_kept.
Proof. by intros w. Qed.

#[global] Instance guard_kept_trans : Transitive guard_kept.
Proof. unfold guard_kept. intros w1 w2 w3 ? ?. congruence. Qed.

Ltac guard_kept_auto :=
  unfold set_queue, set_session, set_batch_size, set_scheduler_loop,
    ClientSession, session_closed, session_close, create_task, task_cancel,
    await_task, create_future, set_result, set_exception, await_future,
    cancel_caller, draw, randint, choice, log, emit;
  repeat first
    [ apply keeps_modify; intros ?; reflexivity
    | keeps_step ].

Lemma get_guard_kept env url raw : keeps guard_kept (get env url raw).
Proof. unfold get. guard_kept_auto. Qed.

Lemma fetch_guard_kept env c : keeps guard_kept (fetch env c).
Proof. unfold fetch, async_with_get, awaited. guard_kept_auto. Qed.

Lemma cancel_caller_guard_kept fid : keeps guard_kept (cancel_caller fid).
Proof. guard_kept_auto. Qed.

Lemma retire_previous_guard_kept : keeps guard_kept retire_previous.
Proof. unfold retire_previous. guard_kept_auto. Qed.

Lemma fresh_resources_guard_kept env : keeps guard_kept (fresh_resources env).
Proof. unfold fresh_resources. guard_kept_auto. Qed.

Lemma register_guard_kept env : keeps guard_kept (_register_shutdown_hooks env).
Proof.
  intros w. destruct (register_frame env w) as (Hself&_).
  unfold guard_kept. by rewrite Hself.
Qed.

Lemma resume_from_guard_kept env p : keeps guard_kept (resume_from env p).
Proof. unfold resume_from, after_collecting, begin_cycle. guard_kept_auto. Qed.

Lemma Guarded_shrinks (w w' : World) :
  Guarded w -> shrinks w w' -> guard_kept w w' -> Guarded w'.
Proof.
  intros HG (_&_&_&_&_&_&Htasks&_) Hguard Hset tid p Htp.
  rewrite Hguard in Hset. by eapply HG, Htasks.
Qed.

(** The call of [shutdown] that finds the guard unset cancels the
    handler's scheduler task. *)
Lemma shutdown_cancels (w : World) (tid : nat) :
  default false (_shutdown_started (self w)) = false ->
  _scheduler_task (self w) = Some tid ->
  tasks (exec shutdown w) = cancel_task tid (tasks w).
Proof.
  intros Hguard Htid. unfold shutdown. munfold. rewrite Hguard. munfold.
  rewrite Htid. munfold. mcases.
Qed.

Lemma shutdown_Guarded (env : Env) (w : World) :
  Inv env w -> Guarded w -> Guarded (exec shutdown w).
Proof.
  intros HI HG. destruct (default false (_shutdown_started (self w))) eqn:Hguard.
  - unfold exec. by rewrite shutdown_when_started.
  - intros _ tid p Htp.
    destruct (shutdown_shrinks w) as (_&_&_&_&_&_&Htasks&_).
    pose proof (Htasks _ _ Htp) as Hold.
    apply (inv_scheduler env w HI) in Hold as (Htid&_).
    rewrite (shutdown_cancels w tid Hguard Htid) in Htp.
    by apply cancel_task_self in Htp.
Qed.

(** A re-initialisation that does not come to its end leaves the guard as
    it was and brings no scheduler task to life. *)
Lemma reinitialise_failed (env : Env) (l : nat) (w : World) :
  result (reinitialise env l) w <> Ok tt ->
  let w' := exec (reinitialise env l) w in
  guard_kept w w'
  /\ forall t p, tasks w' !! t = Some (SchedulerTask p) ->
                 tasks w !! t = Some (SchedulerTask p).
Proof.
  intros Hres.
  pose proof (reinitialise_run env l w) as Hrun. cbn zeta in Hrun.
  set (retire := if _scheduler_task (self w) is Some _ then retire_previous
                 else ret tt) in *.
  assert (HwA : shrinks w (exec retire w) /\ guard_kept w (exec retire w)).
  { unfold retire. destruct (_scheduler_task (self w)).
    - split; [apply retire_previous_shrinks | apply retire_previous_guard_kept].
    - split; reflexivity. }
  destruct HwA as [(_&_&_&_&_&_&HAtasks&_) HgA].
  destruct (result retire w) as [[]|e|].
  - set (wB := exec (fresh_resources env) (exec retire w)) in *.
    destruct (fresh_resources_effect env (exec retire w))
      as (_&_&HBtasks&_&_&_&_&_&HBstarted&_).
    fold wB in HBtasks, HBstarted.
    destruct (register_frame env wB) as (HCself&_&HCtasks&_).
    assert (Hex : exec (reinitialise env l) w
                  = exec (_register_shutdown_hooks env) wB).
    { destruct (result (_register_shutdown_hooks env) wB) as [[]|e|];
        [|unfold exec at 1; by rewrite Hrun..].
      exfalso. apply Hres. unfold result at 1. by rewrite Hrun. }
    cbn zeta. rewrite Hex. split.
    + unfold guard_kept. by rewrite HCself, HBstarted.
    + intros t p. rewrite HCtasks, HBtasks. apply HAtasks.
  - assert (Hex : exec (reinitialise env l) w = exec retire w)
      by (unfold exec at 1; by rewrite Hrun).
    cbn zeta. by rewrite Hex.
  - assert (Hex : exec (reinitialise env l) w = exec retire w)
      by (unfold exec at 1; by rewrite Hrun).
    cbn zeta. by rewrite Hex.
Qed.

Lemma reinitialise_Guarded (env : Env) (l : nat) (w : World) :
  Guarded w -> Guarded (exec (reinitialise env l) w).
Proof.
  intros HG.
  assert (result (reinitialise env l) w = Ok tt
          \/ result (reinitialise env l) w <> Ok tt) as [Hres|Hres]
    by (destruct (result (reinitialise env l) w) as [[]|e|]; auto).
  - destruct (reinitialise_flags env l w Hres) as (_&_&_&Hstarted).
    intros Hset. by rewrite Hstarted in Hset.
  - destruct (reinitialise_failed env l w Hres) as [Hg Htasks].
    intros Hset tid p Htp. rewrite Hg in Hset. by eapply HG, Htasks.
Qed.

Lemma configure_Guarded (env : Env) (l : nat) (w : World) :
  Inv env w -> Guarded w -> Guarded (exec (configure env l) w).
Proof.
  intros HI HG.
  assert (HG0 : Guarded (configure_entry w)) by done.
  destruct (stale l w) eqn:Hstale.
  - unfold exec. rewrite configure_stale; [|done|].
    + by apply reinitialise_Guarded.
    + intros Hc. by apply (inv_configured env w HI) in Hc as (_&?&_).
  - unfold exec. by rewrite configure_current.
Qed.

Lemma run_task_Guarded (env : Env) (tid : nat) (w : World) :
  Guarded w -> Guarded (run_task env tid w).
Proof.
  intros HG. unfold run_task.
  destruct (tasks w !! tid) as [[p|c|o]|] eqn:Htask; try done.
  - assert (Hunset : default false (_shutdown_started (self w)) <> true).
    { intros Hset. by eapply HG. }
    pose proof (resume_from_guard_kept env p w) as Hg. unfold exec in Hg.
    destruct (resume_from env p w) as [[p'|e|] w1]; cbn [snd] in Hg;
      intros Hset; wsimpl; by rewrite Hg in Hset.
  - pose proof (fetch_shrinks env c w) as Hs.
    pose proof (fetch_guard_kept env c w) as Hg. unfold exec in Hs, Hg.
    destruct (fetch env c w) as [r w1]. cbn [snd] in Hs, Hg.
    pose proof (Guarded_shrinks w w1 HG Hs Hg) as HG1.
    destruct (finished r); [|done].
    eapply Guarded_shrinks; [exact HG1 | apply with_tasks_shrinks_done | done].
Qed.

(** In every world the handler can reach the invariant holds, and a set
    shutdown guard means that no scheduler task is live. *)
Lemma reachable (env : Env) (acts : list Action) :
  Inv env (run env acts new_world) /\ Guarded (run env acts new_world).
Proof.
  split; [apply reachable_Inv|].
  induction acts as [|a acts IH] using rev_ind; [done|].
  rewrite run_app. cbn. pose proof (reachable_Inv env acts) as HI.
  destruct a; cbn [step].
  - by eapply configure_Guarded.
  - eapply Guarded_shrinks; [exact IH | apply get_shrinks | apply get_guard_kept].
  - by eapply shutdown_Guarded.
  - eapply Guarded_shrinks;
      [exact IH | apply cancel_caller_shrinks | apply cancel_caller_guard_kept].
  - by apply run_task_Guarded.
  - destruct (installed sig (hooks _)); [by eapply shutdown_Guarded | done].
Qed.

(** ** [configure] twice *)

Lemma configure_stale_run (env : Env) (l : nat) (w : World) :
  stale l w = true ->
  (_is_configured (self w) = true -> is_Some (_scheduler_loop (self w))) ->
  result (configure env l) w = result (reinitialise env l) (configure_entry w)
  /\ exec (configure env l) w = exec (reinitialise env l) (configure_entry w).
Proof. intros Hs Hl. unfold result, exec. by rewrite configure_stale. Qed.

(** After a [configure] that returned normally the handler is configured
    under the caller's loop. *)
Lemma configure_ok_current (env : Env) (l : nat) (w : World) :
  result (configure env l) w = Ok tt ->
  stale l (exec (configure env l) w) = false.
Proof.
  destruct (stale l w) eqn:Hstale.
  - destruct (_is_configured (self w)) eqn:Hc;
      [destruct (_scheduler_loop (self w)) as [l0|] eqn:Hl|].
    2:{ destruct (configure_loopless env l w Hc Hl) as [e He].
        unfold result. by rewrite He. }
    all: destruct (configure_stale_run env l w Hstale) as [-> ->];
      [rewrite ?Hl, ?Hc; first [done | eauto]|];
      intros Hok; destruct (reinitialise_flags env l _ Hok) as (_&Hc'&Hl'&_);
      unfold stale; rewrite Hc', Hl'; cbn;
      by rewrite bool_decide_eq_true_2.
  - unfold result, exec. by rewrite configure_current.
Qed.

Lemma configure_ok_hooks (env : Env) (l : nat) (w : World) :
  Inv env w -> result (configure env l) w = Ok tt -> hooks_ok env.
Proof.
  intros HI. destruct (stale l w) eqn:Hstale.
  - unfold result. rewrite configure_stale; [|done|].
    + intros Hok. by destruct (reinitialise_flags env l _ Hok) as (?&_).
    + intros Hc. by apply (inv_configured env w HI) in Hc as (_&?&_).
  - intros _. unfold stale in Hstale. apply orb_false_elim in Hstale as [Hc _].
    apply negb_false_iff in Hc. by apply (inv_configured env w HI) in Hc as (?&_).
Qed.




(** ** [get] after [shutdown] *)

(** What [get] does on a configured handler: it draws a user agent, creates
    a pending future, queues the coroutine and waits. *)
Lemma get_configured (env : Env) (url : string) (raw : bool) (w : World)
    (q : list Coroutine) :
  _is_configured (self w) = true -> queue (self w) = Some q ->
  let c := {| c_url := url; c_raw := raw;
              c_agent := nth (entropy env (rng_pos w) `mod` length USER_AGENTS)%nat
                           USER_AGENTS "";
              c_future := fresh (dom (futures w)) |} in
  let w' := exec (get env url raw) w in
  result (get env url raw) w = Suspended
  /\ queue (self w') = Some (q ++ [c])%list
  /\ futures w' = <[c_future c := FutPending]> (futures w)
  /\ tasks w' = tasks w /\ sessions w' = sessions w
  /\ trace w' = Logged DEBUG "GET request queued: {url}" :: PutNowait c :: trace w.
Proof.
  intros Hc Hq. unfold get. munfold. rewrite Hc. cbn [negb]. munfold.
  rewrite Hq. munfold. rewrite lookup_insert_eq. by munfold.
Qed.

(** C10. [shutdown] never changes the configured flag.  In any world the
    handler can reach with the flag set, after [shutdown] the flag is still
    set and no scheduler task is live; a [get] then does not raise: it
    creates a pending future, appends its coroutine to the queue and leaves
    the caller waiting. *)
Theorem get_after_shutdown (env : Env) (acts : list Action)
    (url : string) (raw : bool) :
  let w := run env acts new_world in
  _is_configured (self w) = true ->
  let w1 := exec shutdown w in
  let w2 := exec (get env url raw) w1 in
  (forall w0, _is_configured (self (exec shutdown w0)) = _is_configured (self w0))
  /\ _is_configured (self w1) = true
  /\ (forall tid p, tasks w1 !! tid <> Some (SchedulerTask p))
  /\ result (get env url raw) w1 = Suspended
  /\ exists q c,
       queue (self w1) = Some q /\ queue (self w2) = Some (q ++ [c])%list
       /\ c_url c = url /\ c_raw c = raw
       /\ futures w2 !! c_future c = Some FutPending.
Proof.
  intros w Hc w1 w2.
  assert (Hflag : forall w0,
             _is_configured (self (exec shutdown w0)) = _is_configured (self w0))
    by (intros w0; by destruct (shutdown_shrinks w0) as (?&_)).
  destruct (reachable env acts) as [HI HG]. fold w in HI, HG.
  assert (HI1 : Inv env w1)
    by (eapply Inv_shrinks; [exact HI | apply shutdown_shrinks]).
  assert (Hc1 : _is_configured (self w1) = true) by (unfold w1; by rewrite Hflag).
  destruct (inv_configured env w1 HI1 Hc1) as (_&_&_&[q Hq]&_).
  destruct (get_configured env url raw w1 q Hc1 Hq) as (Hres&Hq2&Hfut&_).
  split; [done|]. split; [done|]. split; [|split; [done|]].
  - apply (shutdown_Guarded env w HI HG), shutdown_starts.
  - eexists q, _. split; [done|]. split; [exact Hq2|].
    split; [done|]. split; [done|].
    fold w2 in Hfut. rewrite Hfut. apply lookup_insert_eq.
Qed.

Lemma get_after_shutdown_witness :
  result (get demo_env "http://example.org/" false)
    (exec shutdown (run demo_env [CallConfigure 0] new_world))
  = Suspended.
Proof.
  refine (proj1 (proj2 (proj2 (proj2
            (get_after_shutdown demo_env [CallConfigure 0] "http://example.org/"
               false _))))).
  vm_compute. reflexivity.
Defined.

(** ** The scheduler's cycle *)

Lemma with_tasks_id (w : World) (ts : gmap nat Task) :
  ts = tasks w -> with_tasks (fun _ => ts) w = w.
Proof. intros ->. by destruct w. Qed.





(** ** A batch and its failures *)

Lemma gathered_all_returned (ts : gmap nat Task) (batch : list nat) :
  (forall t, t ∈ batch -> ts !! t = Some (Done Returned)) ->
  gathered ts batch = Some Returned.
Proof.
  induction batch as [|t batch IH]; intros Hall; [done|].
  cbn. rewrite (Hall t) by apply list_elem_of_here.
  apply IH. intros t' Ht'. apply Hall. by apply list_elem_of_further.
Qed.

Lemma fetched_same_handler (env : Env) (c : Coroutine) (w w' : World) :
  self w' = self w -> fetched env c w' = fetched env c w.
Proof. unfold fetched. by intros ->. Qed.

(** The tasks of pending requests, run one after the other in any order:
    each request's future receives the outcome of that request, each task
    returns, and nothing else changes in the tasks, the futures and the
    handler. *)
Lemma run_fetches (env : Env) (order : list nat) (w : World) :
  NoDup order ->
  (forall t, t ∈ order ->
     exists c, tasks w !! t = Some (FetchTask c)
               /\ futures w !! c_future c = Some FutPending) ->
  (forall t t' c c', t ∈ order -> t' ∈ order ->
     tasks w !! t = Some (FetchTask c) -> tasks w !! t' = Some (FetchTask c') ->
     c_future c = c_future c' -> t = t') ->
  let w1 := run env (RunTask <$> order) w in
  (forall t c, t ∈ order -> tasks w !! t = Some (FetchTask c) ->
     futures w1 !! c_future c = Some (fetched env c w)
     /\ tasks w1 !! t = Some (Done Returned))
  /\ (forall t, t ∉ order -> tasks w1 !! t = tasks w !! t)
  /\ (forall fid,
        (forall t c, t ∈ order -> tasks w !! t = Some (FetchTask c) ->
                     c_future c <> fid) ->
        futures w1 !! fid = futures w !! fid)
  /\ self w1 = self w /\ rng_pos w1 = rng_pos w.
Proof.
  revert w. induction order as [|t rest IH]; intros w Hnodup Hpending Hdistinct.
  { cbn. split; [|done]. intros t c Ht. by apply elem_of_nil in Ht. }
  apply NoDup_cons in Hnodup as [Hfresh Hnodup].
  destruct (Hpending t) as (c&Htask&Hfut); [apply list_elem_of_here|].
  destruct (run_fetch_pending env t c w Htask Hfut) as (Hfut'&Htasks'&Hself'&_&Hrng'&_).
  set (w' := run_task env t w) in *.
  assert (Hrest : forall t', t' ∈ rest -> tasks w' !! t' = tasks w !! t').
  { intros t' Ht'. rewrite Htasks'. apply lookup_insert_ne. by intros ->. }
  assert (Hother : forall t' c', t' ∈ rest -> tasks w !! t' = Some (FetchTask c') ->
                                 c_future c' <> c_future c).
  { intros t' c' Ht' Htask' Heq.
    assert (t' = t) as ->; [|done].
    eapply Hdistinct; eauto using list_elem_of_here, list_elem_of_further. }
  destruct (IH w') as (IHa&IHb&IHc&IHself&IHrng); [done| | |].
  { intros t' Ht'. destruct (Hpending t') as (c'&Htask1&Hfut1);
      [by apply list_elem_of_further|].
    exists c'. rewrite Hrest by done. split; [done|].
    rewrite Hfut', lookup_insert_ne; [done|]. intros Heq. by eapply Hother. }
  { intros t1 t2 c1 c2 Ht1 Ht2. rewrite !Hrest by done.
    apply Hdistinct; by apply list_elem_of_further. }
  change (run env (RunTask <$> t :: rest) w) with (run env (RunTask <$> rest) w').
  set (w1 := run env (RunTask <$> rest) w') in *.
  split; [|split; [|split; [|split]]].
  - intros t0 c0 [->|Ht0]%elem_of_cons Htask0.
    + rewrite Htask in Htask0. injection Htask0 as <-. split.
      * rewrite IHc.
        -- rewrite Hfut'. apply lookup_insert_eq.
        -- intros t' c' Ht'. rewrite Hrest by done. by apply Hother.
      * rewrite IHb by done. rewrite Htasks'. apply lookup_insert_eq.
    + rewrite <- (fetched_same_handler env c0 w w') by done.
      apply IHa; [done|]. by rewrite Hrest.
  - intros t0 [Hne Ht0]%not_elem_of_cons.
    rewrite IHb by done. rewrite Htasks'. by apply lookup_insert_ne.
  - intros fid Hfid. rewrite IHc.
    + rewrite Hfut'. apply lookup_insert_ne. eapply Hfid; [apply list_elem_of_here|done].
    + intros t' c' Ht'. rewrite Hrest by done.
      apply Hfid. by apply list_elem_of_further.
  - congruence.
  - congruence.
Qed.

Lemma await_settled (w : World) (fid : nat) (o : TransportError + Body) :
  futures w !! fid = Some (settled o) ->
  await_future fid w = (delivered o, w).
Proof. intros Hf. unfold await_future. munfold. rewrite Hf. by destruct o. Qed.



(** ** Where the fallback works *)

Lemma register_hook_installs (env : Env) (sig : Signal) (w : World) :
  degrades_gracefully (platform env) ->
  let w' := exec (register_hook env sig) w in
  result (register_hook env sig) w = Ok tt
  /\ hooks w' = (sig, hook_for (platform env) sig) :: hooks w.
Proof.
  intros Hhost. destruct (Hhost sig) as [_ [Hadd|[Hadd Hsig]]];
    unfold register_hook, add_signal_handler, signal_signal, hook_for;
    munfold; rewrite Hadd; munfold; rewrite ?Hsig; by munfold.
Qed.

Lemma installed_here (sig : Signal) (h : Hook) (hs : list (Signal * Hook)) :
  installed sig ((sig, h) :: hs) = Some h.
Proof. by destruct sig. Qed.

(** On a host that defines the three signals, registration succeeds, and
    every signal the loop cannot handle gets the synchronous fallback. *)
Lemma register_hooks_fallback (env : Env) (w : World) :
  degrades_gracefully (platform env) ->
  result (_register_shutdown_hooks env) w = Ok tt
  /\ forall sig,
       installed sig (hooks (exec (_register_shutdown_hooks env) w))
       = Some (hook_for (platform env) sig).
Proof.
  intros Hhost.
  assert (Heq : _register_shutdown_hooks env w
                = (register_hook env SIGINT ≫= fun _ =>
                   register_hook env SIGTERM ≫= fun _ =>
                   register_hook env SIGBREAK ≫= fun _ => ret tt) w).
  { unfold _register_shutdown_hooks, signal_attr.
    destruct (Hhost SIGINT) as [-> _], (Hhost SIGTERM) as [-> _],
      (Hhost SIGBREAK) as [-> _]. reflexivity. }
  set (w1 := exec (register_hook env SIGINT) w).
  set (w2 := exec (register_hook env SIGTERM) w1).
  set (w3 := exec (register_hook env SIGBREAK) w2).
  destruct (register_hook_installs env SIGINT w Hhost) as [Hr1 H1].
  destruct (register_hook_installs env SIGTERM w1 Hhost) as [Hr2 H2].
  destruct (register_hook_installs env SIGBREAK w2 Hhost) as [Hr3 H3].
  fold w1 in H1. fold w2 in H2. fold w3 in H3.
  assert (Hrun : _register_shutdown_hooks env w = (Ok tt, w3)).
  { rewrite Heq, bind_run, Hr1. fold w1. rewrite bind_run, Hr2. fold w2.
    by rewrite bind_run, Hr3. }
  unfold result, exec. rewrite Hrun. cbn [fst snd]. split; [done|].
  intros sig. rewrite H3, H2, H1. by destruct sig.
Qed.

Example windows_degrades_gracefully : degrades_gracefully windows_host.
Proof. intros sig. split; [done|]. right. done. Qed.

(** ** A caller that gave up *)

(** Run on a future that is no longer pending, [fetch] fails: both
    [set_result] and, in the handler of the first failure, [set_exception]
    raise [InvalidStateError].  The future stays as it is. *)
Lemma fetch_on_done_future (env : Env) (c : Coroutine) (w : World) (f : Future) :
  futures w !! c_future c = Some f -> f <> FutPending ->
  result (fetch env c) w = Raise InvalidStateError
  /\ futures (exec (fetch env c) w) = futures w.
Proof.
  intros Hf Hdone. unfold fetch, async_with_get, awaited. munfold.
  destruct (session (self w)); munfold; rewrite ?Hf;
    [|by destruct f].
  destruct (net env c) as [e|status read text]; munfold; rewrite ?Hf;
    [by destruct f|].
  destruct (c_raw c), read, text; munfold; rewrite ?Hf;
    destruct f; try done; munfold; rewrite ?Hf; by munfold.
Qed.

(** A caller is cancelled while its request is queued; the request is then
    executed in a batch.  Its task fails, [gather] passes the failure on,
    and the scheduler task ends with it; [shutdown] then re-raises it
    before it comes to close the session. *)
Example cancelled_caller_stops_scheduler :
  let w := run demo_env
             [CallConfigure 0; CallGet "http://example.org/" false;
              CancelCaller 0; RunTask 0; RunTask 0; RunTask 0; RunTask 1;
              RunTask 0]
             new_world in
  tasks w !! 0%nat = Some (Done (Raised InvalidStateError))
  /\ result shutdown w = Raise InvalidStateError
  /\ sessions (exec shutdown w) !! 0%nat = Some false.
Proof. vm_compute. done. Qed.

Lemma cancel_one_lookup (tid t : nat) (ts : gmap nat Task) (x : Task) :
  ts !! t = Some x ->
  cancel_one tid ts !! t = Some x \/ cancel_one tid ts !! t = Some (Done WasCancelled).
Proof.
  intros Hx. unfold cancel_one.
  destruct (ts !! tid) as [y|]; [|by left]. destruct (is_live y); [|by left].
  destruct (decide (tid = t)) as [->|Hne].
  - right. apply lookup_insert_eq.
  - left. by rewrite lookup_insert_ne.
Qed.

Lemma cancel_batch_lookup (batch : list nat) (t : nat) (ts : gmap nat Task) (x : Task) :
  ts !! t = Some x ->
  foldr cancel_one ts batch !! t = Some x
  \/ foldr cancel_one ts batch !! t = Some (Done WasCancelled).
Proof.
  intros Hx. induction batch as [|b batch IH]; cbn; [by left|].
  destruct IH as [IH|IH]; destruct (cancel_one_lookup b t _ _ IH); auto.
Qed.

(** After [task.cancel()] a task that was live is cancelled, and a task
    that was done is as it was. *)
Lemma cancel_task_lookup (tid : nat) (ts : gmap nat Task) (x : Task) :
  ts !! tid = Some x ->
  cancel_task tid ts !! tid = Some (if is_live x then Done WasCancelled else x).
Proof.
  intros Hx.
  assert (Hone : forall ts', ts' !! tid = Some x \/ ts' !! tid = Some (Done WasCancelled) ->
            is_live x = true ->
            cancel_one tid ts' !! tid = Some (Done WasCancelled)).
  { intros ts' [H|H] Hlive; unfold cancel_one; rewrite H, ?Hlive; cbn;
      [apply lookup_insert_eq | done]. }
  unfold cancel_task. rewrite Hx.
  destruct x as [[| | batch |]|c|o]; try (apply Hone; [by left|done]).
  - apply Hone; [|done]. by apply cancel_batch_lookup.
  - unfold cancel_one. by rewrite Hx.
Qed.



(** * Further properties of the code *)

(** ** Failures that stay *)

(** When the scheduler task has ended with an exception of its own,
    [shutdown] re-raises it from [await self._scheduler_task] (only
    [CancelledError] is caught there) before it reaches the session: the
    session stays open, and as the guard is set by then, no later call of
    [shutdown] closes it either. *)
Theorem shutdown_after_scheduler_failure
    (w : World) (tid sid : nat) (e : PyExc) (n : nat) :
  default false (_shutdown_started (self w)) = false ->
  _scheduler_task (self w) = Some tid ->
  tasks w !! tid = Some (Done (Raised e)) ->
  is_CancelledError e = false ->
  session (self w) = Some sid ->
  sessions w !! sid = Some false ->
  result shutdown w = Raise e
  /\ sessions (shutdown_times (S n) w) !! sid = Some false
  /\ close_calls (trace (shutdown_times (S n) w)) = close_calls (trace w).
Proof.
  intros Hguard Htid Htask He Hsid Hopen.
  rewrite shutdown_times_S.
  unfold shutdown. munfold. rewrite Hguard. munfold. rewrite Htid. munfold.
  rewrite (cancel_task_lookup tid (tasks w) _ Htask). cbn [is_live]. munfold.
  rewrite He. munfold. by repeat split.
Qed.

Lemma shutdown_after_scheduler_failure_witness :
  result shutdown (run demo_env demo_cancelled_caller new_world)
  = Raise InvalidStateError.
Proof.
  refine (proj1 (shutdown_after_scheduler_failure
                   (run demo_env demo_cancelled_caller new_world)
                   0 0 InvalidStateError 0 _ _ _ _ _ _));
    vm_compute; reflexivity.
Defined.



(** One call of [configure] on a handler that is not configured and has no
    scheduler task, on a host without [SIGBREAK]: the call opens a session
    and fails before it creates the task. *)
Lemma configure_without_SIGBREAK_step (env : Env) (l : nat) (w : World) :
  signal_defined (platform env) SIGINT = true ->
  signal_defined (platform env) SIGTERM = true ->
  signal_defined (platform env) SIGBREAK = false ->
  _is_configured (self w) = false ->
  _scheduler_task (self w) = None ->
  let w' := exec (configure env l) w in
  _is_configured (self w') = false
  /\ _scheduler_task (self w') = None
  /\ sessions w' = <[fresh (dom (sessions w)) := false]> (sessions w)
  /\ close_calls (trace w') = close_calls (trace w).
Proof.
  intros Hint Hterm Hbreak Hc Ht.
  destruct (configure_stale_run env l w) as [_ ->];
    [unfold stale; by rewrite Hc | by rewrite Hc |].
  unfold reinitialise, fresh_resources, _register_shutdown_hooks, signal_attr,
    configure_entry.
  munfold. rewrite Ht, Hint, Hterm, Hbreak. munfold. by rewrite Hc, Ht.
Qed.

(** On a host whose [signal] module lacks [SIGBREAK], every call of
    [configure] on a fresh handler opens a new client session and fails
    before it records a scheduler task; the next call finds no task to
    retire and so does not close the session of the previous one.  After
    [n] calls the handler is still not configured, [n] sessions exist, all
    of them open, and [close()] was never called. *)
Theorem failed_configure_leaks_sessions (env : Env) (l n : nat) :
  signal_defined (platform env) SIGINT = true ->
  signal_defined (platform env) SIGTERM = true ->
  signal_defined (platform env) SIGBREAK = false ->
  let w := configure_times env l n new_world in
  _is_configured (self w) = false
  /\ size (sessions w) = n
  /\ (forall sid closed, sessions w !! sid = Some closed -> closed = false)
  /\ close_calls (trace w) = 0%nat.
Proof.
  intros Hint Hterm Hbreak. cbn zeta.
  assert (H : _is_configured (self (configure_times env l n new_world)) = false
              /\ _scheduler_task (self (configure_times env l n new_world)) = None
              /\ size (sessions (configure_times env l n new_world)) = n
              /\ (forall sid closed,
                    sessions (configure_times env l n new_world) !! sid = Some closed ->
                    closed = false)
              /\ close_calls (trace (configure_times env l n new_world)) = 0%nat).
  { induction n as [|n (Hc&Ht&Hsize&Hopen&Hclose)]; [done|].
    change (configure_times env l (S n) new_world)
      with (exec (configure env l) (configure_times env l n new_world)).
    destruct (configure_without_SIGBREAK_step env l _ Hint Hterm Hbreak Hc Ht)
      as (Hc'&Ht'&Hs'&Hclose').
    split; [done|]. split; [done|]. rewrite Hs', Hclose'.
    split; [|split; [|done]].
    - rewrite map_size_insert_None; [by rewrite Hsize|].
      apply fresh_session_unused.
    - intros sid closed [[_ <-]|[_ ?]]%lookup_insert_Some; eauto. }
  destruct H as (?&_&?&?&?). done.
Qed.

Lemma failed_configure_leaks_sessions_witness :
  size (sessions (configure_times posix_env 0 3 new_world)) = 3%nat.
Proof.
  refine (proj1 (proj2 (failed_configure_leaks_sessions posix_env 0 3 _ _ _)));
    reflexivity.
Defined.

(** ** [shutdown] before [configure] *)

(** [shutdown] on a handler that was never configured finds neither a
    scheduler task nor a session: it returns normally, sets the guard,
    writes one log line, and calls neither [cancel()] nor [close()].  The
    handler is still not configured, so a [configure] that then returns
    normally has re-initialised and cleared the guard. *)
Theorem shutdown_before_configure (env : Env) (l : nat) (w : World) :
  _is_configured (self w) = false ->
  _scheduler_task (self w) = None ->
  session (self w) = None ->
  _shutdown_started (self w) = None ->
  let w1 := exec shutdown w in
  result shutdown w = Ok tt
  /\ _shutdown_started (self w1) = Some true
  /\ _is_configured (self w1) = false
  /\ trace w1 = Logged INFO "Initiating shutdown..." :: trace w
  /\ tasks w1 = tasks w /\ sessions w1 = sessions w
  /\ (result (configure env l) w1 = Ok tt ->
      _is_configured (self (exec (configure env l) w1)) = true
      /\ _shutdown_started (self (exec (configure env l) w1)) = Some false).
Proof.
  intros Hc Ht Hs Hg w1.
  assert (H : result shutdown w = Ok tt
              /\ _shutdown_started (self (exec shutdown w)) = Some true
              /\ _is_configured (self (exec shutdown w)) = false
              /\ trace (exec shutdown w)
                  = Logged INFO "Initiating shutdown..." :: trace w
              /\ tasks (exec shutdown w) = tasks w
              /\ sessions (exec shutdown w) = sessions w).
  { unfold shutdown. munfold. rewrite Hg. cbn [default from_option]. munfold.
    rewrite Ht. munfold. rewrite Hs. by munfold. }
  destruct H as (H1&H2&Hc1&H4&H5&H6). fold w1 in H2, Hc1, H4, H5, H6.
  do 6 (split; [done|]).
  destruct (configure_stale_run env l w1) as [-> ->];
    [unfold stale; by rewrite Hc1 | by rewrite Hc1 |].
  intros Hok. by destruct (reinitialise_flags env l _ Hok) as (_&?&_&?).
Qed.

Lemma shutdown_before_configure_witness :
  result shutdown new_world = Ok tt.
Proof.
  refine (proj1 (shutdown_before_configure demo_env 0 new_world _ _ _ _));
    reflexivity.
Defined.

(** ** One scheduler, one session *)



(** ** A request whose caller gave up *)

Lemma gathered_failed (ts : gmap nat Task) (batch : list nat) (t : nat) (e : PyExc) :
  t ∈ batch -> ts !! t = Some (Done (Raised e)) ->
  exists o, gathered ts batch = Some o /\ o <> Returned.
Proof.
  intros Hin Ht. induction batch as [|t0 batch IH]; [by apply elem_of_nil in Hin|].
  apply elem_of_cons in Hin as [<-|Hin].
  - cbn. rewrite Ht. eauto.
  - destruct (IH Hin) as (o&Ho&Hne). cbn. rewrite Ho.
    destruct (ts !! t0) as [[| |[]]|]; eauto; by destruct o; eauto.
Qed.

(** A request is in a batch that the scheduler waits for, and its future is
    no longer pending (its caller was cancelled while the request was
    queued).  When its task runs, both [set_result] and the [set_exception]
    of the [except] branch raise [InvalidStateError]: the task fails and
    the future stays as it is.  [gather] passes the failure on to
    [_scheduler], which catches nothing there: the scheduler task ends,
    without a new batch size and without a sleep. *)
Theorem cancelled_caller_ends_scheduler
    (env : Env) (w : World) (sched t : nat) (batch : list nat)
    (c : Coroutine) (f : Future) :
  tasks w !! sched = Some (SchedulerTask (Executing batch)) ->
  t ∈ batch ->
  tasks w !! t = Some (FetchTask c) ->
  futures w !! c_future c = Some f -> f <> FutPending ->
  let w1 := run_task env t w in
  let w2 := run_task env sched w1 in
  tasks w1 !! t = Some (Done (Raised InvalidStateError))
  /\ futures w2 = futures w
  /\ (exists o, tasks w2 !! sched = Some (Done o) /\ o <> Returned)
  /\ self w2 = self w
  /\ rng_pos w2 = rng_pos w.
Proof.
  intros Hsched Hin Htask Hf Hdone w1 w2.
  destruct (fetch_on_done_future env c w f Hf Hdone) as [Hres Hfut].
  pose proof (fetch_shrinks env c w) as Hshr.
  assert (Hframe : self (exec (fetch env c) w) = self w
                   /\ tasks (exec (fetch env c) w) = tasks w
                   /\ rng_pos (exec (fetch env c) w) = rng_pos w).
  { unfold fetch, async_with_get, awaited. munfold.
    destruct (session (self w)); munfold; rewrite ?Hf;
      [|by destruct f].
    destruct (net env c) as [e|status read text]; munfold; rewrite ?Hf;
      [by destruct f|].
    destruct (c_raw c), read, text; munfold; rewrite ?Hf;
      destruct f; try done; munfold; rewrite ?Hf; by munfold. }
  destruct Hframe as (Hself&Htasks&Hrng).
  assert (Hw1 : tasks w1 = <[t := Done (Raised InvalidStateError)]> (tasks w)
                /\ futures w1 = futures w /\ self w1 = self w
                /\ rng_pos w1 = rng_pos w).
  { unfold w1, run_task. rewrite Htask.
    unfold result, exec in *. destruct (fetch env c w) as [r v]. cbn in *.
    subst r. cbn. by rewrite Htasks. }
  destruct Hw1 as (Htasks1&Hfut1&Hself1&Hrng1).
  assert (Hne : sched <> t) by (intros ->; congruence).
  assert (Hsched1 : tasks w1 !! sched = Some (SchedulerTask (Executing batch)))
    by (by rewrite Htasks1, lookup_insert_ne).
  destruct (gathered_failed (tasks w1) batch t InvalidStateError Hin)
    as (o&Ho&HoR); [rewrite Htasks1; apply lookup_insert_eq|].
  split; [rewrite Htasks1; apply lookup_insert_eq|].
  unfold w2, run_task. rewrite Hsched1. unfold resume_from. munfold.
  rewrite Ho. destruct o as [|e|]; [done| |]; munfold.
  - split; [done|]. split; [|done].
    destruct (is_CancelledError e); eexists; (split; [apply lookup_insert_eq|done]).
  - split; [done|]. split; [|done]. eexists. split; [apply lookup_insert_eq|done].
Qed.

Lemma cancelled_caller_ends_scheduler_witness :
  tasks (run_task demo_env 1
           (run demo_env
              [CallConfigure 0; CallGet "http://example.org/" false;
               CancelCaller 0; RunTask 0; RunTask 0; RunTask 0]
              new_world)) !! 1%nat
  = Some (Done (Raised InvalidStateError)).
Proof.
  refine (proj1 (cancelled_caller_ends_scheduler demo_env _ 0 1 [1%nat]
                   demo_good_request FutCancelled _ _ _ _ _)).
  - vm_compute. reflexivity.
  - apply list_elem_of_here.
  - vm_compute. reflexivity.
  - vm_compute. reflexivity.
  - discriminate.
Defined.

(** ** From submission to delivery *)

(** The scheduler, resumed in its wait for the queue while an operation is
    queued: it takes the operation at the head, makes a task of it and
    appends the task to the batch. *)
Lemma resume_dequeue (env : Env) (w : World) (sched todo : nat)
    (batch : list nat) (c : Coroutine) (q : list Coroutine) :
  tasks w !! sched = Some (SchedulerTask (Collecting (S todo) batch)) ->
  queue (self w) = Some (c :: q) ->
  let t := fresh (dom (tasks w)) in
  let w' := run_task env sched w in
  tasks w'
  = <[sched := SchedulerTask
                 (if todo is O then Executing (batch ++ [t])
                  else Collecting todo (batch ++ [t]))]>
      (<[t := FetchTask c]> (tasks w))
  /\ queue (self w') = Some q
  /\ futures w' = futures w /\ sessions w' = sessions w
  /\ session (self w') = session (self w)
  /\ _is_configured (self w') = _is_configured (self w)
  /\ _batch_size (self w') = _batch_size (self w)
  /\ rng_pos w' = rng_pos w.
Proof.
  intros Hsched Hq. cbn zeta. unfold run_task. rewrite Hsched.
  unfold resume_from, after_collecting. munfold. rewrite Hq. munfold.
  destruct todo as [|todo]; munfold; [|done].
  destruct (batch ++ [fresh (dom (tasks w))])%list as [|t0 batch'] eqn:Hbatch;
    [by destruct batch|]. by munfold.
Qed.

(** A request submitted to an idle handler comes back to its caller.  In
    any world the handler can reach where it is configured, the queue is
    empty and the scheduler task waits for the queue: [get] queues the
    request and suspends; the scheduler, resumed, makes a task of it; the
    task, run, resolves the future; and the caller's [await] then returns
    the body (bytes if [raw], text otherwise) or raises the transport
    error of this request.  The user agent sent is one of [USER_AGENTS]. *)
Theorem get_round_trip (env : Env) (acts : list Action) (sched todo : nat)
    (batch : list nat) (url : string) (raw : bool) :
  let w := run env acts new_world in
  _is_configured (self w) = true ->
  queue (self w) = Some [] ->
  tasks w !! sched = Some (SchedulerTask (Collecting todo batch)) ->
  let c := {| c_url := url; c_raw := raw;
              c_agent := nth (entropy env (rng_pos w) `mod` length USER_AGENTS)%nat
                           USER_AGENTS "";
              c_future := fresh (dom (futures w)) |} in
  let t := fresh (dom (tasks w)) in
  let w1 := exec (get env url raw) w in
  let w2 := run_task env sched w1 in
  let w3 := run_task env t w2 in
  result (get env url raw) w = Suspended
  /\ c_agent c ∈ USER_AGENTS
  /\ queue (self w1) = Some [c]
  /\ tasks w2 !! t = Some (FetchTask c)
  /\ queue (self w2) = Some []
  /\ await_future (c_future c) w3
     = (delivered (reply_outcome c (net env c)), w3).
Proof.
  intros w Hc Hq Hsched c t w1 w2 w3.
  pose proof (reachable_Inv env acts) as HI. fold w in HI.
  destruct (inv_scheduler env w HI sched _ Hsched) as (_&_&[sid Hsid]&b&_&_&Hpoint).
  destruct todo as [|todo]; [cbn in Hpoint; lia|].
  destruct (get_configured env url raw w [] Hc Hq) as (Hres&Hq1&Hfut1&Htasks1&_).
  fold c w1 in Hq1, Hfut1, Htasks1. cbn [app] in Hq1.
  assert (Hsched1 : tasks w1 !! sched
                    = Some (SchedulerTask (Collecting (S todo) batch)))
    by (by rewrite Htasks1).
  destruct (resume_dequeue env w1 sched todo batch c [] Hsched1 Hq1)
    as (Htasks2&Hq2&Hfut2&_&Hsess2&_).
  fold w2 in Htasks2, Hq2, Hfut2, Hsess2. rewrite Htasks1 in Htasks2. fold t in Htasks2.
  assert (Hne : sched <> t).
  { intros ->. unfold t in Hsched. by rewrite fresh_task_unused in Hsched. }
  assert (Ht2 : tasks w2 !! t = Some (FetchTask c)).
  { rewrite Htasks2, lookup_insert_ne, lookup_insert_eq; done. }
  assert (Hsid2 : session (self w2) = Some sid).
  { rewrite Hsess2. destruct (get_shrinks env url raw w) as (_&_&_&Hs&_).
    fold w1 in Hs. by rewrite Hs. }
  assert (Hpending : futures w2 !! c_future c = Some FutPending)
    by (rewrite Hfut2, Hfut1; apply lookup_insert_eq).
  destruct (run_fetch_pending env t c w2 Ht2 Hpending) as (Hfut3&_).
  fold w3 in Hfut3.
  split; [done|]. split; [|split; [done|split; [done|split; [done|]]]].
  - apply list_elem_of_In, nth_In, Nat.mod_upper_bound. by cbn.
  - apply await_settled. rewrite Hfut3, lookup_insert_eq.
    unfold fetched. by rewrite Hsid2.
Qed.

Lemma get_round_trip_witness :
  let w := run demo_env [CallConfigure 0; RunTask 0] new_world in
  result (get demo_env "bad" true) w = Suspended.
Proof.
  refine (proj1 (get_round_trip demo_env [CallConfigure 0; RunTask 0] 0 3 []
                   "bad" true _ _ _));
    vm_compute; reflexivity.
Defined.

(** ** First in, first out *)

(** Requests submitted to a configured handler join the queue at its tail
    in the order of the calls, behind what was queued before.  Each has a
    user agent of the pool and a future of its own, new and pending; the
    futures that existed are not touched and no task is created. *)
Theorem submissions_keep_order (env : Env) (requests : list (string * bool))
    (w : World) (q : list Coroutine) :
  _is_configured (self w) = true ->
  queue (self w) = Some q ->
  let w' := run env (submit requests) w in
  exists cs,
    queue (self w') = Some (q ++ cs)%list
    /\ (fun c => (c_url c, c_raw c)) <$> cs = requests
    /\ NoDup (c_future <$> cs)
    /\ Forall (fun c => futures w !! c_future c = None
                        /\ futures w' !! c_future c = Some FutPending
                        /\ c_agent c ∈ USER_AGENTS) cs
    /\ tasks w' = tasks w
    /\ (forall fid f, futures w !! fid = Some f -> futures w' !! fid = Some f).
Proof.
  revert w q. induction requests as [|[url raw] requests IH]; intros w q Hc Hq.
  { exists []. cbn. rewrite app_nil_r. repeat split; try done; constructor. }
  destruct (get_configured env url raw w q Hc Hq) as (_&Hq1&Hfut1&Htasks1&_).
  set (c := {| c_url := url; c_raw := raw;
               c_agent := nth (entropy env (rng_pos w) `mod` length USER_AGENTS)%nat
                            USER_AGENTS "";
               c_future := fresh (dom (futures w)) |}) in *.
  set (w1 := exec (get env url raw) w) in *.
  assert (Hc1 : _is_configured (self w1) = true).
  { destruct (get_shrinks env url raw w) as (Hc1&_). fold w1 in Hc1. congruence. }
  destruct (IH w1 (q ++ [c])%list Hc1 Hq1) as (cs&Hq'&Hmap&Hnodup&Hall&Htasks&Hframe).
  change (run env (submit ((url, raw) :: requests)) w)
    with (run env (submit requests) w1).
  cbn zeta in *. set (w' := run env (submit requests) w1) in *.
  pose proof (fresh_future_unused w) as Hfresh.
  assert (Hc' : futures w' !! c_future c = Some FutPending).
  { apply Hframe. rewrite Hfut1. apply lookup_insert_eq. }
  exists (c :: cs). split; [by rewrite Hq', <- app_assoc|].
  split; [cbn; by rewrite Hmap|]. split; [|split; [|split]].
  - cbn. apply NoDup_cons. split; [|done].
    intros (c'&Heq&Hin)%list_elem_of_fmap.
    rewrite Forall_forall in Hall. destruct (Hall c' Hin) as (Hnone&_).
    rewrite <- Heq, Hfut1 in Hnone. cbn in Hnone.
    by rewrite lookup_insert_eq in Hnone.
  - constructor.
    + split; [done|]. split; [done|].
      apply list_elem_of_In, nth_In, Nat.mod_upper_bound. by cbn.
    + eapply Forall_impl; [exact Hall|]. intros c' (Hnone&Hpend&Hagent).
      split; [|done]. rewrite Hfut1 in Hnone.
      by apply lookup_insert_None in Hnone as [? _].
  - by rewrite Htasks.
  - intros fid f Hf. apply Hframe. rewrite Hfut1, lookup_insert_ne; [done|].
    intros <-. cbn in Hf. congruence.
Qed.

Lemma submissions_keep_order_witness :
  exists cs,
    queue (self (run demo_env (submit [("a", false); ("b", true)])
                   (run demo_env [CallConfigure 0] new_world)))
    = Some ([] ++ cs)%list
    /\ (fun c => (c_url c, c_raw c)) <$> cs = [("a", false); ("b", true)].
Proof.
  destruct (submissions_keep_order demo_env [("a", false); ("b", true)]
              (run demo_env [CallConfigure 0] new_world) [])
    as (cs&Hq&Hmap&_); [vm_compute; reflexivity..|].
  exists cs. split; [exact Hq | exact Hmap].
Defined.

(** The scheduler takes queued operations from the head of the queue, in
    order.  Resumed [k] times while it collects, with at least [k]
    operations queued and [k] attempts left, it has made one new task for
    each of the first [k] operations and appended them to the batch in
    that order; the rest of the queue stays queued.  With the last attempt
    used it waits for the batch, otherwise for the queue again. *)
Theorem scheduler_dequeues_in_order (env : Env) (sched k : nat) (w : World)
    (todo : nat) (batch : list nat) (q : list Coroutine) :
  tasks w !! sched = Some (SchedulerTask (Collecting todo batch)) ->
  queue (self w) = Some q ->
  (0 < todo)%nat -> (k <= todo)%nat -> (k <= length q)%nat ->
  let w' := resume_times env sched k w in
  exists ts,
    length ts = k
    /\ NoDup ts
    /\ Forall2 (fun t c => tasks w !! t = None
                           /\ tasks w' !! t = Some (FetchTask c)) ts (take k q)
    /\ tasks w' !! sched
       = Some (SchedulerTask
                 (if decide (k = todo) then Executing (batch ++ ts)
                  else Collecting (todo - k) (batch ++ ts)))
    /\ queue (self w') = Some (drop k q)
    /\ futures w' = futures w.
Proof.
  intros Hsched Hq Htodo. cbn zeta.
  assert (H : (k <= todo)%nat -> (k <= length q)%nat ->
    exists ts,
      length ts = k /\ NoDup ts
      /\ Forall2 (fun t c => tasks w !! t = None
                    /\ tasks (resume_times env sched k w) !! t = Some (FetchTask c))
           ts (take k q)
      /\ tasks (resume_times env sched k w) !! sched
         = Some (SchedulerTask
                   (if decide (k = todo) then Executing (batch ++ ts)
                    else Collecting (todo - k) (batch ++ ts)))
      /\ queue (self (resume_times env sched k w)) = Some (drop k q)
      /\ futures (resume_times env sched k w) = futures w
      /\ (forall x, is_Some (tasks w !! x) ->
                    is_Some (tasks (resume_times env sched k w) !! x)));
    [|intros Hk Hlen; destruct (H Hk Hlen) as (ts&?&?&?&?&?&?&_); eauto 10].
  induction k as [|k IH]; intros Hk Hlen.
  { exists []. cbn. rewrite app_nil_r, Nat.sub_0_r.
    case_decide; [lia|]. repeat split; try done; constructor. }
  destruct IH as (ts&Hlen_ts&Hnodup&Hts&Hpoint&Hqk&Hfut&Hdom); [lia..|].
  change (resume_times env sched (S k) w)
    with (run_task env sched (resume_times env sched k w)).
  set (wk := resume_times env sched k w) in *.
  case_decide; [lia|].
  destruct (lookup_lt_is_Some_2 q k) as [c Hc]; [lia|].
  rewrite (drop_S q c k Hc) in Hqk.
  replace (todo - k)%nat with (S (todo - S k)) in Hpoint by lia.
  destruct (resume_dequeue env wk sched _ _ c _ Hpoint Hqk)
    as (Htasks&Hq'&Hfut'&_).
  set (t := fresh (dom (tasks wk))) in *.
  set (w' := run_task env sched wk) in *.
  pose proof (fresh_task_unused wk) as Hfresh. fold t in Hfresh.
  assert (Hne : sched <> t).
  { intros Heq. rewrite <- Heq in Hfresh. congruence. }
  assert (Hkeep : forall x y, x <> sched -> tasks wk !! x = Some y ->
                              tasks w' !! x = Some y).
  { intros x y Hx Hy. rewrite Htasks.
    rewrite lookup_insert_ne by (intros Heq; by apply Hx).
    rewrite lookup_insert_ne; [done|]. intros Heq. congruence. }
  assert (Hold : forall x, x ∈ ts -> x <> t /\ x <> sched).
  { intros x Hx. apply list_elem_of_lookup in Hx as [i Hi].
    destruct (Forall2_lookup_l _ _ _ i x Hts Hi) as (c'&_&Hnone&Hsome).
    split; intros ->; congruence. }
  exists (ts ++ [t])%list.
  split; [rewrite length_app; cbn; lia|].
  split.
  { apply NoDup_app. split; [done|]. split; [|apply NoDup_singleton].
    intros x Hx Hxt. apply list_elem_of_singleton in Hxt.
    by destruct (Hold x Hx). }
  split.
  { rewrite (take_S_r q k c Hc). apply Forall2_app.
    - eapply Forall2_impl; [exact Hts|]. intros x c' (Hnone&Hsome).
      split; [done|]. apply Hkeep; [|done]. intros ->. congruence.
    - constructor; [|constructor]. split.
      + destruct (tasks w !! t) eqn:Hwt; [|done].
        destruct (Hdom t) as [y Hy]; [eauto|]. congruence.
      + rewrite Htasks, lookup_insert_ne by done.
        by rewrite lookup_insert_eq. }
  split.
  { rewrite Htasks, lookup_insert_eq. f_equal. f_equal.
    rewrite <- app_assoc.
    destruct (todo - S k)%nat eqn:Hrest; case_decide; try lia; done. }
  split; [done|]. split; [congruence|].
  intros x Hx. apply Hdom in Hx as [y Hy].
  destruct (decide (x = sched)) as [->|Hxs].
  - rewrite Htasks, lookup_insert_eq. eauto.
  - rewrite (Hkeep x y); eauto.
Qed.

Lemma scheduler_dequeues_in_order_witness :
  let w := run demo_env (CallConfigure 0 :: submit [("a", false); ("bad", true)]
                         ++ [RunTask 0])%list new_world in
  exists ts,
    length ts = 2%nat
    /\ tasks (resume_times demo_env 0 2 w) !! 0%nat
       = Some (SchedulerTask (Collecting 1 ([] ++ ts)))
    /\ queue (self (resume_times demo_env 0 2 w)) = Some [].
Proof.
  cbn zeta.
  destruct (scheduler_dequeues_in_order demo_env 0 2
              (run demo_env (CallConfigure 0 :: submit [("a", false); ("bad", true)]
                             ++ [RunTask 0])%list new_world)
              3 []
              [ {| c_url := "a"; c_raw := false;
                   c_agent := nth 1 USER_AGENTS ""; c_future := 0 |};
                {| c_url := "bad"; c_raw := true;
                   c_agent := nth 2 USER_AGENTS ""; c_future := 1 |} ])
    as (ts&Hlen&_&_&Hpoint&Hq&_);
    [vm_compute; reflexivity | vm_compute; reflexivity | lia | lia | cbn; lia |].
  exists ts. split; [exact Hlen|]. split; [exact Hpoint | exact Hq].
Defined.

(** ** Signals *)

#[global] Instance handlers_kept_refl : Reflexive handlers_kept.
Proof. by intros w. Qed.

#[global] Instance handlers_kept_trans : Transitive handlers_kept.
Proof. unfold handlers_kept. intros w1 w2 w3 [? ?] [? ?]. split; congruence. Qed.

Ltac handlers_kept_auto :=
  unfold set_queue, set_session, set_batch_size, set_scheduler_loop,
    set_scheduler_task, set_shutdown_started,
    ClientSession, session_closed, session_close, create_task, task_cancel,
    await_task, create_future, set_result, set_exception, await_future,
    cancel_caller, draw, randint, choice, log, emit;
  repeat first
    [ apply keeps_modify; intros ?; split; reflexivity
    | keeps_step ].

Lemma get_handlers_kept env url raw : keeps handlers_kept (get env url raw).
Proof. unfold get. handlers_kept_auto. Qed.

Lemma shutdown_handlers_kept : keeps handlers_kept shutdown.
Proof. unfold shutdown. handlers_kept_auto. Qed.

Lemma fetch_handlers_kept env c : keeps handlers_kept (fetch env c).
Proof. unfold fetch, async_with_get, awaited. handlers_kept_auto. Qed.

Lemma cancel_caller_handlers_kept fid : keeps handlers_kept (cancel_caller fid).
Proof. handlers_kept_auto. Qed.

Lemma retire_previous_handlers_kept : keeps handlers_kept retire_previous.
Proof. unfold retire_previous. handlers_kept_auto. Qed.

Lemma resume_from_handlers_kept env p : keeps handlers_kept (resume_from env p).
Proof. unfold resume_from, after_collecting, begin_cycle. handlers_kept_auto. Qed.

Lemma run_task_handlers_kept (env : Env) (tid : nat) (w : World) :
  handlers_kept w (run_task env tid w).
Proof.
  unfold run_task.
  destruct (tasks w !! tid) as [[p|c|o]|]; try reflexivity.
  - pose proof (resume_from_handlers_kept env p w) as H. unfold exec in H.
    by destruct (resume_from env p w) as [[p'|e|] w1].
  - pose proof (fetch_handlers_kept env c w) as H. unfold exec in H.
    destruct (fetch env c w) as [r w1]. by destruct (finished r).
Qed.

Lemma signals_handled_kept (env : Env) (w w' : World) :
  signals_handled env w -> handlers_kept w w' -> signals_handled env w'.
Proof. intros H [Hh Hc] Hcfg. rewrite Hh. apply H. congruence. Qed.

Lemma configure_signals_handled (env : Env) (l : nat) (w : World) :
  degrades_gracefully (platform env) ->
  Inv env w -> signals_handled env w ->
  signals_handled env (exec (configure env l) w).
Proof.
  intros Hhost HI Hw.
  assert (H0 : signals_handled env (configure_entry w)) by done.
  destruct (stale l w) eqn:Hstale;
    [|unfold exec; by rewrite configure_current].
  destruct (configure_stale_run env l w Hstale) as [_ ->].
  { intros Hc. by apply (inv_configured env w HI) in Hc as (_&?&_). }
  pose proof (reinitialise_run env l (configure_entry w)) as Hrun.
  cbn zeta in Hrun.
  set (w0 := configure_entry w) in *.
  set (retire := if _scheduler_task (self w0) is Some _ then retire_previous
                 else ret tt) in *.
  assert (HA : handlers_kept w0 (exec retire w0)).
  { unfold retire. destruct (_scheduler_task (self w0));
      [apply retire_previous_handlers_kept | reflexivity]. }
  destruct (result retire w0) as [[]|e|];
    [|unfold exec at 1; rewrite Hrun; by eapply signals_handled_kept..].
  set (wB := exec (fresh_resources env) (exec retire w0)) in *.
  destruct (register_hooks_fallback env wB Hhost) as [Hreg Hinst].
  rewrite Hreg in Hrun. unfold exec at 1. rewrite Hrun. cbn [snd].
  intros _ sig.
  match goal with
  | |- context [exec (start_scheduler l) ?W] =>
      destruct (start_scheduler_effect l W) as (_&_&_&_&->&_)
  end.
  apply Hinst.
Qed.

Lemma reachable_signals_handled (env : Env) (acts : list Action) :
  degrades_gracefully (platform env) ->
  signals_handled env (run env acts new_world).
Proof.
  intros Hhost. induction acts as [|a acts IH] using rev_ind; [done|].
  rewrite run_app. cbn. pose proof (reachable_Inv env acts) as HI.
  destruct a; cbn [step].
  - by apply configure_signals_handled.
  - eapply signals_handled_kept; [exact IH | apply get_handlers_kept].
  - eapply signals_handled_kept; [exact IH | apply shutdown_handlers_kept].
  - eapply signals_handled_kept; [exact IH | apply cancel_caller_handlers_kept].
  - eapply signals_handled_kept; [exact IH | apply run_task_handlers_kept].
  - destruct (installed sig (hooks _)); [|done].
    eapply signals_handled_kept; [exact IH | apply shutdown_handlers_kept].
Qed.



(** ** The singleton *)

(** While the lock is free, [__new__] returns an object, and called again
    it returns the same object and changes nothing.  If the class held an
    instance, that is the object, and the first call changed nothing
    either; if not, the object is new, has [_is_configured = False] and no
    other attribute, and the call wrote one log line. *)
Theorem new_returns_the_singleton (P : Process) :
  _lock P = false ->
  let P1 := snd (__new__ P) in
  exists o,
    __new__ P = (Ok (Some o), P1)
    /\ __new__ P1 = (Ok (Some o), P1)
    /\ match _instance P with
       | Some o0 => o = o0 /\ P1 = P
       | None =>
           instances P !! o = None
           /\ instances P1 = <[o := new_handler]> (instances P)
           /\ trace (shared P1)
              = Logged DEBUG "Creating a new instance of RequestHandler"
                  :: trace (shared P)
       end.
Proof.
  intros Hlock. destruct P as [inst lk objs w]. cbn in Hlock. subst lk.
  unfold __new__. cbn. destruct inst as [o|]; cbn.
  - exists o. done.
  - exists (fresh (dom objs)). repeat split. apply not_elem_of_dom, is_fresh.
Qed.

Lemma new_returns_the_singleton_witness :
  exists o, __new__ new_process = (Ok (Some o), snd (__new__ new_process))
            /\ __new__ (snd (__new__ new_process))
               = (Ok (Some o), snd (__new__ new_process)).
Proof.
  destruct (new_returns_the_singleton new_process) as (o&H1&H2&_); [reflexivity|].
  exists o. split; [exact H1 | exact H2].
Defined.

(** [configure] on an instance as [__new__] left it, when it returns
    normally: one new session, one new scheduler task, and the tasks,
    sessions and futures that existed are as they were. *)
Lemma configure_fresh (env : Env) (l : nat) (w : World) :
  _is_configured (self w) = false ->
  _scheduler_task (self w) = None ->
  result (configure env l) w = Ok tt ->
  let w' := exec (configure env l) w in
  let tid := fresh (dom (tasks w)) in
  let sid := fresh (dom (sessions w)) in
  tasks w' = <[tid := SchedulerTask Starting]> (tasks w)
  /\ sessions w' = <[sid := false]> (sessions w)
  /\ futures w' = futures w
  /\ _is_configured (self w') = true
  /\ _scheduler_task (self w') = Some tid
  /\ session (self w') = Some sid
  /\ _shutdown_started (self w') = Some false.
Proof.
  intros Hc Ht.
  destruct (configure_stale_run env l w) as [-> ->];
    [unfold stale; by rewrite Hc | by rewrite Hc |].
  pose proof (reinitialise_run env l (configure_entry w)) as Hrun.
  cbn zeta in Hrun.
  assert (Ht0 : _scheduler_task (self (configure_entry w)) = None) by done.
  rewrite Ht0 in Hrun. cbn [result exec ret fst snd] in Hrun.
  set (w0 := configure_entry w) in *.
  destruct (fresh_resources_effect env w0)
    as (_&HBs&HBt&HBf&_&_&_&_&_&_&HBsess&_).
  set (wB := exec (fresh_resources env) w0) in *.
  destruct (register_frame env wB) as (HCself&HCs&HCt&HCf&_).
  set (wC := exec (_register_shutdown_hooks env) wB) in *.
  intros Hok.
  assert (Hex : exec (reinitialise env l) w0 = exec (start_scheduler l) wC).
  { destruct (result (_register_shutdown_hooks env) wB) as [[]|e|];
      [unfold exec at 1; by rewrite Hrun|..];
      unfold result in Hok; by rewrite Hrun in Hok. }
  cbn zeta. rewrite Hex.
  destruct (start_scheduler_effect l wC)
    as (_&HDt&HDs&HDf&_&_&HDc&_&HDtask&HDg&_&HDsess&_).
  rewrite HDt, HDs, HDf, HDc, HDtask, HDsess, HDg, HCt, HCs, HCf, HBt, HBs, HBf.
  rewrite HCself, HBsess.
  done.
Qed.

(** [reset] forgets the instance and does nothing to it: the next
    [__new__] creates another object, not configured, on which [get] raises
    the "not configured" error, while every object, task, session, future
    and signal handler of the process is as it was; neither [cancel()] nor
    [close()] is called. *)
Theorem reset_abandons_the_instance (env : Env) (P : Process)
    (url : string) (raw : bool) :
  _lock P = false ->
  let P1 := reset P in
  let P2 := snd (__new__ P1) in
  exists o',
    __new__ P1 = (Ok (Some o'), P2)
    /\ instances P !! o' = None
    /\ instances P2 = <[o' := new_handler]> (instances P)
    /\ tasks (shared P2) = tasks (shared P)
    /\ sessions (shared P2) = sessions (shared P)
    /\ futures (shared P2) = futures (shared P)
    /\ hooks (shared P2) = hooks (shared P)
    /\ close_calls (trace (shared P2)) = close_calls (trace (shared P))
    /\ cancel_calls (trace (shared P2)) = cancel_calls (trace (shared P))
    /\ call_result o' (get env url raw) P2
       = Some (Raise (RuntimeError not_configured_message)).
Proof.
  intros Hlock. destruct P as [inst lk objs w]. cbn in Hlock. subst lk.
  cbn zeta. unfold __new__, reset. cbn.
  exists (fresh (dom objs)). repeat split.
  - apply not_elem_of_dom, is_fresh.
  - unfold call_result, call. cbn. rewrite lookup_insert_eq.
    unfold get. munfold. reflexivity.
Qed.

Lemma reset_abandons_the_instance_witness :
  exists o',
    __new__ (reset (snd (__new__ new_process)))
    = (Ok (Some o'), snd (__new__ (reset (snd (__new__ new_process)))))
    /\ instances (snd (__new__ new_process)) !! o' = None.
Proof.
  destruct (reset_abandons_the_instance demo_env (snd (__new__ new_process)) "a" false)
    as (o'&H1&H2&_); [reflexivity|].
  exists o'. split; [exact H1 | exact H2].
Defined.

Lemma new_after_reset (P : Process) :
  _lock P = false ->
  let o' := fresh (dom (instances P)) in
  __new__ (reset P)
  = (Ok (Some o'),
     {| _instance := Some o'; _lock := false;
        instances := <[o' := new_handler]> (instances P);
        shared := exec (log DEBUG "Creating a new instance of RequestHandler")
                    (exec (log INFO "Resetting RequestHandler singleton instance")
                       (shared P)) |}).
Proof. intros Hlock. unfold __new__, reset. cbn. by rewrite Hlock. Qed.

Lemma call_bound {A} (oid : nat) (m : M A) (P : Process) (h : Handler) :
  instances P !! oid = Some h ->
  let w := with_self (fun _ => h) (shared P) in
  call_result oid m P = Some (result m w)
  /\ after_call oid m P
     = {| _instance := _instance P; _lock := _lock P;
          instances := <[oid := self (exec m w)]> (instances P);
          shared := exec m w |}.
Proof.
  intros Hh. unfold call_result, after_call, call, result, exec. rewrite Hh.
  cbn zeta. by destruct (m _).
Qed.

Lemma with_self_self (w : World) : with_self (fun _ => self w) w = w.
Proof. by destruct w. Qed.

(** [shutdown] with the guard unset, a live scheduler task and an open
    session: it returns normally, the task is cancelled and the session
    closed. *)
Lemma shutdown_live (w : World) (tid sid : nat) (t : Task) :
  default false (_shutdown_started (self w)) = false ->
  _scheduler_task (self w) = Some tid ->
  tasks w !! tid = Some t -> is_live t = true ->
  session (self w) = Some sid ->
  sessions w !! sid = Some false ->
  let w' := exec shutdown w in
  result shutdown w = Ok tt
  /\ tasks w' = cancel_task tid (tasks w)
  /\ sessions w' = <[sid := true]> (sessions w).
Proof.
  intros Hguard Htid Htask Hlive Hsid Hopen.
  unfold shutdown. munfold. rewrite Hguard. munfold. rewrite Htid. munfold.
  rewrite (cancel_task_lookup tid (tasks w) t Htask), Hlive. munfold.
  cbn [is_CancelledError]. munfold.
  rewrite Hsid. munfold. rewrite Hopen. by munfold.
Qed.

(** What an instance left behind at [reset] is out of reach of the next
    one.  A task and an open session of the process stay as they are when
    the instance made after [reset] is configured, which adds a scheduler
    task and an open session of its own, and when that instance is shut
    down, which cancels and closes its own only. *)
Theorem reset_leaves_resources_behind (env : Env) (l : nat) (P : Process)
    (tid sid : nat) (t : Task) :
  _lock P = false ->
  tasks (shared P) !! tid = Some t ->
  sessions (shared P) !! sid = Some false ->
  let P2 := snd (__new__ (reset P)) in
  let o' := fresh (dom (instances P)) in
  let P3 := after_call o' (configure env l) P2 in
  let P4 := after_call o' shutdown P3 in
  let tid' := fresh (dom (tasks (shared P))) in
  let sid' := fresh (dom (sessions (shared P))) in
  fst (__new__ (reset P)) = Ok (Some o')
  /\ (call_result o' (configure env l) P2 = Some (Ok tt) ->
      tid' <> tid /\ sid' <> sid
      /\ (exists h, instances P3 !! o' = Some h
                    /\ _scheduler_task h = Some tid' /\ session h = Some sid')
      /\ tasks (shared P3) !! tid' = Some (SchedulerTask Starting)
      /\ sessions (shared P3) !! sid' = Some false
      /\ tasks (shared P3) !! tid = Some t
      /\ sessions (shared P3) !! sid = Some false
      /\ call_result o' shutdown P3 = Some (Ok tt)
      /\ tasks (shared P4) !! tid' = Some (Done WasCancelled)
      /\ sessions (shared P4) !! sid' = Some true
      /\ tasks (shared P4) !! tid = Some t
      /\ sessions (shared P4) !! sid = Some false).
Proof.
  intros Hlock Htask Hsess. cbn zeta.
  rewrite (new_after_reset P Hlock). cbn [fst snd]. split; [reflexivity|].
  set (o' := fresh (dom (instances P))).
  set (w0 := with_self (fun _ => new_handler)
               (exec (log DEBUG "Creating a new instance of RequestHandler")
                  (exec (log INFO "Resetting RequestHandler singleton instance")
                     (shared P)))).
  match goal with
  | |- context [after_call o' (configure env l) ?Q] => set (P2 := Q)
  end.
  destruct (call_bound o' (configure env l) P2 new_handler) as [Hr3 HP3];
    [apply lookup_insert_eq|].
  cbn [shared P2] in Hr3, HP3. fold w0 in Hr3, HP3.
  rewrite Hr3, HP3. clear Hr3 HP3. intros [= Hok].
  destruct (configure_fresh env l w0 eq_refl eq_refl Hok)
    as (Ht&Hs&Hf&Hc&Htid&Hsid&Hg).
  change (tasks w0) with (tasks (shared P)) in *.
  change (sessions w0) with (sessions (shared P)) in *.
  set (w1 := exec (configure env l) w0) in *.
  set (tid' := fresh (dom (tasks (shared P)))) in *.
  set (sid' := fresh (dom (sessions (shared P)))) in *.
  assert (Hnt : tid' <> tid).
  { intros Heq. pose proof (fresh_task_unused (shared P)) as Hn.
    fold tid' in Hn. congruence. }
  assert (Hns : sid' <> sid).
  { intros Heq. assert (Hn : sessions (shared P) !! sid' = None)
      by apply not_elem_of_dom, is_fresh. congruence. }
  match goal with
  | |- context [after_call o' shutdown ?Q] => set (P3 := Q)
  end.
  destruct (call_bound o' shutdown P3 (self w1)) as [Hr4 HP4];
    [apply lookup_insert_eq|].
  cbn [shared P3] in Hr4, HP4. rewrite with_self_self in Hr4, HP4.
  rewrite Hr4, HP4. clear Hr4 HP4. cbn [instances shared P3].
  rewrite lookup_insert_eq.
  split; [done|]. split; [done|]. split; [eauto|].
  rewrite Ht, Hs, !lookup_insert_eq, !lookup_insert_ne by done.
  split; [done|]. split; [done|]. split; [done|]. split; [done|].
  destruct (shutdown_live w1 tid' sid' (SchedulerTask Starting))
    as (Hr&Ht4&Hs4);
    [by rewrite Hg | done | by rewrite Ht, lookup_insert_eq | done | done
    | by rewrite Hs, lookup_insert_eq |].
  rewrite Hr, Ht4, Hs4, Ht, Hs.
  split; [done|].
  unfold cancel_task. rewrite lookup_insert_eq.
  unfold cancel_one. rewrite lookup_insert_eq. cbn [is_live].
  repeat split;
    rewrite ?lookup_insert_eq; try done;
    by rewrite !lookup_insert_ne by done.
Qed.

Lemma reset_leaves_resources_behind_witness :
  let P := after_call 0 (configure demo_env 0) (snd (__new__ new_process)) in
  let P3 := after_call 1 (configure demo_env 0) (snd (__new__ (reset P))) in
  let P4 := after_call 1 shutdown P3 in
  tasks (shared P4) !! 0%nat = Some (SchedulerTask Starting)
  /\ sessions (shared P4) !! 0%nat = Some false.
Proof.
  cbn zeta.
  destruct (reset_leaves_resources_behind demo_env 0
              (after_call 0 (configure demo_env 0) (snd (__new__ new_process)))
              0 0 (SchedulerTask Starting))
    as [_ H]; [vm_compute; reflexivity..|].
  destruct H as (_&_&_&_&_&_&_&_&_&_&Ht&Hs); [vm_compute; reflexivity|].
  split; [exact Ht | exact Hs].
Defined.

(** ** Requests left in the queue *)

Lemma Tidy_moves (w w' : World) : Tidy w -> moves w w' -> Tidy w'.
Proof.
  intros [Hnd Hq Hh Hu] [Hf Hr Ht (old&new&Heq&Hsub&Hnew&Hfresh) _].
  assert (Hold : forall fid, fid ∈ old -> fid ∈ queued_futures w).
  { intros fid Hin. by eapply elem_of_sublist. }
  assert (Hheld : forall fid, held w' fid ->
            held w fid \/ (fid ∈ queued_futures w /\ fid ∉ queued_futures w')).
  { intros fid (t&c&Htc&<-). destruct (Ht t c Htc) as [?|(_&_&?&?)]; [|by right].
    left. by exists t, c. }
  assert (Hres : forall fid, is_resolved (futures w' !! fid) = true ->
            is_resolved (futures w !! fid) = true \/ held w fid).
  { intros fid H. destruct (Hr fid H) as [?|(t&c&?&?&_)]; [by left|].
    right. by exists t, c. }
  split.
  - rewrite Heq. apply NoDup_app. split; [exact (sublist_NoDup _ _ Hnd Hsub)|].
    split; [|done]. intros fid Hin Hin'.
    destruct (Hq fid (Hold fid Hin)) as [[[f Hsome] _] _].
    destruct (Hfresh fid Hin') as [Hnone _]. congruence.
  - intros fid. rewrite Heq. intros [Hin|Hin]%elem_of_app.
    + destruct (Hq fid (Hold fid Hin)) as [[Hsome Hun] Hnh]. repeat split.
      * by apply Hf.
      * destruct (is_resolved (futures w' !! fid)) eqn:H; [|done].
        destruct (Hres fid H) as [?|?]; [congruence|done].
      * intros Hh'. destruct (Hheld fid Hh') as [?|(_&Hnot)]; [done|].
        apply Hnot. rewrite Heq. apply elem_of_app. by left.
    + destruct (Hfresh fid Hin) as [Hnone Hpend]. repeat split.
      * rewrite Hpend. eauto.
      * by rewrite Hpend.
      * intros Hh'. destruct (Hheld fid Hh') as [Hh0|(Hin0&_)].
        -- destruct (Hh fid Hh0) as [[f Hsome] _]. congruence.
        -- destruct (Hq fid Hin0) as [[[f Hsome] _] _]. congruence.
  - intros fid (t&c&Htc&<-). destruct (Ht t c Htc) as [Hold_task|(_&_&Hin0&_)].
    + destruct (Hh (c_future c)) as [Hsome Hun]; [by exists t, c|].
      split; [by apply Hf|].
      destruct (is_resolved (futures w' !! c_future c)) eqn:H; [|done].
      destruct (Hr _ H) as [?|(t0&c0&Ht0&Hc0&Hgone)]; [congruence|].
      rewrite (Hu t0 t c0 c Ht0 Hold_task Hc0) in Hgone. by destruct (Hgone c).
    + destruct (Hq _ Hin0) as [[Hsome Hun] Hnh]. split; [by apply Hf|].
      destruct (is_resolved (futures w' !! c_future c)) eqn:H; [|done].
      destruct (Hres _ H) as [?|?]; [congruence|done].
  - intros t t' c c' Htc Htc' Hc.
    destruct (Ht t c Htc) as [Ho|(->&_&Hin&_)],
        (Ht t' c' Htc') as [Ho'|(->&_&Hin'&_)]; [by eapply Hu| | |done].
    + destruct (Hq _ Hin') as [_ Hnh]. destruct Hnh. by exists t, c.
    + destruct (Hq _ Hin) as [_ Hnh]. destruct Hnh. by exists t', c'.
Qed.

Lemma Abandoned_moves (fid : nat) (w w' : World) :
  Abandoned fid w -> moves w w' -> Abandoned fid w'.
Proof.
  intros [[Hsome Hun] Hnh Hnq] [Hf Hr Ht (old&new&Heq&Hsub&Hnew&Hfresh) Hlive].
  split.
  - split; [by apply Hf|].
    destruct (is_resolved (futures w' !! fid)) eqn:Hres; [|done].
    destruct (Hr fid Hres) as [?|(t&c&?&?&_)]; [congruence|].
    destruct Hnh. by exists t, c.
  - intros (t&c&Htc&<-). destruct (Ht t c Htc) as [?|(_&Hl&Hin&_)].
    + apply Hnh. by exists t, c.
    + by apply Hnq.
  - intros Hl'. destruct (Hlive Hl') as [Hl|Hnil]; [|rewrite Hnil; apply not_elem_of_nil].
    rewrite Heq. intros [Hin|Hin]%elem_of_app.
    + apply (Hnq Hl). by eapply elem_of_sublist.
    + destruct (Hfresh fid Hin) as [Hnone _]. destruct Hsome as [f Hsome]. congruence.
Qed.

#[global] Instance quiet_refl : Reflexive quiet.
Proof. by intros w. Qed.

#[global] Instance quiet_trans : Transitive quiet.
Proof.
  intros w1 w2 w3 (Ht&Hf&Hr) (Ht'&Hf'&Hr'). repeat split; auto.
Qed.

#[global] Instance calm_refl : Reflexive calm.
Proof. by intros w. Qed.

#[global] Instance calm_trans : Transitive calm.
Proof.
  intros w1 w2 w3 (Hq&Hqu&Hs) (Hq'&Hqu'&Hs').
  split; [by etrans|]. split; [congruence|auto].
Qed.

#[global] Instance resolves_only_refl k : Reflexive (resolves_only k).
Proof. by intros w. Qed.

#[global] Instance resolves_only_trans k : Transitive (resolves_only k).
Proof.
  intros w1 w2 w3 (Hs&Ht&Hf&Hk) (Hs'&Ht'&Hf'&Hk').
  repeat split; [congruence|congruence|auto|].
  intros fid Hne. by rewrite Hk', Hk.
Qed.

#[global] Instance polls_refl : Reflexive polls.
Proof. by intros w. Qed.

#[global] Instance polls_trans : Transitive polls.
Proof. intros w1 w2 w3 (?&?&?) (?&?&?). repeat split; congruence. Qed.

Lemma calm_moves (w w' : World) : calm w w' -> moves w w'.
Proof.
  intros ((Ht&Hf&Hr)&Hq&Hs). split.
  - done.
  - intros fid Hres. left. by apply Hr.
  - intros t c Htc. left. by apply Ht.
  - exists (queued_futures w), []. rewrite app_nil_r.
    split; [unfold queued_futures; by rewrite Hq|]. split; [done|].
    split; [constructor|]. intros fid Hin. by apply elem_of_nil in Hin.
  - intros (t&p&Htp). left. exists t, p. by apply Hs.
Qed.

(** A new queue. *)
Lemma quiet_emptied_moves (w w' : World) :
  quiet w w' -> queue (self w') = Some [] -> moves w w'.
Proof.
  intros (Ht&Hf&Hr) Hq.
  assert (Hnil : queued_futures w' = []) by (unfold queued_futures; by rewrite Hq).
  split.
  - done.
  - intros fid Hres. left. by apply Hr.
  - intros t c Htc. left. by apply Ht.
  - exists [], []. rewrite Hnil. split; [done|]. split; [apply sublist_nil_l|].
    split; [constructor|]. intros fid Hin. by apply elem_of_nil in Hin.
  - intros _. by right.
Qed.

(** ** What shutdown, cancellation and polling leave alone *)

Lemma cancel_one_fetch tid ts t c :
  cancel_one tid ts !! t = Some (FetchTask c) -> ts !! t = Some (FetchTask c).
Proof.
  unfold cancel_one. destruct (ts !! tid) as [x|] eqn:Hx; [|done].
  destruct (is_live x); [|done].
  destruct (decide (tid = t)) as [->|Hne].
  - by rewrite lookup_insert_eq.
  - by rewrite lookup_insert_ne.
Qed.

Lemma cancel_batch_fetch batch ts t c :
  foldr cancel_one ts batch !! t = Some (FetchTask c) ->
  ts !! t = Some (FetchTask c).
Proof.
  induction batch as [|tid batch IH]; cbn; [done|].
  intros H. by apply cancel_one_fetch, IH in H.
Qed.

Lemma cancel_task_fetch tid ts t c :
  cancel_task tid ts !! t = Some (FetchTask c) -> ts !! t = Some (FetchTask c).
Proof.
  unfold cancel_task. intros H.
  repeat case_match; apply cancel_one_fetch in H; try done.
  by apply cancel_batch_fetch in H.
Qed.

Lemma emit_calm (ev : Effect) : keeps calm (emit ev).
Proof. intros w. by munfold. Qed.

Lemma set_shutdown_started_calm v : keeps calm (set_shutdown_started v).
Proof. intros w. by munfold. Qed.

Lemma sessions_calm (f : gmap nat bool -> gmap nat bool) :
  keeps calm (modify (with_sessions f)).
Proof. intros w. by munfold. Qed.

Lemma task_cancel_calm tid : keeps calm (task_cancel tid).
Proof.
  intros w. munfold. split; [split; [|done]|split; [done|]]; cbn.
  - intros t c. apply cancel_task_fetch.
  - intros t p. apply cancel_task_scheduler.
Qed.

Lemma cancel_caller_calm fid : keeps calm (cancel_caller fid).
Proof.
  intros w. munfold. split; [|done]. split; [done|]. cbn.
  destruct (futures w !! fid) as [[| | |]|] eqn:Hf; try done.
  split; intros fid'; (destruct (decide (fid = fid')) as [<-|Hne];
    [rewrite lookup_insert_eq | by rewrite lookup_insert_ne]);
    [eauto | done].
Qed.

#[global] Hint Resolve emit_calm set_shutdown_started_calm sessions_calm
  task_cancel_calm cancel_caller_calm : keeps.

Lemma shutdown_calm : keeps calm shutdown.
Proof. unfold shutdown, log, session_closed, session_close, await_task. keeps_auto. Qed.

Lemma retire_previous_calm : keeps calm retire_previous.
Proof. unfold retire_previous, log, session_close, await_task. keeps_auto. Qed.

Lemma emit_resolves_only k (ev : Effect) : keeps (resolves_only k) (emit ev).
Proof. intros w. by munfold. Qed.

Lemma set_result_resolves_only k v : keeps (resolves_only k) (set_result k v).
Proof.
  intros w. munfold. destruct (futures w !! k) as [[| | |]|] eqn:Hf; munfold; try done.
  repeat split; cbn; intros fid.
  - destruct (decide (k = fid)) as [<-|Hne];
      [rewrite lookup_insert_eq; eauto | by rewrite lookup_insert_ne].
  - intros Hne. by rewrite lookup_insert_ne.
Qed.

Lemma set_exception_resolves_only k e : keeps (resolves_only k) (set_exception k e).
Proof.
  intros w. munfold. destruct (futures w !! k) as [[| | |]|] eqn:Hf; munfold; try done.
  repeat split; cbn; intros fid.
  - destruct (decide (k = fid)) as [<-|Hne];
      [rewrite lookup_insert_eq; eauto | by rewrite lookup_insert_ne].
  - intros Hne. by rewrite lookup_insert_ne.
Qed.

#[global] Hint Resolve emit_resolves_only set_result_resolves_only
  set_exception_resolves_only : keeps.

Lemma fetch_resolves_only env c : keeps (resolves_only (c_future c)) (fetch env c).
Proof. unfold fetch, async_with_get, awaited, log. keeps_auto. Qed.

Lemma emit_polls (ev : Effect) : keeps polls (emit ev).
Proof. intros w. by munfold. Qed.

Lemma draw_polls env : keeps polls (draw env).
Proof. unfold draw. keeps_auto. apply keeps_modify. intros w. by repeat split. Qed.

Lemma set_batch_size_polls v : keeps polls (set_batch_size v).
Proof. intros w. by munfold. Qed.

#[global] Hint Resolve emit_polls draw_polls set_batch_size_polls : keeps.

Lemma begin_cycle_polls : keeps polls begin_cycle.
Proof. unfold begin_cycle. keeps_auto. Qed.

Lemma after_collecting_polls batch : keeps polls (after_collecting batch).
Proof. unfold after_collecting, begin_cycle, log. keeps_auto. Qed.

#[global] Hint Resolve begin_cycle_polls after_collecting_polls : keeps.

(** ** Every step moves *)

Lemma resume_polls (env : Env) (p : SchedulerPoint) (w : World) :
  (forall todo batch c q,
     p = Collecting (S todo) batch -> queue (self w) <> Some (c :: q)) ->
  polls w (exec (resume_from env p) w).
Proof.
  intros Hno. destruct p as [|[|todo] batch|batch|delay]; unfold resume_from.
  - unfold log. apply keeps_bind; auto with keeps; apply _.
  - apply after_collecting_polls.
  - destruct (queue (self w)) as [[|c q]|] eqn:Hq.
    + unfold exec. rewrite bind_run. munfold. rewrite Hq. cbn [fst snd].
      apply after_collecting_polls.
    + by destruct (Hno todo batch c q).
    + munfold. by rewrite Hq.
  - unfold randint, log. keeps_auto.
  - apply begin_cycle_polls.
Qed.

Lemma polls_update_moves (w w1 : World) (tid : nat) (p : SchedulerPoint) (x : Task) :
  polls w w1 -> tasks w !! tid = Some (SchedulerTask p) ->
  (forall c, x <> FetchTask c) ->
  moves w w1 /\ moves w (with_tasks <[tid := x]> w1).
Proof.
  intros (Hq&Ht&Hf) Hlive Hx.
  assert (Hl : live w) by (by exists tid, p).
  split; split; wsimpl; rewrite ?Hf; auto.
  - intros t c Htc. left. by rewrite <- Ht.
  - exists (queued_futures w), []. rewrite app_nil_r.
    split; [unfold queued_futures; by rewrite Hq|]. split; [done|].
    split; [constructor|]. intros fid Hin. by apply elem_of_nil in Hin.
  - intros t c Htc. left.
    cbn in Htc. apply lookup_insert_Some in Htc as [[_ Heq]|[_ Htc]].
    + by destruct (Hx c).
    + by rewrite <- Ht.
  - exists (queued_futures w), []. rewrite app_nil_r.
    split; [unfold queued_futures; cbn; by rewrite Hq|]. split; [done|].
    split; [constructor|]. intros fid Hin. by apply elem_of_nil in Hin.
Qed.

Lemma run_scheduler_moves (env : Env) (tid : nat) (p : SchedulerPoint) (w : World) :
  Tidy w -> tasks w !! tid = Some (SchedulerTask p) ->
  moves w (run_task env tid w).
Proof.
  intros HT Hlive.
  assert (Hl : live w) by (by exists tid, p).
  assert (Hcases : (exists todo batch c q,
                      p = Collecting (S todo) batch /\ queue (self w) = Some (c :: q))
                   \/ (forall todo batch c q,
                         p = Collecting (S todo) batch ->
                         queue (self w) <> Some (c :: q))).
  { destruct p as [|[|todo] batch|batch|delay]; try (right; intros; discriminate).
    destruct (queue (self w)) as [[|c q]|] eqn:Hq;
      [right; intros; discriminate | | right; intros; discriminate].
    left. by exists todo, batch, c, q. }
  destruct Hcases as [(todo&batch&c&q&->&Hq)|Hno].
  - destruct (resume_dequeue env w tid todo batch c q Hlive Hq)
      as (Ht&Hq'&Hf&_).
    set (w' := run_task env tid w) in *.
    set (t := fresh (dom (tasks w))) in *.
    assert (Hqf : queued_futures w = c_future c :: queued_futures w').
    { unfold queued_futures. by rewrite Hq, Hq'. }
    split.
    + intros fid. by rewrite Hf.
    + intros fid. rewrite Hf. auto.
    + intros t' c' Htc. rewrite Ht in Htc.
      apply lookup_insert_Some in Htc as [[_ Heq]|[_ Htc]]; [by destruct todo|].
      apply lookup_insert_Some in Htc as [[<- [= <-]]|[_ Htc]].
      * right. split; [done|]. split; [done|]. rewrite Hqf.
        split; [apply list_elem_of_here|].
        pose proof (tidy_nodup w HT) as Hnd. rewrite Hqf in Hnd.
        by apply NoDup_cons in Hnd as [? _].
      * by left.
    + exists (queued_futures w'), []. rewrite app_nil_r. split; [done|].
      split; [rewrite Hqf; by apply sublist_cons|].
      split; [constructor|]. intros fid Hin. by apply elem_of_nil in Hin.
    + intros _. by left.
  - pose proof (resume_polls env p w Hno) as Hp.
    unfold run_task. rewrite Hlive. unfold exec in Hp.
    destruct (resume_from env p w) as [[p'|e|] w1]; cbn [snd] in Hp.
    + by eapply polls_update_moves.
    + by eapply polls_update_moves.
    + by eapply (polls_update_moves w w1 tid p (Done Returned)).
Qed.

(** A task made of a coroutine runs to its end in one go. *)
Lemma fetch_finishes (env : Env) (c : Coroutine) (w : World) :
  result (fetch env c) w <> Suspended.
Proof.
  unfold fetch, async_with_get, awaited. munfold.
  destruct (session (self w)); munfold;
    [destruct (net env c) as [e|status read text]; munfold|];
    try (destruct (c_raw c), read, text; munfold);
    repeat (match goal with
            | |- context [futures w !! ?k] =>
                destruct (futures w !! k) as [[| | |]|]; munfold
            end);
    done.
Qed.

Lemma run_fetch_moves (env : Env) (tid : nat) (c : Coroutine) (w : World) :
  tasks w !! tid = Some (FetchTask c) -> moves w (run_task env tid w).
Proof.
  intros Htask. unfold run_task. rewrite Htask.
  pose proof (fetch_resolves_only env c w) as (Hs&Ht&Hf&Hk).
  pose proof (fetch_finishes env c w) as Hfin. unfold exec, result in *.
  destruct (fetch env c w) as [r w1]. cbn [fst snd] in *.
  destruct (finished r) as [o|] eqn:Ho; [|by destruct r].
  split; wsimpl.
  - done.
  - intros fid Hres. destruct (decide (fid = c_future c)) as [->|Hne].
    + right. exists tid, c. split; [done|]. split; [done|].
      intros c'. by rewrite lookup_insert_eq.
    + rewrite Hk in Hres by done. by left.
  - intros t c' [[_ ?]|[_ ?]]%lookup_insert_Some; [done|]. left. by rewrite <- Ht.
  - exists (queued_futures w), []. rewrite app_nil_r.
    split; [unfold queued_futures; cbn; by rewrite Hs|]. split; [done|].
    split; [constructor|]. intros fid Hin. by apply elem_of_nil in Hin.
  - intros (t&p&Htp). cbn in Htp.
    apply lookup_insert_Some in Htp as [[_ ?]|[_ ?]]; [done|]. left.
    exists t, p. by rewrite <- Ht.
Qed.

Lemma get_moves (env : Env) (url : string) (raw : bool) (w : World) :
  Inv env w -> Tidy w -> moves w (exec (get env url raw) w).
Proof.
  intros HI HT. destruct (_is_configured (self w)) eqn:Hc.
  - destruct (inv_configured env w HI Hc) as (_&_&_&[q Hq]&_).
    destruct (get_configured env url raw w q Hc Hq) as (_&Hq'&Hf&Ht&_).
    set (w' := exec (get env url raw) w) in *.
    set (fid' := fresh (dom (futures w))) in *. cbn [c_future] in Hf.
    assert (Hnone : futures w !! fid' = None) by apply not_elem_of_dom, is_fresh.
    split.
    + intros fid [f Hsome]. rewrite Hf.
      destruct (decide (fid' = fid)) as [<-|Hne]; [congruence|].
      rewrite lookup_insert_ne by done. eauto.
    + intros fid. rewrite Hf. destruct (decide (fid' = fid)) as [<-|Hne].
      * by rewrite lookup_insert_eq.
      * rewrite lookup_insert_ne by done. auto.
    + intros t c Htc. left. by rewrite <- Ht.
    + exists (queued_futures w), [fid']. split; [|split; [done|split]].
      * unfold queued_futures. rewrite Hq', Hq. cbn. by rewrite fmap_app.
      * apply NoDup_singleton.
      * intros fid ->%list_elem_of_singleton. split; [done|].
        rewrite Hf. apply lookup_insert_eq.
    + intros (t&p&Htp). left. exists t, p. by rewrite <- Ht.
  - assert (Hw : exec (get env url raw) w = w)
      by (unfold get; munfold; by rewrite Hc).
    rewrite Hw. by apply calm_moves.
Qed.

(** [configure] makes no task of a coroutine and resolves no future; it
    leaves the queue as it was or replaces it by an empty one. *)
Lemma configure_quiet (env : Env) (l : nat) (w : World) :
  Inv env w ->
  let w' := exec (configure env l) w in
  quiet w w' /\ (calm w w' \/ queue (self w') = Some []).
Proof.
  intros HI. cbn zeta.
  assert (H0 : calm w (configure_entry w)) by done.
  assert (Hcalm : forall w', calm w w' -> quiet w w' /\ (calm w w' \/ queue (self w') = Some []))
    by (intros w' Hc; split; [apply Hc | by left]).
  destruct (stale l w) eqn:Hstale;
    [|unfold exec; rewrite configure_current by done; by apply Hcalm].
  destruct (configure_stale_run env l w Hstale) as [_ ->].
  { intros Hc. by apply (inv_configured env w HI) in Hc as (_&?&_). }
  pose proof (reinitialise_run env l (configure_entry w)) as Hrun.
  cbn zeta in Hrun.
  set (w0 := configure_entry w) in *.
  set (retire := if _scheduler_task (self w0) is Some _ then retire_previous
                 else ret tt) in *.
  assert (HA : calm w (exec retire w0)).
  { etrans; [exact H0|]. unfold retire. destruct (_scheduler_task (self w0));
      [apply retire_previous_calm | reflexivity]. }
  destruct (result retire w0) as [[]|e|];
    [|unfold exec at 1 2 3; rewrite Hrun; by apply Hcalm..].
  set (wA := exec retire w0) in *.
  destruct (fresh_resources_effect env wA)
    as (_&_&HBt&HBf&_&_&_&_&_&HBq&_).
  set (wB := exec (fresh_resources env) wA) in *.
  destruct (register_frame env wB) as (HCself&_&HCt&HCf&_).
  set (wC := exec (_register_shutdown_hooks env) wB) in *.
  destruct HA as ((HAt&HAf&HAr)&_&_).
  assert (HC : quiet w wC /\ queue (self wC) = Some []).
  { split; [|by rewrite HCself].
    repeat split.
    - intros t c. rewrite HCt, HBt. apply HAt.
    - intros fid. rewrite HCf, HBf. apply HAf.
    - intros fid. rewrite HCf, HBf. apply HAr. }
  destruct HC as [HCq HCqueue].
  destruct (result (_register_shutdown_hooks env) wB) as [[]|e|];
    [|unfold exec at 1 2 3; rewrite Hrun; split; [done | by right]..].
  unfold exec at 1 2 3. rewrite Hrun. cbn [snd].
  destruct (start_scheduler_effect l wC)
    as (_&HDt&_&HDf&_&_&_&_&_&_&HDq&_).
  destruct HCq as (HCt'&HCf'&HCr').
  split; [|right; by rewrite HDq].
  repeat split.
  - intros t c. rewrite HDt. intros [[_ ?]|[_ ?]]%lookup_insert_Some; [done|].
    by apply HCt'.
  - intros fid. rewrite HDf. apply HCf'.
  - intros fid. rewrite HDf. apply HCr'.
Qed.

Lemma configure_moves (env : Env) (l : nat) (w : World) :
  Inv env w -> moves w (exec (configure env l) w).
Proof.
  intros HI. destruct (configure_quiet env l w HI) as [Hq [Hc|Hnil]].
  - by apply calm_moves.
  - by apply quiet_emptied_moves.
Qed.

Lemma step_moves (env : Env) (a : Action) (w : World) :
  Inv env w -> Tidy w -> moves w (step env a w).
Proof.
  intros HI HT. destruct a; cbn [step].
  - by apply configure_moves.
  - by apply get_moves.
  - apply calm_moves, shutdown_calm.
  - apply calm_moves, cancel_caller_calm.
  - destruct (tasks w !! tid) as [[p|c|o]|] eqn:Htask.
    + by eapply run_scheduler_moves.
    + by eapply run_fetch_moves.
    + unfold run_task. rewrite Htask. by apply calm_moves.
    + unfold run_task. rewrite Htask. by apply calm_moves.
  - destruct (installed sig (hooks w)); apply calm_moves;
      [apply shutdown_calm | reflexivity].
Qed.

Lemma new_world_Tidy : Tidy new_world.
Proof.
  split.
  - constructor.
  - intros fid Hin. by apply elem_of_nil in Hin.
  - intros fid (t&c&Htc&_). cbn in Htc. by rewrite lookup_empty in Htc.
  - intros t t' c c' Htc. cbn in Htc. by rewrite lookup_empty in Htc.
Qed.

Lemma reachable_Tidy (env : Env) (acts : list Action) :
  Tidy (run env acts new_world).
Proof.
  induction acts as [|a acts IH] using rev_ind; [apply new_world_Tidy|].
  rewrite run_app. cbn. eapply Tidy_moves; [exact IH|].
  apply step_moves; [apply reachable_Inv | exact IH].
Qed.

Lemma run_Abandoned (env : Env) (fid : nat) (more : list Action) (w : World) :
  Inv env w -> Tidy w -> Abandoned fid w -> Abandoned fid (run env more w).
Proof.
  revert w. induction more as [|a more IH]; intros w HI HT HA; [done|].
  cbn. pose proof (step_moves env a w HI HT) as Hm. apply IH.
  - by apply step_Inv.
  - by eapply Tidy_moves.
  - by eapply Abandoned_moves.
Qed.



(** A [configure] that re-initialises drops the queue.  When it returns
    normally after finding the handler not configured or configured under
    another loop, a request that was waiting in the queue is never
    answered, whatever happens next: its caller keeps waiting, or gets
    [CancelledError] if it was cancelled. *)
Theorem reconfigure_drops_queued_requests (env : Env) (acts more : list Action)
    (l : nat) (q : list Coroutine) (c : Coroutine) :
  let w := run env acts new_world in
  stale l w = true ->
  result (configure env l) w = Ok tt ->
  queue (self w) = Some q -> c ∈ q ->
  let w' := run env more (exec (configure env l) w) in
  (futures w' !! c_future c = Some FutPending
   /\ result (await_future (c_future c)) w' = Suspended)
  \/ (futures w' !! c_future c = Some FutCancelled
      /\ result (await_future (c_future c)) w' = Raise CancelledError).
Proof.
  intros w Hstale Hok Hq Hin w'.
  pose proof (reachable_Inv env acts) as HI. fold w in HI.
  pose proof (reachable_Tidy env acts) as HT. fold w in HT.
  assert (Hqf : c_future c ∈ queued_futures w).
  { unfold queued_futures. rewrite Hq. cbn. by apply list_elem_of_fmap_2. }
  destruct (tidy_queued w HT _ Hqf) as [[Hsome Hun] Hnh].
  set (w1 := exec (configure env l) w) in *.
  assert (Hq1 : queue (self w1) = Some []).
  { destruct (configure_stale_run env l w Hstale) as [Hr Hw1].
    { intros Hc. by apply (inv_configured env w HI) in Hc as (_&?&_). }
    rewrite Hr in Hok. unfold w1. rewrite Hw1.
    pose proof (Inv_shrinks env w _ HI (configure_entry_shrinks w)) as HI0.
    destruct (reinitialise_Inv env l (configure_entry w) HI0) as [_ Hfresh].
    by destruct (Hfresh Hok) as (_&_&_&?&_). }
  destruct (configure_quiet env l w HI) as [(Ht&Hf&Hr) _]. fold w1 in Ht, Hf, Hr.
  assert (HA : Abandoned (c_future c) w1).
  { split.
    - split; [by apply Hf|].
      destruct (is_resolved (futures w1 !! c_future c)) eqn:Hres; [|done].
      apply Hr in Hres. congruence.
    - intros (t&c'&Htc&Hc). apply Hnh. exists t, c'. split; [by apply Ht|done].
    - intros _. unfold queued_futures. rewrite Hq1. apply not_elem_of_nil. }
  assert (HI1 : Inv env w1) by (by apply configure_Inv).
  assert (HT1 : Tidy w1) by (eapply Tidy_moves; [exact HT | by apply configure_moves]).
  destruct (run_Abandoned env _ more w1 HI1 HT1 HA) as [[[f Hfut] Hres] _ _].
  fold w' in Hfut, Hres. unfold await_future. munfold. rewrite Hfut in *.
  destruct f; try done; [by left | by right].
Qed.

Lemma reconfigure_drops_queued_requests_witness :
  let w := run demo_env [CallConfigure 0; CallGet "a" false] new_world in
  let w' := run demo_env [RunTask 1; RunTask 1] (exec (configure demo_env 1) w) in
  futures w' !! 0%nat = Some FutPending.
Proof.
  cbn zeta.
  destruct (reconfigure_drops_queued_requests demo_env
              [CallConfigure 0; CallGet "a" false] [RunTask 1; RunTask 1] 1
              [ {| c_url := "a"; c_raw := false;
                   c_agent := nth 1 USER_AGENTS ""; c_future := 0 |} ]
              {| c_url := "a"; c_raw := false;
                 c_agent := nth 1 USER_AGENTS ""; c_future := 0 |})
    as [[H _]|[H _]].
  - vm_compute. reflexivity.
  - vm_compute. reflexivity.
  - vm_compute. reflexivity.
  - apply list_elem_of_here.
  - exact H.
  - vm_compute in H. discriminate H.
Defined.

(** ** Requests in a batch that is being executed *)

Lemma cancel_batch_member (batch : list nat) (ts : gmap nat Task) (t : nat)
    (c : Coroutine) :
  t ∈ batch -> ts !! t = Some (FetchTask c) ->
  foldr cancel_one ts batch !! t = Some (Done WasCancelled).
Proof.
  induction batch as [|b batch IH]; intros Hin Ht; [by apply elem_of_nil in Hin|].
  cbn [foldr]. apply elem_of_cons in Hin as [<-|Hin].
  - destruct (cancel_batch_lookup batch t ts _ Ht) as [H|H];
      unfold cancel_one at 1; rewrite H; cbn [is_live]; [apply lookup_insert_eq | done].
  - specialize (IH Hin Ht).
    by destruct (cancel_one_lookup b t _ _ IH) as [H|H].
Qed.

(** [shutdown] while the scheduler waits for a batch cancels, with the
    scheduler, the tasks of the batch that have not run; the requests of
    these tasks are never answered, whatever happens next: their callers
    keep waiting, or get [CancelledError] if they were cancelled. *)
Theorem shutdown_abandons_the_batch (env : Env) (acts more : list Action)
    (sched t : nat) (batch : list nat) (c : Coroutine) :
  let w := run env acts new_world in
  tasks w !! sched = Some (SchedulerTask (Executing batch)) ->
  t ∈ batch -> tasks w !! t = Some (FetchTask c) ->
  let w1 := exec shutdown w in
  let w' := run env more w1 in
  tasks w1 !! t = Some (Done WasCancelled)
  /\ ((futures w' !! c_future c = Some FutPending
       /\ result (await_future (c_future c)) w' = Suspended)
      \/ (futures w' !! c_future c = Some FutCancelled
          /\ result (await_future (c_future c)) w' = Raise CancelledError)).
Proof.
  intros w Hsched Hin Htask w1 w'.
  destruct (reachable env acts) as [HI HG]. fold w in HI, HG.
  pose proof (reachable_Tidy env acts) as HT. fold w in HT.
  assert (Hguard : default false (_shutdown_started (self w)) = false).
  { destruct (default false (_shutdown_started (self w))) eqn:Hg; [|done].
    by destruct (HG Hg sched (Executing batch)). }
  destruct (inv_scheduler env w HI sched _ Hsched) as (Htid&_).
  assert (Hne : sched <> t) by (intros ->; congruence).
  assert (Hdone : tasks w1 !! t = Some (Done WasCancelled)).
  { unfold w1. rewrite (shutdown_cancels w sched Hguard Htid).
    unfold cancel_task. rewrite Hsched.
    pose proof (cancel_batch_member batch (tasks w) t c Hin Htask) as Hb.
    by destruct (cancel_one_lookup sched t _ _ Hb) as [H|H]. }
  split; [done|].
  destruct (shutdown_calm w) as ((Ht&Hf&Hr)&_&_). fold w1 in Ht, Hf, Hr.
  destruct (tidy_held w HT (c_future c)) as [Hsome Hun]; [by exists t, c|].
  assert (HA : Abandoned (c_future c) w1).
  { split.
    - split; [by apply Hf|].
      destruct (is_resolved (futures w1 !! c_future c)) eqn:Hres; [|done].
      apply Hr in Hres. congruence.
    - intros (t'&c'&Htc&Hc). apply Ht in Htc as Hold.
      rewrite (tidy_unique w HT t' t c' c Hold Htask Hc) in Htc. congruence.
    - intros (t'&p&Htp).
      by destruct (shutdown_Guarded env w HI HG (shutdown_starts w) t' p). }
  assert (HI1 : Inv env w1)
    by (eapply Inv_shrinks; [exact HI | apply shutdown_shrinks]).
  assert (HT1 : Tidy w1)
    by (eapply Tidy_moves; [exact HT | apply calm_moves, shutdown_calm]).
  destruct (run_Abandoned env _ more w1 HI1 HT1 HA) as [[[f Hfut] Hres] _ _].
  fold w' in Hfut, Hres. unfold await_future. munfold. rewrite Hfut in *.
  destruct f; try done; [by left | by right].
Qed.

Lemma shutdown_abandons_the_batch_witness :
  let w1 := exec shutdown (run demo_env demo_requests new_world) in
  tasks w1 !! 1%nat = Some (Done WasCancelled)
  /\ futures (run demo_env [RunTask 1; RunTask 2] w1) !! 0%nat = Some FutPending.
Proof.
  cbn zeta.
  destruct (shutdown_abandons_the_batch demo_env demo_requests
              [RunTask 1; RunTask 2] 0 1 [1; 2]%nat demo_good_request)
    as [Hdone [[H _]|[H _]]].
  - vm_compute. reflexivity.
  - apply list_elem_of_here.
  - vm_compute. reflexivity.
  - split; [exact Hdone | exact H].
  - vm_compute in H. discriminate H.
Defined.

(** ** Every request has a future of its own *)

(** In any world the handler can reach, the coroutines that wait in the
    queue and the tasks made of coroutines that have not run all have
    different futures, and every one of these futures exists and is
    unresolved: no request is answered before its own task has run. *)
Theorem waiting_requests_have_own_futures (env : Env) (acts : list Action) :
  let w := run env acts new_world in
  NoDup (queued_futures w)
  /\ (forall fid, fid ∈ queued_futures w ->
        unresolved w fid
        /\ forall t c, tasks w !! t = Some (FetchTask c) -> c_future c <> fid)
  /\ (forall t c, tasks w !! t = Some (FetchTask c) -> unresolved w (c_future c))
  /\ (forall t t' c c',
        tasks w !! t = Some (FetchTask c) -> tasks w !! t' = Some (FetchTask c') ->
        c_future c = c_future c' -> t = t').
Proof.
  destruct (reachable_Tidy env acts) as [Hnd Hq Hh Hu]. cbn zeta.
  split; [done|]. split; [|split; [|done]].
  - intros fid Hin. destruct (Hq fid Hin) as [Hun Hnh]. split; [done|].
    intros t c Htc Hc. apply Hnh. by exists t, c.
  - intros t c Htc. apply Hh. by exists t, c.
Qed.

(** ** The pace of the scheduler *)

#[global] Instance pace_kept_refl : Reflexive pace_kept.
Proof. by intros w. Qed.

#[global] Instance pace_kept_trans : Transitive pace_kept.
Proof. unfold pace_kept. intros w1 w2 w3 ? ?. congruence. Qed.

Ltac pace_kept_auto :=
  unfold set_queue, set_session, set_batch_size, set_scheduler_loop,
    set_scheduler_task, set_shutdown_started, set_is_configured,
    ClientSession, session_closed, session_close, create_task, task_cancel,
    await_task, create_future, set_result, set_exception, await_future,
    cancel_caller, draw, randint, choice, log, emit;
  repeat first
    [ apply keeps_modify; intros ?; reflexivity
    | keeps_step ].

Lemma get_pace_kept env url raw : keeps pace_kept (get env url raw).
Proof. unfold get. pace_kept_auto. Qed.

Lemma shutdown_pace_kept : keeps pace_kept shutdown.
Proof. unfold shutdown. pace_kept_auto. Qed.

Lemma fetch_pace_kept env c : keeps pace_kept (fetch env c).
Proof. unfold fetch, async_with_get, awaited. pace_kept_auto. Qed.

Lemma cancel_caller_pace_kept fid : keeps pace_kept (cancel_caller fid).
Proof. pace_kept_auto. Qed.

Lemma configure_pace_kept env l : keeps pace_kept (configure env l).
Proof.
  unfold configure, reinitialise, retire_previous, fresh_resources,
    start_scheduler, _register_shutdown_hooks, signal_attr, register_hook,
    add_signal_handler, signal_signal.
  pace_kept_auto.
Qed.

(** A scheduler task that is live after [configure] was live before, at
    the same point, or is about to start. *)
Lemma configure_schedulers (env : Env) (l : nat) (w : World) (t : nat)
    (p : SchedulerPoint) :
  Inv env w ->
  tasks (exec (configure env l) w) !! t = Some (SchedulerTask p) ->
  tasks w !! t = Some (SchedulerTask p) \/ p = Starting.
Proof.
  intros HI.
  destruct (stale l w) eqn:Hstale;
    [|unfold exec; rewrite configure_current by done; by left].
  destruct (configure_stale_run env l w Hstale) as [_ ->].
  { intros Hc. by apply (inv_configured env w HI) in Hc as (_&?&_). }
  pose proof (reinitialise_run env l (configure_entry w)) as Hrun.
  cbn zeta in Hrun.
  set (w0 := configure_entry w) in *.
  set (retire := if _scheduler_task (self w0) is Some _ then retire_previous
                 else ret tt) in *.
  assert (HA : forall t p, tasks (exec retire w0) !! t = Some (SchedulerTask p) ->
                           tasks w !! t = Some (SchedulerTask p)).
  { unfold retire. destruct (_scheduler_task (self w0)); [|done].
    by destruct (retire_previous_shrinks w0) as (_&_&_&_&_&_&?&_). }
  destruct (result retire w0) as [[]|e|];
    [|unfold exec at 1; rewrite Hrun; cbn [snd]; left; by apply HA..].
  set (wA := exec retire w0) in *.
  destruct (fresh_resources_effect env wA) as (_&_&HBt&_).
  set (wB := exec (fresh_resources env) wA) in *.
  destruct (register_frame env wB) as (_&_&HCt&_).
  set (wC := exec (_register_shutdown_hooks env) wB) in *.
  destruct (result (_register_shutdown_hooks env) wB) as [[]|e|];
    [|unfold exec at 1; rewrite Hrun; cbn [snd]; rewrite HCt, HBt; left; by apply HA..].
  unfold exec at 1. rewrite Hrun. cbn [snd].
  destruct (start_scheduler_effect l wC) as (_&->&_).
  intros [[_ [= <-]]|[_ Ht]]%lookup_insert_Some; [by right|].
  left. apply HA. by rewrite <- HBt, <- HCt.
Qed.

Lemma new_world_Paced : Paced new_world.
Proof. split; [cbn; lia|]. intros tid p H. cbn in H. by rewrite lookup_empty in H. Qed.

(** Steps that leave the burst alone and bring no scheduler to life,
    except one about to start. *)
Lemma Paced_kept (w w' : World) :
  Paced w -> pace_kept w w' ->
  (forall t p, tasks w' !! t = Some (SchedulerTask p) ->
               tasks w !! t = Some (SchedulerTask p) \/ p = Starting) ->
  Paced w'.
Proof.
  intros [Hle Hat] Hk Hs. unfold Paced. rewrite Hk. split; [done|].
  intros t p Htp. destruct (Hs t p Htp) as [Hold| ->]; [by eapply Hat|done].
Qed.

(** The handler's scheduler moves to a point that fits the burst. *)
Lemma Paced_update (env : Env) (w w' : World) (tid : nat)
    (p0 p' : SchedulerPoint) :
  Inv env w -> tasks w !! tid = Some (SchedulerTask p0) ->
  (burst (trace w') <= 5)%nat -> pace_at (burst (trace w')) p' ->
  (forall t p, tasks w' !! t = Some (SchedulerTask p) ->
               (t = tid /\ p = p')
               \/ (t <> tid /\ tasks w !! t = Some (SchedulerTask p))) ->
  Paced w'.
Proof.
  intros HI Hlive Hle Hat Hs. split; [done|].
  intros t p Htp. destruct (Hs t p Htp) as [[_ ->]|[Hne Hold]]; [done|].
  destruct (inv_scheduler env w HI _ _ Hlive) as (Htid&_).
  destruct (inv_scheduler env w HI _ _ Hold) as (Ht&_). congruence.
Qed.

Lemma run_scheduler_Paced (env : Env) (tid : nat) (p : SchedulerPoint) (w : World) :
  Inv env w -> Paced w -> tasks w !! tid = Some (SchedulerTask p) ->
  Paced (run_task env tid w).
Proof.
  intros HI [Hle Hat] Htask.
  destruct (inv_scheduler env w HI tid p Htask)
    as (Htid&[q Hq]&_&b&Hb&Hrange&Hpoint).
  pose proof (Hat tid p Htask) as Hp.
  assert (Hdone : forall o w1, pace_kept w w1 -> tasks w1 = tasks w ->
                    Paced (with_tasks <[tid := Done o]> w1)).
  { intros o w1 Hk Ht. apply (Paced_kept w); [done|done|].
    intros t p'. cbn. rewrite Ht.
    intros [[_ ?]|[_ ?]]%lookup_insert_Some; [done|by left]. }
  unfold run_task. rewrite Htask.
  unfold resume_from, after_collecting, begin_cycle.
  destruct p as [|[|todo] batch|batch|delay]; cbn [point_ok pace_at] in Hpoint, Hp.
  - (* Starting *)
    munfold. rewrite Hb. munfold.
    eapply (Paced_update env w _ tid _ (Collecting (Z.to_nat b) []));
      wsimpl; try done; [cbn; lia|].
    intros ? ?; apply scheduler_tasks_insert.
  - lia.
  - (* Collecting *)
    munfold. rewrite Hq. munfold.
    destruct q as [|c q]; munfold.
    + destruct batch as [|t0 batch]; munfold; rewrite ?Hb; munfold.
      * eapply (Paced_update env w _ tid _ (Collecting (Z.to_nat b) []));
          wsimpl; try done.
        intros ? ?; apply scheduler_tasks_insert.
      * eapply (Paced_update env w _ tid _ (Executing (t0 :: batch)));
          wsimpl; try done.
        intros ? ?; apply scheduler_tasks_insert.
    + destruct todo as [|todo]; munfold.
      * destruct (batch ++ [fresh (dom (tasks w))])%list as [|t0 batch'] eqn:Hbatch;
          [by destruct batch|]. munfold.
        assert (Hlen : S (burst (trace w)) = length (t0 :: batch'))
          by (rewrite <- Hbatch, length_app; cbn; lia).
        eapply (Paced_update env w _ tid _ (Executing (t0 :: batch')));
          wsimpl; try done.
        -- cbn [burst is_pause is_dequeue String.eqb]. cbn. cbn in Hlen. lia.
        -- intros ? ?; apply scheduler_tasks_insert_fetch.
      * eapply (Paced_update env w _ tid _
                 (Collecting (S todo) (batch ++ [fresh (dom (tasks w))])));
          wsimpl; try done.
        -- cbn. lia.
        -- cbn. rewrite length_app. cbn. lia.
        -- intros ? ?; apply scheduler_tasks_insert_fetch.
  - (* Executing *)
    munfold.
    destruct (gathered (tasks w) batch) as [[|e|]|]; munfold.
    + eapply (Paced_update env w _ tid _
                 (Sleeping (5 + Z.of_nat (entropy env (S (rng_pos w))) `mod` 6)));
        wsimpl; try done; [cbn; lia|].
      intros ? ?; apply scheduler_tasks_insert.
    + by apply Hdone.
    + by apply Hdone.
    + eapply (Paced_update env w _ tid _ (Executing batch));
        wsimpl; try done.
      intros ? ?; apply scheduler_tasks_insert.
  - (* Sleeping *)
    munfold. rewrite Hb. munfold.
    eapply (Paced_update env w _ tid _ (Collecting (Z.to_nat b) []));
      wsimpl; try done; try lia.
    intros ? ?; apply scheduler_tasks_insert.
Qed.

Lemma run_task_Paced (env : Env) (tid : nat) (w : World) :
  Inv env w -> Paced w -> Paced (run_task env tid w).
Proof.
  intros HI HP. destruct (tasks w !! tid) as [[p|c|o]|] eqn:Htask.
  - by eapply run_scheduler_Paced.
  - unfold run_task. rewrite Htask.
    pose proof (fetch_pace_kept env c w) as Hk.
    destruct (fetch_shrinks env c w) as (_&_&_&_&_&_&Hs&_). unfold exec in *.
    destruct (fetch env c w) as [r w1]. cbn [snd] in *.
    destruct (finished r).
    + apply (Paced_kept w); [done|done|]. intros t p. cbn.
      intros [[_ ?]|[_ ?]]%lookup_insert_Some; [done|]. left. by apply Hs.
    + apply (Paced_kept w); [done|done|]. intros t p ?. left. by apply Hs.
  - unfold run_task. by rewrite Htask.
  - unfold run_task. by rewrite Htask.
Qed.

Lemma step_Paced (env : Env) (a : Action) (w : World) :
  Inv env w -> Paced w -> Paced (step env a w).
Proof.
  intros HI HP.
  assert (Hshutdown : Paced (exec shutdown w)).
  { apply (Paced_kept w); [done|apply shutdown_pace_kept|].
    intros t p ?. left. by destruct (shutdown_shrinks w) as (_&_&_&_&_&_&Hs&_); apply Hs. }
  destruct a; cbn [step].
  - apply (Paced_kept w); [done|apply configure_pace_kept|].
    intros t p. by apply configure_schedulers.
  - apply (Paced_kept w); [done|apply get_pace_kept|].
    intros t p ?. left.
    by destruct (get_shrinks env url raw w) as (_&_&_&_&_&_&Hs&_); apply Hs.
  - done.
  - apply (Paced_kept w); [done|apply cancel_caller_pace_kept|].
    intros t p ?. left.
    by destruct (cancel_caller_shrinks future w) as (_&_&_&_&_&_&Hs&_); apply Hs.
  - by apply run_task_Paced.
  - by destruct (installed sig (hooks w)).
Qed.

(** The scheduler never takes more than five coroutines from the queue
    without a pause.  In any world the handler can reach, at most five
    were taken since a scheduler last started or went to sleep; while a
    scheduler collects or executes a batch they are the tasks of that
    batch, and while it sleeps there is none. *)
Theorem at_most_five_between_pauses (env : Env) (acts : list Action) :
  let w := run env acts new_world in
  (burst (trace w) <= 5)%nat
  /\ forall tid p,
       tasks w !! tid = Some (SchedulerTask p) ->
       match p with
       | Starting => True
       | Collecting _ batch | Executing batch =>
           burst (trace w) = length batch
       | Sleeping _ => burst (trace w) = 0%nat
       end.
Proof.
  cbn zeta. change (Paced (run env acts new_world)).
  induction acts as [|a acts IH] using rev_ind; [apply new_world_Paced|].
  rewrite run_app. cbn [run foldl].
  apply step_Paced; [apply reachable_Inv | exact IH].
Qed.
